(** * Cyberbank card issuer: ledger, PAN generator, CVV provider and expiry

    A shallow embedding of the Go sources of the issuer core together
    with the properties its specification states about them.

    - [cardgen]  : [modules/bank-card/issuer/api.go] (package cardgen)
    - [expiry]   : [internal/expiry/expiry.go]
    - [security] : the demo (HMAC) CVV provider and its strict helpers
    - [issuer]   : [issuer/repository.go] over the PostgreSQL schema of
                   [migrations/issuer/0001_init_postgres.sql]

    Conventions.  A Go [string] is a [string] of bytes ([ascii]); a Go
    [int]/[int64] is a [Z]; a Go [(T, error)] result is a [result T].
    Effects are threaded explicitly: the random source as a tape of
    reads, the database as a value of type [issuer.DB]. *)

From Stdlib Require Import ZArith Lia Bool List Ascii String.
From stdpp Require Import base option list gmap strings.

Local Open Scope string_scope.
Local Open Scope Z_scope.

(** ** Errors *)

(** The error values of the packages.  A constructor stands for one
    [fmt.Errorf]/[errors.New] site (its message is quoted next to it); the
    wrapping constructors keep the wrapped error, as [%w] does. *)
Inductive error : Type :=
  (* cardgen *)
  | ErrBinRequired                      (* "bin is required" *)
  | ErrBinDigits                        (* "bin must contain digits only" *)
  | ErrBinLength                        (* "bin must be 6, 8, or 9 digits" *)
  | ErrTotalLength                      (* "total length must be 13..19" *)
  | ErrBinTooLong (bin : string)        (* "bin too long: %s" *)
  | ErrSequenceNumeric                  (* "sequence must be numeric" *)
  | ErrSequenceLength (n fill : Z)      (* "sequence length %d exceeds %d" *)
  | ErrRandRead                         (* the error of a failed rand.Read *)
  | ErrRand (e : error)                 (* "rand: %w" *)
  | ErrPanRequired                      (* "pan is required" *)
  | ErrPanDigits                        (* "pan must contain digits only" *)
  | ErrPanLength (l : Z)                (* "pan length must be 13..19 digits (got %d)" *)
  | ErrLuhn                             (* "invalid luhn check digit" *)
  | ErrExistsCallback (e : error)       (* "exists callback: %w" *)
  | ErrUniqueExhausted (maxRetries : Z) (* "failed to generate unique PAN after %d retries" *)
  | ErrCallback (msg : string)          (* an error made by the caller's callback *)
  (* expiry *)
  | ErrExpiryLength                     (* "expiry must be YYMM (4 digits)" *)
  | ErrExpiryDigits                     (* "expiry must be digits: YYMM" *)
  | ErrExpiryMonth                      (* "expiry month must be 01..12" *)
  (* security *)
  | ErrDemoKeyRequired                  (* "cvv demo key is required" *)
  | ErrKeyMissing                       (* errKeyMissing: "CVK_DEMO not set; ..." *)
  | ErrServiceCode                      (* "service code must be 3 digits" *)
  | ErrServiceCodeLen (l : Z)           (* "serviceCode must be 3 digits (got len=%d)" *)
  | ErrServiceCodeDigits                (* "serviceCode must be digits" *)
  | ErrPanNoCDDigits                    (* "panNoCD must be digits only" *)
  | ErrPanNoCDLength (l : Z)            (* "panNoCD length must be 12..18 (got %d)" *)
  (* issuer *)
  | ErrSentinel (name : string)         (* a package-level error variable *)
  | ErrWrap (e : error)                 (* fmt.Errorf("%w", e) *)
  | ErrAuthNotFound                     (* "auth not found" *)
  | ErrBadAuthStatus (status : string)  (* "bad auth status: %s" *)
  | ErrCurrencyMismatch                 (* "currency mismatch" *)
  | ErrInvalidCaptureAmount             (* "invalid capture amount" *)
  | ErrNotSupportedInMemory             (* "not supported in memory repo" *)
  | ErrNoRows                           (* sql.ErrNoRows *)
  | ErrDB (e : string).                 (* an error raised by the database *)

(** Modelled from the spec: [models.ErrInsufficientFunds], the error
    variable of package models that stands for the insufficient-funds
    outcome; the file that declares it is not among the sources, which
    return it and test for it with [errors.Is]. *)
Definition ErrInsufficientFunds : error := ErrSentinel "insufficient funds".

Inductive result (A : Type) : Type :=
  | Ok (a : A)
  | Err (e : error).
Arguments Ok {A} a.
Arguments Err {A} e.

Definition is_ok {A} (r : result A) : bool :=
  match r with Ok _ => true | Err _ => false end.

(** [errors.Unwrap]: the error a [%w] site wrapped, if any. *)
Definition Unwrap (e : error) : option error :=
  match e with
  | ErrRand e' | ErrExistsCallback e' | ErrWrap e' => Some e'
  | _ => None
  end.

Definition error_eq_dec : forall (a b : error), {a = b} + {a <> b}.
Proof.
  decide equality; try apply Z.eq_dec; apply string_dec.
Defined.

(** [errors.Is err target]: [target] occurs on the [Unwrap] chain of [err]. *)
Fixpoint errors_Is (err target : error) : bool :=
  if error_eq_dec err target then true
  else match err with
       | ErrRand e' | ErrExistsCallback e' | ErrWrap e' => errors_Is e' target
       | _ => false
       end.

(** ** Bytes and integers *)

Definition byte_val (c : ascii) : Z := Z.of_nat (nat_of_ascii c).

(** A [byte] from an integer, reduced modulo 256. *)
Definition byte_of (z : Z) : ascii := ascii_of_nat (Z.to_nat (z mod 256)).

(** Go's [byte] subtraction and addition wrap modulo 256. *)
Definition byte_sub (a b : ascii) : ascii := byte_of (byte_val a - byte_val b).
Definition byte_add (a b : ascii) : ascii := byte_of (byte_val a + byte_val b).

Definition len (s : string) : Z := Z.of_nat (String.length s).

Definition min_int64 : Z := - 2 ^ 63.
Definition max_int64 : Z := 2 ^ 63 - 1.
Definition in_int64 (z : Z) : bool := (min_int64 <=? z) && (z <=? max_int64).

(** Two's-complement wrap-around of Go's [int64] arithmetic. *)
Definition wrap64 (z : Z) : Z := (z + 2 ^ 63) mod 2 ^ 64 - 2 ^ 63.

(** ** Package cardgen *)

Module cardgen.

Definition panLen : Z := 16.

(** [s[i] < '0' || s[i] > '9'] negated. *)
Definition is_digit (c : ascii) : bool :=
  (byte_val "0" <=? byte_val c) && (byte_val c <=? byte_val "9").

Fixpoint IsDigits (s : string) : bool :=
  match s with
  | EmptyString => true
  | String c r => if is_digit c then IsDigits r else false
  end.

Definition ValidateBIN (bin : string) : result unit :=
  if String.eqb bin "" then Err ErrBinRequired
  else if negb (IsDigits bin) then Err ErrBinDigits
  else match len bin with
       | 6 | 8 | 9 => Ok tt
       | _ => Err ErrBinLength
       end.

(** The random source.  Each element of the tape is what one call of
    [rand.Read(buf)] delivers into the 64-byte buffer; when the tape is
    used up the read fails. *)
Definition tape := list (list ascii).

Definition threshold : Z := 250.

(** The inner loop of [randomDigits]: scan one buffer while digits are
    still wanted; returns the digits written and how many are still
    missing. *)
Fixpoint scan_buffer (buf : list ascii) (need : nat) : string * nat :=
  match need, buf with
  | O, _ => ("", O)
  | _, [] => ("", need)
  | S n, b :: r =>
      if byte_val b <? threshold
      then let '(s, k) := scan_buffer r n in
           (String (byte_add "0" (byte_of (byte_val b mod 10))) s, k)
      else scan_buffer r need
  end.

(** The outer loop of [randomDigits]: [for sb.Len() < count]. *)
Fixpoint read_digits (rnd : tape) (need : nat) : result string * tape :=
  match need with
  | O => (Ok "", rnd)
  | S _ =>
      match rnd with
      | [] => (Err ErrRandRead, [])
      | buf :: rest =>
          let '(s, k) := scan_buffer (firstn 64 buf) need in
          match read_digits rest k with
          | (Ok s', t) => (Ok (s ++ s'), t)
          | (Err e, t) => (Err e, t)
          end
      end
  end.

Definition randomDigits (count : Z) (rnd : tape) : result string * tape :=
  if count <=? 0 then (Ok "", rnd)
  else read_digits rnd (Z.to_nat count).

(** One step of the Luhn loop: the digit value, doubled (and reduced by 9
    when above 9) at every other position. *)
Definition luhn_digit (dbl : bool) (c : ascii) : Z :=
  let d := byte_val (byte_sub c "0") in
  if dbl then (if d * 2 >? 9 then d * 2 - 9 else d * 2) else d.

(** The loop [for i := len(body)-1; i >= 0; i--], over the bytes of the
    body taken from the last one. *)
Fixpoint luhn_loop (rbody : list ascii) (dbl : bool) (sum : Z) : Z :=
  match rbody with
  | [] => sum
  | c :: r => luhn_loop r (negb dbl) (sum + luhn_digit dbl c)
  end.

Definition luhnCheckDigit (body : string) : string :=
  let sum := luhn_loop (rev (list_ascii_of_string body)) true 0 in
  let cd := Z.rem (10 - Z.rem sum 10) 10 in
  String (byte_add "0" (byte_of cd)) "".

(** The last byte of a string, [pan[len(pan)-1]]. *)
Definition last_byte (s : string) : option ascii :=
  String.get (String.length s - 1) s.

Definition ValidatePAN (pan : string) : result unit :=
  if String.eqb pan "" then Err ErrPanRequired
  else if negb (IsDigits pan) then Err ErrPanDigits
  else if (len pan <? 13) || (len pan >? 19) then Err (ErrPanLength (len pan))
  else
    let body := substring 0 (String.length pan - 1) pan in
    let cd := luhnCheckDigit body in
    if decide (last_byte pan = String.get 0 cd) then Ok tt else Err ErrLuhn.

(** ASCII white space, as [strings.TrimSpace] cuts it. *)
Definition is_space (c : ascii) : bool :=
  match byte_val c with
  | 9 | 10 | 11 | 12 | 13 | 32 => true
  | _ => false
  end.

Fixpoint trim_left (s : string) : string :=
  match s with
  | String c r => if is_space c then trim_left r else s
  | EmptyString => EmptyString
  end.

Definition string_rev (s : string) : string :=
  string_of_list_ascii (rev (list_ascii_of_string s)).

Definition TrimSpace (s : string) : string :=
  string_rev (trim_left (string_rev (trim_left s))).

(** [copy(b[fill-len(seq):], seq)] on the [fill] random digits. *)
Definition overwrite_tail (digits seq : string) : string :=
  substring 0 (String.length digits - String.length seq) digits ++ seq.

(** The checks on the optional sequence, shared by both generators. *)
Definition check_sequence (seq : string) (fill : Z) : result unit :=
  if negb (String.eqb seq "") then
    if negb (IsDigits seq) then Err ErrSequenceNumeric
    else if len seq >? fill then Err (ErrSequenceLength (len seq) fill)
    else Ok tt
  else Ok tt.

(** The common tail of both generators, from [randomDigits(fill)] on. *)
Definition fill_and_check (bin seq : string) (fill : Z) (rnd : tape)
  : result string * tape :=
  match randomDigits fill rnd with
  | (Err e, t) => (Err (ErrRand e), t)
  | (Ok digitsPart, t) =>
      let b := if negb (String.eqb seq "") then overwrite_tail digitsPart seq
               else digitsPart in
      let body := bin ++ b in
      (Ok (body ++ luhnCheckDigit body), t)
  end.

Definition GeneratePAN (bin sequence : string) (rnd : tape) : result string * tape :=
  match ValidateBIN bin with
  | Err e => (Err e, rnd)
  | Ok _ =>
      let fill := panLen - 1 - len bin in
      if fill <=? 0 then (Err (ErrBinTooLong bin), rnd)
      else
        let seq := TrimSpace sequence in
        match check_sequence seq fill with
        | Err e => (Err e, rnd)
        | Ok _ => fill_and_check bin seq fill rnd
        end
  end.

Definition GeneratePANWithLength (bin : string) (totalLen : Z) (sequence : string)
    (rnd : tape) : result string * tape :=
  match ValidateBIN bin with
  | Err e => (Err e, rnd)
  | Ok _ =>
      if (totalLen <? 13) || (totalLen >? 19) then (Err ErrTotalLength, rnd)
      else
        let fill := totalLen - 1 - len bin in
        if fill <=? 0 then (Err (ErrBinTooLong bin), rnd)
        else
          let seq := TrimSpace sequence in
          match check_sequence seq fill with
          | Err e => (Err e, rnd)
          | Ok _ => fill_and_check bin seq fill rnd
          end
  end.

(** The state a run of [GenerateUniquePAN] threads: the random tape and the
    log of the PANs generated so far (one entry per generation attempt
    that produced a PAN). *)
Record gen_state := { rnd_of : tape; attempts : list string }.

(** The loop [for i := 0; i <= maxRetries; i++] with [n] iterations left. *)
Fixpoint unique_loop (n : nat) (bin : string) (totalLen : Z) (sequence : string)
    (maxRetries : Z) (exists_ : option (string -> result bool)) (st : gen_state)
  : result string * gen_state :=
  match n with
  | O => (Err (ErrUniqueExhausted maxRetries), st)
  | S n' =>
      match GeneratePANWithLength bin totalLen sequence (rnd_of st) with
      | (Err e, t) => (Err e, {| rnd_of := t; attempts := attempts st |})
      | (Ok pan, t) =>
          let st' := {| rnd_of := t; attempts := attempts st ++ [pan] |} in
          match exists_ with
          | None => (Ok pan, st')
          | Some f =>
              match f pan with
              | Err e => (Err (ErrExistsCallback e), st')
              | Ok used =>
                  if negb used then (Ok pan, st')
                  else unique_loop n' bin totalLen sequence maxRetries exists_ st'
              end
          end
      end
  end.

(** [GenerateUniquePAN]; the loop counter stays below [maxRetries <
    max_int64], so the loop runs [maxRetries + 1] times at most. *)
Definition GenerateUniquePAN (bin : string) (totalLen : Z) (sequence : string)
    (maxRetries : Z) (exists_ : option (string -> result bool)) (rnd : tape)
  : result string * gen_state :=
  let maxRetries := if maxRetries <=? 0 then 5 else maxRetries in
  unique_loop (Z.to_nat (maxRetries + 1)) bin totalLen sequence maxRetries exists_
    {| rnd_of := rnd; attempts := [] |}.

End cardgen.

(** ** Package time (Go's standard library), as far as expiry uses it *)

(** The calendar arithmetic of Go's [time] package on the proleptic
    Gregorian calendar.  An instant is a count of nanoseconds since the Unix
    epoch; a [Location] is a zone with a fixed offset, in seconds east of
    UTC ([time.UTC], [time.FixedZone]); zones with transition tables are
    outside this model. *)
Module time.

Record Location := { offset : Z }.

Definition UTC : Location := {| offset := 0 |}.

Record Time := { instant : Z; loc : Location }.

Definition Nanosecond : Z := 1.
Definition nanosPerSecond : Z := 1000000000.
Definition secondsPerDay : Z := 86400.

Definition isLeap (year : Z) : bool :=
  (year mod 4 =? 0) && (negb (year mod 100 =? 0) || (year mod 400 =? 0)).

(** [daysBefore[m]]: days in a non-leap year before month [m + 1]. *)
Definition daysBefore (m : Z) : Z :=
  nth (Z.to_nat m) [0; 31; 59; 90; 120; 151; 181; 212; 243; 273; 304; 334; 365] 0.

(** Days from 1970-01-01 to January 1st of [year]. *)
Definition daysSinceEpoch (year : Z) : Z :=
  365 * (year - 1970)
  + ((year - 1) / 4 - (year - 1) / 100 + (year - 1) / 400)
  - (1969 / 4 - 1969 / 100 + 1969 / 400).

(** Days from 1970-01-01 to the given date; the month is normalised into
    1..12 with a carry into the year, the day may overflow its month. *)
Definition daysFromCivil (year month day : Z) : Z :=
  let m := month - 1 in
  let year := year + m / 12 in
  let m := m mod 12 in
  let month := m + 1 in
  daysSinceEpoch year + daysBefore (month - 1)
  + (if isLeap year && (3 <=? month) then 1 else 0)
  + (day - 1).

(** [time.Date(year, month, day, hour, min, sec, nsec, loc)]. *)
Definition Date (year month day hour min sec nsec : Z) (l : Location) : Time :=
  let abs := daysFromCivil year month day * secondsPerDay
             + hour * 3600 + min * 60 + sec in
  {| instant := (abs - offset l) * nanosPerSecond + nsec; loc := l |}.

(** Seconds of the wall clock of [t] in its location, counted from the
    epoch, and the nanoseconds within the second. *)
Definition wallSeconds (t : Time) : Z := instant t / nanosPerSecond + offset (loc t).
Definition nsec (t : Time) : Z := instant t mod nanosPerSecond.

(** The civil date of a day count (the inverse of [daysFromCivil]). *)
Definition civilFromDays (days : Z) : Z * Z * Z :=
  let z := days + 719468 in
  let era := z / 146097 in
  let doe := z - era * 146097 in
  let yoe := (doe - doe / 1460 + doe / 36524 - doe / 146096) / 365 in
  let y := yoe + era * 400 in
  let doy := doe - (365 * yoe + yoe / 4 - yoe / 100) in
  let mp := (5 * doy + 2) / 153 in
  let d := doy - (153 * mp + 2) / 5 + 1 in
  let m := if mp <? 10 then mp + 3 else mp - 9 in
  (if m <=? 2 then y + 1 else y, m, d).

(** [t.Date()] and [t.Clock()]. *)
Definition DateOf (t : Time) : Z * Z * Z :=
  civilFromDays (wallSeconds t / secondsPerDay).

Definition ClockOf (t : Time) : Z * Z * Z :=
  let s := wallSeconds t mod secondsPerDay in
  (s / 3600, (s mod 3600) / 60, s mod 60).

(** [t.AddDate(years, months, days)]. *)
Definition AddDate (t : Time) (years months days : Z) : Time :=
  let '(year, month, day) := DateOf t in
  let '(hour, min, sec) := ClockOf t in
  Date (year + years) (month + months) (day + days) hour min sec (nsec t) (loc t).

(** [t.Add(d)], [t.In(loc)], [t.After(u)], [t.Location()]. *)
Definition Add (t : Time) (d : Z) : Time :=
  {| instant := instant t + d; loc := loc t |}.

Definition In (t : Time) (l : Location) : Time :=
  {| instant := instant t; loc := l |}.

Definition After (t u : Time) : bool := instant u <? instant t.

Definition Location_of (t : Time) : Location := loc t.

End time.

(** ** Package expiry *)

Module expiry.

(** The value of a decimal digit byte, [int(c - '0')]. *)
Definition digit_val (c : ascii) : Z := byte_val (byte_sub c "0").

(** [strconv.Atoi] on a string of decimal digits (the only strings it is
    given here, after [ValidateYYMM]). *)
Fixpoint atoi_from (acc : Z) (s : string) : Z :=
  match s with
  | EmptyString => acc
  | String c r => atoi_from (acc * 10 + digit_val c) r
  end.

Definition Atoi (s : string) : Z := atoi_from 0 s.

(** The byte [s[i]]; a string shorter than that is never indexed. *)
Definition at_ (s : string) (i : nat) : ascii :=
  match String.get i s with Some c => c | None => zero end.

Definition ValidateYYMM (yymm : string) : result unit :=
  if negb (len yymm =? 4) then Err ErrExpiryLength
  else if negb (forallb (fun i => cardgen.is_digit (at_ yymm i)) [0; 1; 2; 3]%nat)
  then Err ErrExpiryDigits
  else
    let mm := digit_val (at_ yymm 2) * 10 + digit_val (at_ yymm 3) in
    if (mm <? 1) || (mm >? 12) then Err ErrExpiryMonth
    else Ok tt.

(** [ParseYYMMEndOfMonth]; [defaultLoc] is the package variable and
    [loc = None] a nil location. *)
Definition ParseYYMMEndOfMonth (defaultLoc : time.Location) (yymm : string)
    (loc : option time.Location) : result time.Time :=
  match ValidateYYMM yymm with
  | Err e => Err e
  | Ok _ =>
      let loc := match loc with None => defaultLoc | Some l => l end in
      let yy := Atoi (substring 0 2 yymm) in
      let mm := Atoi (substring 2 2 yymm) in
      let year := 2000 + yy in
      let firstNext := time.AddDate (time.Date year mm 1 0 0 0 0 loc) 0 1 0 in
      let end_ := time.Add firstNext (- time.Nanosecond) in
      Ok end_
  end.

Definition IsExpired (defaultLoc : time.Location) (yymm : string) (at_time : time.Time)
    (loc : option time.Location) : result bool :=
  match ParseYYMMEndOfMonth defaultLoc yymm loc with
  | Err e => Err e
  | Ok end_ => Ok (time.After (time.In at_time (time.Location_of end_)) end_)
  end.

End expiry.

(** ** Package security: the demo (HMAC) CVV provider *)

Module security.

Section WithHMAC.

(** [hmac.New(sha256.New, key)] followed by [Write]s and [Sum(nil)]: the
    32-byte HMAC-SHA256 of the written bytes under [key]. *)
Variable hmac_sha256 : list ascii -> list ascii -> list ascii.

Definition domainStatic : string := "static-v1".
Definition domainDynamic : string := "dynamic-v1".

Definition Second : Z := 1000000000.

(** The decimal digits of a natural number, least significant first,
    [width] of them at least: [fmt.Sprintf("%0<width>d", n)] reversed. *)
Fixpoint decimal_rev (fuel : nat) (width : nat) (n : Z) : list ascii :=
  match fuel with
  | O => []
  | S fuel' =>
      if (n <? 10) && (Nat.leb width 1) then [byte_add "0" (byte_of n)]
      else byte_add "0" (byte_of (n mod 10)) :: decimal_rev fuel' (Nat.pred width) (n / 10)
  end.

Definition Sprintf_0d (width : nat) (n : Z) : string :=
  string_of_list_ascii (rev (decimal_rev 32 width n)).

Definition normalizeStep (step : Z) : Z :=
  if step <? Second then Second
  else Z.quot step Second * Second.

Definition normalizeWidth (width : Z) : Z :=
  if width =? 4 then 4 else 3.

Definition byte_at (l : list ascii) (i : Z) : Z := byte_val (nth (Z.to_nat i) l zero).

(** RFC 4226 style dynamic truncation of the HMAC, printed with 3 or 4
    decimal digits. *)
Definition hmacTruncatedDecimal (key msg extra : list ascii) (width : Z) : string :=
  let sum := hmac_sha256 key (msg ++ extra)%list in
  let off := Z.land (byte_at sum (Z.of_nat (length sum) - 1)) 15 in
  let code :=
    Z.lor (Z.lor (Z.lor (Z.shiftl (Z.land (byte_at sum off) 127) 24)
                        (Z.shiftl (Z.land (byte_at sum (off + 1)) 255) 16))
                 (Z.shiftl (Z.land (byte_at sum (off + 2)) 255) 8))
          (Z.land (byte_at sum (off + 3)) 255) in
  let width := normalizeWidth width in
  if width =? 4 then Sprintf_0d 4 (code mod 10000)
  else Sprintf_0d 3 (code mod 1000).

Definition validateServiceCode (sc : string) : result unit :=
  if negb (len sc =? 3) then Err (ErrServiceCodeLen (len sc))
  else if negb (cardgen.IsDigits sc) then Err ErrServiceCodeDigits
  else Ok tt.

Definition stripCheckDigit (pan : string) : string :=
  if len pan =? 0 then pan
  else substring 0 (String.length pan - 1) pan.

(** [cardgen.NormalizePAN]: trim, then drop blanks, tabs and dashes. *)
Fixpoint drop_separators (s : string) : string :=
  match s with
  | EmptyString => EmptyString
  | String c r =>
      match byte_val c with
      | 32 | 9 | 45 => drop_separators r
      | _ => String c (drop_separators r)
      end
  end.

Definition NormalizePAN (s : string) : string :=
  drop_separators (cardgen.TrimSpace s).

Definition panNoCDStrict (pan : string) : result string :=
  let p := NormalizePAN pan in
  match cardgen.ValidatePAN p with
  | Err e => Err e
  | Ok _ => Ok (stripCheckDigit p)
  end.

Definition StaticCVVDemoStrict (pan expiryYYMM serviceCode : string) (width : Z)
    (key : list ascii) : result string :=
  match expiry.ValidateYYMM expiryYYMM with
  | Err e => Err e
  | Ok _ =>
  match validateServiceCode serviceCode with
  | Err e => Err e
  | Ok _ =>
  match panNoCDStrict pan with
  | Err e => Err e
  | Ok pNoCD =>
      let width := normalizeWidth width in
      let msg := list_ascii_of_string
                   (pNoCD ++ "|" ++ expiryYYMM ++ "|" ++ serviceCode ++ "|" ++ domainStatic) in
      Ok (hmacTruncatedDecimal key msg [] width)
  end end end.

(** [binary.BigEndian.PutUint64(buf, uint64(window))]. *)
Definition PutUint64 (window : Z) : list ascii :=
  let w := window mod 2 ^ 64 in
  map (fun i => byte_of (Z.shiftr w (8 * i))) [7; 6; 5; 4; 3; 2; 1; 0].

(** [now] is [now.Unix()], the seconds of the instant passed in. *)
Definition DynamicCVVWithTTLStrict (pan expiryYYMM serviceCode : string) (now : Z)
    (step : Z) (width : Z) (key : list ascii) : result (string * Z) :=
  let step := normalizeStep step in
  let width := normalizeWidth width in
  match expiry.ValidateYYMM expiryYYMM with
  | Err e => Err e
  | Ok _ =>
  match validateServiceCode serviceCode with
  | Err e => Err e
  | Ok _ =>
  match panNoCDStrict pan with
  | Err e => Err e
  | Ok pNoCD =>
      let window := Z.quot now (Z.quot step Second) in
      let buf := PutUint64 window in
      let msg := list_ascii_of_string
                   (pNoCD ++ "|" ++ expiryYYMM ++ "|" ++ serviceCode ++ "|" ++ domainDynamic) in
      let sec := Z.quot step Second in
      let rem := sec - Z.rem now sec in
      let rem := if rem <=? 0 then sec else rem in
      Ok (hmacTruncatedDecimal key msg buf width, rem)
  end end end.

(** [StrictDemoKey]; [env] is the value of the environment variable
    CVK_DEMO (empty when unset). *)
Definition StrictDemoKey (env : string) : result (list ascii) :=
  let key := list_ascii_of_string env in
  if Z.of_nat (length key) =? 0 then Err ErrKeyMissing
  else Ok key.

(** The provider: [type DemoProvider struct { key []byte }]. *)
Record DemoProvider := { key : list ascii }.

(** [func NewDemoProviderStrict(key []byte) *DemoProvider]: the constructor
    has no error result. *)
Definition NewDemoProviderStrict (k : list ascii) : DemoProvider := {| key := k |}.

Definition validatePanNoCD (noCD : string) : result unit :=
  if String.eqb noCD "" || negb (cardgen.IsDigits noCD) then Err ErrPanNoCDDigits
  else if (len noCD <? 12) || (len noCD >? 18) then Err (ErrPanNoCDLength (len noCD))
  else Ok tt.

(** The package's own [luhnCheckDigit] is the one of cardgen, line by
    line. *)
Definition buildValidPAN (noCD : string) : string :=
  noCD ++ cardgen.luhnCheckDigit noCD.

Definition ComputeCVV2 (p : DemoProvider) (panNoCD yymm sc : string) (width : Z)
  : result string :=
  if Z.of_nat (length (key p)) =? 0 then Err ErrDemoKeyRequired
  else
    let width := if negb (width =? 4) then 3 else width in
    match expiry.ValidateYYMM yymm with
    | Err e => Err e
    | Ok _ =>
        if negb (len sc =? 3) || negb (cardgen.IsDigits sc) then Err ErrServiceCode
        else
          match validatePanNoCD panNoCD with
          | Err e => Err e
          | Ok _ =>
              let pan := buildValidPAN panNoCD in
              StaticCVVDemoStrict pan yymm sc width (key p)
          end
    end.

(** [ComputeDisplayDCVV]; [now] is the Unix time [time.Now().UTC()] reads. *)
Definition ComputeDisplayDCVV (p : DemoProvider) (panNoCD yymm sc : string) (step : Z)
    (width : Z) (now : Z) : result (string * Z) :=
  if Z.of_nat (length (key p)) =? 0 then Err ErrDemoKeyRequired
  else
    let step := if step <=? 0 then 30 * Second else step in
    let width := if negb (width =? 4) then 3 else width in
    match expiry.ValidateYYMM yymm with
    | Err e => Err e
    | Ok _ =>
        if negb (len sc =? 3) || negb (cardgen.IsDigits sc) then Err ErrServiceCode
        else
          match validatePanNoCD panNoCD with
          | Err e => Err e
          | Ok _ =>
              let pan := buildValidPAN panNoCD in
              let step := normalizeStep step in
              DynamicCVVWithTTLStrict pan yymm sc now step width (key p)
          end
    end.

End WithHMAC.

End security.

(** ** Package issuer: the ledger repository over PostgreSQL *)

(** The database is a value: one table per relation of the migration, the
    primary key of [issuer.accounts] as the key of a finite map.  A
    statement is a function on that value which either yields the new
    value or the error PostgreSQL raises (a violated CHECK, key or
    reference, an out-of-range [bigint]).  A repository method runs its
    statements on a working copy and returns it on [tx.Commit()], or the
    value it started from when an early [return] leaves the deferred
    [tx.Rollback()] to undo the work.  One transaction runs at a time;
    time-outs and connection failures are not modelled.  The columns
    [created_at]/[updated_at] are left out, a [char(n)] column holds the
    text it is given padded with blanks to [n] characters, and an amount
    passed in is an [int64] as in Go, so only the arithmetic of an UPDATE
    can leave the range of [bigint]. *)
Module issuer.

Definition AUTHORIZED : string := "AUTHORIZED".
Definition CAPTURED : string := "CAPTURED".
Definition REVERSED : string := "REVERSED".

(** [strings.ToUpper] on ASCII text. *)
Definition upper_byte (c : ascii) : ascii :=
  if (97 <=? byte_val c) && (byte_val c <=? 122) then byte_of (byte_val c - 32) else c.

Fixpoint ToUpper (s : string) : string :=
  match s with
  | EmptyString => EmptyString
  | String c r => String (upper_byte c) (ToUpper r)
  end.

(** A row of [issuer.accounts], keyed by [account_id]. *)
Record Account := {
  acc_currency : string;
  available_balance : Z;
  hold_balance : Z
}.

(** A row of [issuer.auths]. *)
Record Auth := {
  auth_id : string;
  account_id : string;
  card_id : string;
  amount : Z;
  currency : string;
  status : string;
  approval_code : string;
  authorization_code : string;
  stan : option Z;
  merchant_name : option string;
  mcc : option string;
  hold_expires_at : option Z
}.

(** A row of [issuer.transactions]. *)
Record Transaction := {
  tx_id : string;
  tx_account_id : string;
  tx_card_id : string;
  tx_auth_id : option string;
  tx_amount : Z;
  tx_currency : string;
  tx_status : string;
  posted_at : option Z
}.

(** The schema [issuer]; of [issuer.cards] only the key column matters
    to the ledger operations (it is what the foreign keys refer to). *)
Record DB := {
  accounts : gmap string Account;
  cards : gset string;
  auths : list Auth;
  transactions : list Transaction
}.

(** [type Repository struct]: [db] is nil for the in-memory repository,
    whose slices the ledger operations never touch. *)
Record Repository := { db : option DB }.

Definition NewPGRepository (d : DB) : Repository := {| db := Some d |}.
Definition NewRepository : Repository := {| db := None |}.

(** *** Statements *)

Definition check_violation : error := ErrDB "check_violation".
Definition unique_violation : error := ErrDB "unique_violation".
Definition foreign_key_violation : error := ErrDB "foreign_key_violation".
Definition out_of_range : error := ErrDB "numeric_value_out_of_range".
Definition in_failed_transaction : error := ErrDB "in_failed_sql_transaction".
Definition invalid_limit : error := ErrDB "invalid_row_count_in_limit_clause".

(** The CHECK constraints of [issuer.accounts] on a row about to be
    written, after the range check of its [bigint] columns. *)
Definition check_account (a : Account) : result unit :=
  if negb (in_int64 (available_balance a) && in_int64 (hold_balance a))
  then Err out_of_range
  else if negb ((0 <=? available_balance a) && (0 <=? hold_balance a))
  then Err check_violation
  else Ok tt.

(** [UPDATE issuer.accounts SET ... WHERE account_id = id AND guard]:
    the rows affected and the new database. *)
Definition update_account (id : string) (guard : Account -> bool)
    (set : Account -> Account) (d : DB) : result (Z * DB) :=
  match accounts d !! id with
  | None => Ok (0, d)
  | Some a =>
      if guard a then
        match check_account (set a) with
        | Err e => Err e
        | Ok _ => Ok (1, {| accounts := <[id := set a]> (accounts d);
                            cards := cards d;
                            auths := auths d;
                            transactions := transactions d |})
        end
      else Ok (0, d)
  end.

(** The account row after [amt] has moved from available to hold:
    [SET available_balance = available_balance - $2,
         hold_balance = hold_balance + $2]. *)
Definition held (amt : Z) (a : Account) : Account :=
  {| acc_currency := acc_currency a;
     available_balance := available_balance a - amt;
     hold_balance := hold_balance a + amt |}.

(** The account row after [amt] has left its hold balance:
    [SET hold_balance = hold_balance - $2]. *)
Definition released (amt : Z) (a : Account) : Account :=
  {| acc_currency := acc_currency a;
     available_balance := available_balance a;
     hold_balance := hold_balance a - amt |}.

(** [UPDATE issuer.accounts SET ... WHERE account_id = $1
    AND available_balance >= $2]. *)
Definition hold_funds (id : string) (amt : Z) : DB -> result (Z * DB) :=
  update_account id (fun a => amt <=? available_balance a) (held amt).

(** [UPDATE issuer.accounts SET hold_balance = hold_balance - $2
    WHERE account_id = $1]. *)
Definition release_hold (id : string) (amt : Z) : DB -> result (Z * DB) :=
  update_account id (fun _ => true) (released amt).

(** [... FROM issuer.auths WHERE card_id = $1 AND stan = $2]. *)
Definition same_card_stan (card : string) (s : Z) (a : Auth) : bool :=
  String.eqb (card_id a) card
  && match stan a with Some s' => s' =? s | None => false end.

Definition auth_by_card_stan (d : DB) (card : string) (s : Z) : option Auth :=
  find (same_card_stan card s) (auths d).

(** [... FROM issuer.auths WHERE auth_id = $1 FOR UPDATE]. *)
Definition auth_by_id (d : DB) (id : string) : option Auth :=
  find (fun a => String.eqb (auth_id a) id) (auths d).

(** What an INSERT does: a row added, the row dropped by [ON CONFLICT DO
    NOTHING], or an error. *)
Inductive inserted : Type :=
  | Inserted (d : DB)
  | Suppressed
  | InsertFailed (e : error).

(** [INSERT INTO issuer.auths ...], with or without
    [ON CONFLICT (card_id, stan) WHERE stan IS NOT NULL DO NOTHING]:
    the CHECK on the amount, then the partial unique index, the primary
    key and the two foreign keys. *)
Definition insert_auth (do_nothing : bool) (row : Auth) (d : DB) : inserted :=
  if negb (0 <? amount row) then InsertFailed check_violation
  else
    let conflict := match stan row with
                    | Some s => bool_decide (is_Some (auth_by_card_stan d (card_id row) s))
                    | None => false
                    end in
    if conflict then (if do_nothing then Suppressed else InsertFailed unique_violation)
    else if bool_decide (is_Some (auth_by_id d (auth_id row)))
    then InsertFailed unique_violation
    else if negb (bool_decide (is_Some (accounts d !! account_id row))
                  && bool_decide (card_id row ∈ cards d))
    then InsertFailed foreign_key_violation
    else Inserted {| accounts := accounts d;
                     cards := cards d;
                     auths := (auths d ++ [row])%list;
                     transactions := transactions d |}.

Definition tx_by_id (d : DB) (id : string) : option Transaction :=
  find (fun t => String.eqb (tx_id t) id) (transactions d).

(** [INSERT INTO issuer.transactions ...]. *)
Definition insert_transaction (row : Transaction) (d : DB) : result DB :=
  if tx_amount row =? 0 then Err check_violation
  else if bool_decide (is_Some (tx_by_id d (tx_id row))) then Err unique_violation
  else if negb (bool_decide (is_Some (accounts d !! tx_account_id row))
                && bool_decide (tx_card_id row ∈ cards d)
                && match tx_auth_id row with
                   | Some a => bool_decide (is_Some (auth_by_id d a))
                   | None => true
                   end)
  then Err foreign_key_violation
  else Ok {| accounts := accounts d;
             cards := cards d;
             auths := auths d;
             transactions := (transactions d ++ [row])%list |}.

Definition with_status (s : string) (a : Auth) : Auth :=
  {| auth_id := auth_id a; account_id := account_id a; card_id := card_id a;
     amount := amount a; currency := currency a; status := s;
     approval_code := approval_code a; authorization_code := authorization_code a;
     stan := stan a; merchant_name := merchant_name a; mcc := mcc a;
     hold_expires_at := hold_expires_at a |}.

(** [UPDATE issuer.auths SET status = $2 WHERE auth_id = $1]. *)
Definition set_auth_status (id : string) (s : string) (d : DB) : DB :=
  {| accounts := accounts d;
     cards := cards d;
     auths := map (fun a => if String.eqb (auth_id a) id then with_status s a else a) (auths d);
     transactions := transactions d |}.

(** [tx.Commit()] at the end of the work, or the deferred [tx.Rollback()]
    after an early return with an error. *)
Definition run_tx {A} (body : DB -> result (A * DB)) (r : Repository) (d : DB)
  : result A * Repository :=
  match body d with
  | Ok (a, d') => (Ok a, {| db := Some d' |})
  | Err e => (Err e, r)
  end.

(** *** CreateAuthAndHold *)

(** What a [char(n)] column holds of a text written to it, and hands
    back when the row is read: the text padded with blanks to [n]
    characters.  A text of more than [n] characters, which PostgreSQL
    refuses (or cuts, when only blanks are over), is left as it is: the
    operations are read for values that fit their columns. *)
Definition bpchar (n : Z) (s : string) : string :=
  s ++ string_of_list_ascii (repeat " "%char (Z.to_nat (n - len s))).

(** The row the INSERT stores for a request: [currency char(3)],
    [approval_code char(6)], [authorization_code char(6)] and
    [mcc char(4)] are padded columns, [merchant_name] is [text]; [uuid]
    is what [gen_random_uuid()] draws. *)
Definition new_auth (uuid accountID cardID : string) (amount : Z)
    (currency approvalCode authorizationCode merchantName mcc : string)
    (stan : option Z) : Auth :=
  {| auth_id := uuid; account_id := accountID; card_id := cardID;
     amount := amount; currency := bpchar 3 (ToUpper currency); status := AUTHORIZED;
     approval_code := bpchar 6 approvalCode;
     authorization_code := bpchar 6 authorizationCode;
     stan := stan; merchant_name := Some merchantName; mcc := Some (bpchar 4 mcc);
     hold_expires_at := None |}.

(** From the conditional UPDATE to the commit: the balance move and, for
    a request without STAN, the INSERT that follows it; the codes
    returned are the arguments of the call, not what the row holds. *)
Definition hold_and_insert (row : Auth) (approvalCode authorizationCode : string)
    (d : DB) : result (string * string * bool * DB) :=
  match hold_funds (account_id row) (amount row) d with
  | Err e => Err e
  | Ok (rows, d1) =>
      if rows =? 0 then Err ErrInsufficientFunds
      else
        match stan row with
        | None =>
            match insert_auth false row d1 with
            | Inserted d2 => Ok (approvalCode, authorizationCode, false, d2)
            | Suppressed =>
                (* never: this INSERT has no ON CONFLICT clause *)
                Ok (approvalCode, authorizationCode, false, d1)
            | InsertFailed e => Err e
            end
        | Some _ => Ok (approvalCode, authorizationCode, false, d1)
        end
  end.

Definition CreateAuthAndHold_tx (uuid accountID cardID : string) (amount : Z)
    (currency approvalCode authorizationCode merchantName mcc : string)
    (stan : option Z) (d : DB) : result (string * string * bool * DB) :=
  let row := new_auth uuid accountID cardID amount currency approvalCode
               authorizationCode merchantName mcc stan in
  match stan with
  | Some s =>
      match insert_auth true row d with
      | Inserted d1 =>
          (* insertedID != "": on fresh insert with STAN, adjust balances *)
          hold_and_insert row approvalCode authorizationCode d1
      | Suppressed =>
          (* duplicate: fetch existing and validate semantics *)
          match auth_by_card_stan d cardID s with
          | None => Err ErrNoRows
          | Some existed =>
              if negb (issuer.amount existed =? amount)
                 || negb (String.eqb (ToUpper (issuer.currency existed)) (ToUpper currency))
              then Err (ErrWrap ErrInsufficientFunds)
              else Ok (approval_code existed, authorization_code existed, true, d)
          end
      | InsertFailed _ =>
          (* the Scan error is dropped, insertedID stays empty, and the
             SELECT that follows runs in an aborted transaction *)
          Err in_failed_transaction
      end
  | None => hold_and_insert row approvalCode authorizationCode d
  end.

(** [CreateAuthAndHold]: (approvalCode, authorizationCode, dup) or the
    error. *)
Definition CreateAuthAndHold (r : Repository) (uuid accountID cardID : string)
    (amount : Z) (currency approvalCode authorizationCode merchantName mcc : string)
    (stan : option Z) : result (string * string * bool) * Repository :=
  match db r with
  | None =>
      (* Memory repo path (tests): simulate success, no idempotency *)
      (Ok (approvalCode, authorizationCode, false), r)
  | Some d =>
      run_tx (CreateAuthAndHold_tx uuid accountID cardID amount currency approvalCode
                authorizationCode merchantName mcc stan) r d
  end.

(** *** CaptureAuth *)

Definition CaptureAuth_tx (uuid : string) (now : Z) (authID : string) (amount : Z)
    (currency : string) (d : DB) : result (unit * DB) :=
  match auth_by_id d authID with
  | None => Err ErrAuthNotFound
  | Some a =>
      let accountID := account_id a in
      let cardID := card_id a in
      let authAmount := issuer.amount a in
      if negb (String.eqb (status a) AUTHORIZED) then Err (ErrBadAuthStatus (status a))
      else if negb (String.eqb (ToUpper (issuer.currency a)) (ToUpper currency))
      then Err ErrCurrencyMismatch
      else
        let amount := if amount <=? 0 then authAmount else amount in
        if amount >? authAmount then Err ErrInvalidCaptureAmount
        else
          match release_hold accountID amount d with
          | Err e => Err e
          | Ok (_, d1) =>
              (* the currency has passed the comparison with the stored
                 one, which its column holds at three characters, so the
                 [char(3)] column of the transaction takes it as it is *)
              match insert_transaction
                      {| tx_id := uuid; tx_account_id := accountID; tx_card_id := cardID;
                         tx_auth_id := Some authID; tx_amount := amount;
                         tx_currency := ToUpper currency; tx_status := CAPTURED;
                         posted_at := Some now |} d1 with
              | Err e => Err e
              | Ok d2 =>
                  let newStatus := if amount <? authAmount then AUTHORIZED else CAPTURED in
                  Ok (tt, set_auth_status authID newStatus d2)
              end
          end
  end.

Definition CaptureAuth (r : Repository) (uuid : string) (now : Z) (authID : string)
    (amount : Z) (currency : string) : result unit * Repository :=
  match db r with
  | None => (Err ErrNotSupportedInMemory, r)
  | Some d => run_tx (CaptureAuth_tx uuid now authID amount currency) r d
  end.

(** *** ReleaseExpiredHolds *)

Definition is_expired_hold (now : Z) (a : Auth) : bool :=
  String.eqb (status a) AUTHORIZED
  && match hold_expires_at a with Some t => t <=? now | None => false end.

Definition expires (a : Auth) : Z := default 0 (hold_expires_at a).

(** [ORDER BY hold_expires_at ASC], rows with equal keys in table order. *)
Fixpoint insert_by_expiry (a : Auth) (l : list Auth) : list Auth :=
  match l with
  | [] => [a]
  | b :: r => if expires b <? expires a then b :: insert_by_expiry a r else a :: l
  end.

Definition order_by_expiry (l : list Auth) : list Auth :=
  foldr insert_by_expiry [] l.

(** The SELECT of the sweep, with [LIMIT batch]. *)
Definition select_expired (now batch : Z) (d : DB) : list Auth :=
  firstn (Z.to_nat batch)
    (order_by_expiry (filter (fun a => is_expired_hold now a = true) (auths d))).

(** [for _, it := range list { agg[it.AccountID] += it.Amount }]. *)
Definition aggregate (l : list Auth) : gmap string Z :=
  foldl (fun (agg : gmap string Z) it =>
           <[account_id it := wrap64 (default 0 (agg !! account_id it) + amount it)]> agg)
        ∅ l.

(** [for acc, sum := range agg { UPDATE ... hold_balance - sum }]. *)
Fixpoint release_all (l : list (string * Z)) (d : DB) : result DB :=
  match l with
  | [] => Ok d
  | (acc, sum) :: rest =>
      match release_hold acc sum d with
      | Err e => Err e
      | Ok (_, d1) => release_all rest d1
      end
  end.

Definition mark_reversed (l : list Auth) (d : DB) : DB :=
  foldl (fun d it => set_auth_status (auth_id it) REVERSED d) d l.

Definition ReleaseExpiredHolds_tx (now batch : Z) (d : DB) : result (Z * DB) :=
  if batch <? 0 then Err invalid_limit
  else
    let list := select_expired now batch d in
    if Z.of_nat (length list) =? 0 then Ok (0, d)
    else
      match release_all (map_to_list (aggregate list)) d with
      | Err e => Err e
      | Ok d1 => Ok (Z.of_nat (length list), mark_reversed list d1)
      end.

Definition ReleaseExpiredHolds (r : Repository) (now batch : Z) : result Z * Repository :=
  match db r with
  | None => (Err ErrNotSupportedInMemory, r)
  | Some d => run_tx (ReleaseExpiredHolds_tx now batch) r d
  end.

(** *** ReverseAuth *)

Definition ReverseAuth_tx (authID : string) (d : DB) : result (unit * DB) :=
  match auth_by_id d authID with
  | None => Err ErrNoRows
  | Some a =>
      if negb (String.eqb (status a) AUTHORIZED) then Err (ErrBadAuthStatus (status a))
      else
        match release_hold (account_id a) (amount a) d with
        | Err e => Err e
        | Ok (_, d1) => Ok (tt, set_auth_status authID REVERSED d1)
        end
  end.

Definition ReverseAuth (r : Repository) (authID : string) : result unit * Repository :=
  match db r with
  | None => (Err ErrNotSupportedInMemory, r)
  | Some d => run_tx (ReverseAuth_tx authID) r d
  end.

End issuer.

(** ** Vocabulary of the statements *)

(** How many bytes of a buffer the digit sampler accepts. *)
Definition accepted (buf : list ascii) : nat :=
  length (filter (fun b => byte_val b < cardgen.threshold) buf).

(** A random tape whose first [n] reads each deliver, within the 64 bytes
    of the buffer, at least [k] accepted bytes. *)
Fixpoint fruitful (n k : nat) (rnd : cardgen.tape) : Prop :=
  match n with
  | O => True
  | S n' =>
      match rnd with
      | [] => False
      | buf :: rest => (k <= accepted (firstn 64 buf))%nat /\ fruitful n' k rest
      end
  end.

(** The doubling flag of the Luhn loop after [n] steps. *)
Definition flag_after (n : nat) (dbl : bool) : bool := Nat.iter n negb dbl.

(** The check digit value for a Luhn sum. *)
Definition check_value (sum : Z) : Z := Z.rem (10 - Z.rem sum 10) 10.

(** The string [s] with the byte at index [i] replaced by [c]. *)
Fixpoint set_byte (i : nat) (c : ascii) (s : string) : string :=
  match s, i with
  | EmptyString, _ => EmptyString
  | String _ r, O => String c r
  | String x r, S i' => String x (set_byte i' c r)
  end.

(** The PANs that [n] successive calls of [GeneratePANWithLength] draw from
    a tape (the run stops at the first failed call). *)
Fixpoint generated (n : nat) (bin : string) (totalLen : Z) (sequence : string)
    (rnd : cardgen.tape) : list string :=
  match n with
  | O => []
  | S n' =>
      match cardgen.GeneratePANWithLength bin totalLen sequence rnd with
      | (Ok pan, t) => pan :: generated n' bin totalLen sequence t
      | (Err _, _) => []
      end
  end.

(** The PANs of a list up to and including the first one not in use. *)
Fixpoint upto_first_unused (used : string -> bool) (l : list string) : list string :=
  match l with
  | [] => []
  | p :: r => if used p then p :: upto_first_unused used r else [p]
  end.

(** A tape of [n] reads that all deliver the bytes 1, 2, ..., 20. *)
Definition sample_tape (n : nat) : cardgen.tape :=
  repeat (map (fun i => byte_of (Z.of_nat i)) (seq 1 20)) n.

(** The month after [(year, month)]. *)
Definition following_month (year month : Z) : Z * Z :=
  if month =? 12 then (year + 1, 1) else (year, month + 1).

(** The calendar facts [ParseYYMMEndOfMonth] rests on, for the month
    [mm] of the year [2000 + yy]: the first day of the month and of the
    following month are read back as written, the day before the
    following month lies in the month itself, and month 13 is January of
    the next year. *)
Definition calendar_ok (yy mm : Z) : bool :=
  let year := 2000 + yy in
  let '(y', m') := following_month year mm in
  let first := time.daysFromCivil year mm 1 in
  let next := time.daysFromCivil y' m' 1 in
  bool_decide (time.civilFromDays first = (year, mm, 1))
  && bool_decide (time.civilFromDays next = (y', m', 1))
  && bool_decide (time.daysFromCivil year (mm + 1) 1 = next)
  && bool_decide (fst (time.civilFromDays (next - 1)) = (year, mm))
  && bool_decide (first < next).


(** The invariant of [issuer.accounts]: no balance is negative. *)
Definition balances_ok (d : issuer.DB) : Prop :=
  map_Forall (fun _ a => 0 <= issuer.available_balance a /\ 0 <= issuer.hold_balance a)
             (issuer.accounts d).

(** The invariant on a repository; the in-memory one has no ledger. *)
Definition repository_ok (r : issuer.Repository) : Prop :=
  match issuer.db r with
  | Some d => balances_ok d
  | None => True
  end.

(** A call of one of the four ledger operations, with its arguments. *)
Inductive call : Type :=
  | CallCreateAuthAndHold (uuid accountID cardID : string) (amount : Z)
      (currency approvalCode authorizationCode merchantName mcc : string) (stan : option Z)
  | CallCaptureAuth (uuid : string) (now : Z) (authID : string) (amount : Z) (currency : string)
  | CallReleaseExpiredHolds (now batch : Z)
  | CallReverseAuth (authID : string).

(** The repository after a call, whether it succeeded or failed. *)
Definition after (c : call) (r : issuer.Repository) : issuer.Repository :=
  match c with
  | CallCreateAuthAndHold uuid accountID cardID amount currency approvalCode
      authorizationCode merchantName mcc stan =>
      snd (issuer.CreateAuthAndHold r uuid accountID cardID amount currency approvalCode
             authorizationCode merchantName mcc stan)
  | CallCaptureAuth uuid now authID amount currency =>
      snd (issuer.CaptureAuth r uuid now authID amount currency)
  | CallReleaseExpiredHolds now batch => snd (issuer.ReleaseExpiredHolds r now batch)
  | CallReverseAuth authID => snd (issuer.ReverseAuth r authID)
  end.

Definition after_all (cs : list call) (r : issuer.Repository) : issuer.Repository :=
  foldl (fun r c => after c r) r cs.

(** A database with one account holding 100 available, and one card. *)
Definition sample_db : issuer.DB :=
  {| issuer.accounts := {[ "acc-1" := {| issuer.acc_currency := "USD";
                                         issuer.available_balance := 100;
                                         issuer.hold_balance := 0 |} ]};
     issuer.cards := {[ "card-1" ]};
     issuer.auths := [];
     issuer.transactions := [] |}.

Definition sample_repo : issuer.Repository := issuer.NewPGRepository sample_db.

(** A row of [issuer.accounts] as the table can hold it: both balances
    are [bigint]s that satisfy the CHECK constraints. *)
Definition account_in_schema (a : issuer.Account) : Prop :=
  0 <= issuer.available_balance a <= max_int64
  /\ 0 <= issuer.hold_balance a <= max_int64.

(** The sample database after an authorization of 100 under STAN 7. *)
Definition sample_repo_authorized : issuer.Repository :=
  snd (issuer.CreateAuthAndHold sample_repo "u1" "acc-1" "card-1" 100 "usd" "00" "123456"
         "shop" "5411" (Some 7)).

(** ... and after a partial capture of 30 of those 100. *)
Definition sample_repo_partly_captured : issuer.Repository :=
  snd (issuer.CaptureAuth sample_repo_authorized "t1" 1000 "u1" 30 "USD").

(** ** The helpers around the core: masking, card face, display CVV *)

(** Text whose bytes are all ASCII.  Go's [strings.TrimSpace] and
    [strings.Map] work on runes; on such text they act byte by byte, as
    [cardgen.TrimSpace] and [security.NormalizePAN] do. *)
Definition ascii_text (s : string) : bool :=
  forallb (fun c => byte_val c <? 128) (list_ascii_of_string s).

(** A text that fits a [char(n)] column: ASCII, of [n] characters at
    most, so that PostgreSQL stores it padded and refuses nothing. *)
Definition fits_char (n : Z) (s : string) : bool :=
  ascii_text s && (len s <=? n).

(** The arguments of an authorization with a STAN that fit the columns
    of [issuer.auths]: [currency char(3)], [approval_code char(6)],
    [authorization_code char(6)], [mcc char(4)] and [stan int]. *)
Definition fits_auths (currency approvalCode authorizationCode mcc : string) (stan : Z)
  : bool :=
  fits_char 3 currency && fits_char 6 approvalCode && fits_char 6 authorizationCode
  && fits_char 4 mcc && (- 2 ^ 31 <=? stan) && (stan <? 2 ^ 31).

(** *** Package cardgen: [LastN] and [MaskPAN] *)

Module mask.

(** [strings.Repeat("*", count)]; [MaskPAN] passes no negative count. *)
Definition Repeat (c : ascii) (count : Z) : string :=
  string_of_list_ascii (repeat c (Z.to_nat count)).

(** The slice [s[i:]] for [0 <= i <= len(s)]. *)
Definition from (i : Z) (s : string) : string :=
  substring (Z.to_nat i) (String.length s - Z.to_nat i) s.

(** [LastN]; [None] is the run-time panic of [s[len(s)-n:]] for a
    negative [n]. *)
Definition LastN (s : string) (n : Z) : option string :=
  if len s <=? n then Some s
  else if n <? 0 then None
  else Some (from (len s - n) s).

Definition MaskPAN (pan : string) : string :=
  let cleaned := security.NormalizePAN pan in
  let n := len cleaned in
  if n =? 0 then ""
  else if n <=? 4 then Repeat "*" n
  else if n <? 10 then Repeat "*" (n - 4) ++ from (n - 4) cleaned
  else substring 0 6 cleaned ++ Repeat "*" (n - 10) ++ from (n - 4) cleaned.

End mask.

(** *** Package expiry: the printed forms of an expiry date *)

Module cardface.

(** [fmt.Sprintf("%02d", n)]: two digits at least, and the sign of a
    negative number takes one place of the width. *)
Definition Sprintf_02d (n : Z) : string :=
  if n <? 0 then String "-" (security.Sprintf_0d 1 (- n))
  else security.Sprintf_0d 2 n.

(** [t.Year()] and [int(t.Month())]. *)
Definition Year (t : time.Time) : Z := let '(y, _, _) := time.DateOf t in y.
Definition Month (t : time.Time) : Z := let '(_, m, _) := time.DateOf t in m.

(** [(t.Year() + years) % 100] on Go's [int]. *)
Definition two_digit_year (t : time.Time) (years : Z) : Z :=
  Z.rem (wrap64 (Year t + years)) 100.

Definition YYMM (defaultLoc : time.Location) (issue : time.Time) (years : Z) : string :=
  let t := time.In issue defaultLoc in
  let y := two_digit_year t years in
  let m := Month t in
  Sprintf_02d y ++ Sprintf_02d m.

Definition MMYY (defaultLoc : time.Location) (issue : time.Time) (years : Z) : string :=
  let t := time.In issue defaultLoc in
  let y := two_digit_year t years in
  let m := Month t in
  Sprintf_02d m ++ Sprintf_02d y.

Definition CardFace (defaultLoc : time.Location) (issue : time.Time) (years : Z) : string :=
  let t := time.In issue defaultLoc in
  let y := two_digit_year t years in
  let m := Month t in
  Sprintf_02d m ++ "/" ++ Sprintf_02d y.

(** [t.Equal(u)] and [t.Before(u)]. *)
Definition Equal (t u : time.Time) : bool := time.instant t =? time.instant u.
Definition Before (t u : time.Time) : bool := time.instant t <? time.instant u.

(** [ReissueDue]; [-windowDays] is taken on Go's [int]. *)
Definition ReissueDue (defaultLoc : time.Location) (yymm : string) (at_time : time.Time)
    (loc : option time.Location) (windowDays : Z) : result bool :=
  match expiry.ParseYYMMEndOfMonth defaultLoc yymm loc with
  | Err e => Err e
  | Ok end_ =>
      let start := time.AddDate end_ 0 0 (wrap64 (- windowDays)) in
      let at_time := time.In at_time (time.Location_of end_) in
      if (Equal at_time start || time.After at_time start)
         && (Before at_time end_ || Equal at_time end_)
      then Ok true
      else Ok false
  end.

(** [strings.ReplaceAll(s, "/", "")]. *)
Fixpoint drop_slashes (s : string) : string :=
  match s with
  | EmptyString => EmptyString
  | String c r => if byte_val c =? 47 then drop_slashes r else String c (drop_slashes r)
  end.

(** The result of [ParseCardFace]: the YYMM string, or the error with the
    message it carries. *)
Inductive parsed : Type :=
  | Parsed (yymm : string)
  | ParseError (msg : string).

Definition ParseCardFace (input : string) : parsed :=
  let s := cardgen.TrimSpace input in
  let s := drop_slashes s in
  if negb (len s =? 4) then ParseError "card face must be MM/YY or MMYY"
  else if negb (forallb (fun i => cardgen.is_digit (expiry.at_ s i)) [0; 1; 2; 3]%nat)
  then ParseError "card face must be digits"
  else
    let mm := expiry.Atoi (substring 0 2 s) in
    if (mm <? 1) || (mm >? 12) then ParseError "month must be 01..12"
    else
      let yy := mask.from 2 s in
      Parsed (yy ++ Sprintf_02d mm).

(** [formatCardFace] of the issuer API: "MM/YY [NAME]" from an expiry in
    YYMM or MMYY; Go compares strings byte by byte, as [String.leb]
    does. *)
Definition formatCardFace (exp name : string) : string :=
  let '(mm, yy) :=
    if len exp =? 4 then
      let first := substring 0 2 exp in
      let last := mask.from 2 exp in
      if String.leb "01" first && String.leb first "12" then (first, last)
      else (last, first)
    else ("", "") in
  let face := if negb (String.eqb mm "") && negb (String.eqb yy "")
              then mm ++ "/" ++ yy else "" in
  if negb (String.eqb name "") then
    (if negb (String.eqb face "") then face ++ " " else face) ++ name
  else face.

End cardface.

(** *** Package security: input validation and the display-only CVVs *)

Module demo.

(** [ValidateInputs]: the checks a handler runs before it calls a
    provider; returns the PAN without its check digit. *)
Definition ValidateInputs (pan yymm sc : string) : result string :=
  match expiry.ValidateYYMM yymm with
  | Err e => Err e
  | Ok _ =>
      if negb (len sc =? 3) || negb (cardgen.IsDigits sc) then Err ErrServiceCode
      else
        let pan := security.NormalizePAN pan in
        match cardgen.ValidatePAN pan with
        | Err e => Err e
        | Ok _ => Ok (substring 0 (String.length pan - 1) pan)
        end
  end.

(** [DemoKey]; [env] is the value of the environment variable CVK_DEMO. *)
Definition DemoKey (env : string) : list ascii :=
  let key := list_ascii_of_string env in
  if Z.of_nat (length key) =? 0
  then list_ascii_of_string "demo-cvk-not-for-production"
  else key.

Section WithHMAC.

Variable hmac_sha256 : list ascii -> list ascii -> list ascii.

(** [StaticCVV]; [None] is a panic of [LastN], which the constant 12
    rules out. *)
Definition StaticCVV (pan expiry label : string) (key : list ascii) : option string :=
  match mask.LastN pan 12 with
  | None => None
  | Some panTail =>
      let msg := list_ascii_of_string (panTail ++ "|" ++ expiry ++ "|" ++ label) in
      Some (security.hmacTruncatedDecimal hmac_sha256 key msg [] 3)
  end.

(** [DynamicCVV]: the code and [expiresAt], the latter as Unix seconds;
    [now] is [now.Unix()]. *)
Definition DynamicCVV (pan expiry : string) (now step : Z) (key : list ascii)
  : option (string * Z) :=
  let step := security.normalizeStep step in
  match mask.LastN pan 12 with
  | None => None
  | Some panTail =>
      let msg := list_ascii_of_string (panTail ++ "|" ++ expiry ++ "|dynamic") in
      let window := Z.quot now (Z.quot step security.Second) in
      let buf := security.PutUint64 window in
      let expiresAt := wrap64 (wrap64 (window + 1) * Z.quot step security.Second) in
      Some (security.hmacTruncatedDecimal hmac_sha256 key msg buf 3, expiresAt)
  end.

End WithHMAC.

End demo.

(** *** Package hsm: the PKCS#11 provider *)

Module hsm.

(** [hex.EncodeToString]. *)
Definition hex_digit (v : Z) : ascii :=
  nth (Z.to_nat v) (list_ascii_of_string "0123456789abcdef") zero.

Definition EncodeToString (src : list ascii) : string :=
  string_of_list_ascii
    (flat_map (fun b => [hex_digit (Z.shiftr (byte_val b) 4);
                         hex_digit (Z.land (byte_val b) 15)]) src).

(** [assembleData]; [window = None] is the nil pointer. *)
Definition assembleData (panNoCD yymm sc : string) (window : option Z) : list ascii :=
  let s := panNoCD ++ yymm ++ sc in
  let s := match window with
           | Some w => s ++ EncodeToString (security.PutUint64 w)
           | None => s
           end in
  list_ascii_of_string s.

(** One byte of the output of [decimalize] from one hex character. *)
Definition decimal_of_hex (c : ascii) : ascii :=
  if (byte_val "0" <=? byte_val c) && (byte_val c <=? byte_val "9") then c
  else
    let v := byte_of (byte_val (byte_add (byte_sub c "a") (byte_of 10)) mod 10) in
    byte_add "0" v.

(** The first loop of [decimalize]: [for i < len(hx) && len(out) < n]. *)
Fixpoint take_decimals (hx : list ascii) (n : nat) : list ascii :=
  match n, hx with
  | O, _ => []
  | _, [] => []
  | S n', c :: r => decimal_of_hex c :: take_decimals r n'
  end.

(** The second loop: [for len(out) < n], one byte read per digit; the
    error of the read is dropped, and a failed read leaves [b[0] = 0]. *)
Fixpoint pad_random (k : nat) (rnd : cardgen.tape) : list ascii * cardgen.tape :=
  match k with
  | O => ([], rnd)
  | S k' =>
      let '(b, rest) := match rnd with
                        | [] => (zero, [])
                        | buf :: rest => (hd zero buf, rest)
                        end in
      let '(out, t) := pad_random k' rest in
      (byte_add "0" (byte_of (byte_val b mod 10)) :: out, t)
  end.

(** [decimalize]; [None] is the panic of [make([]byte, 0, n)] for a
    negative [n]. *)
Definition decimalize (mac : list ascii) (n : Z) (rnd : cardgen.tape)
  : option (string * cardgen.tape) :=
  if n <? 0 then None
  else
    let hx := list_ascii_of_string (EncodeToString mac) in
    let out := take_decimals hx (Z.to_nat n) in
    let '(pad, t) := pad_random (Z.to_nat n - length out) rnd in
    Some (string_of_list_ascii (out ++ pad), t).

End hsm.

(** *** Package issuer: the lookup by card and STAN *)

Module repository.

(** [FindAuthByCardStan]: (auth_id, amount, currency, status) of the row
    with the given card and STAN. *)
Definition FindAuthByCardStan (r : issuer.Repository) (cardID : string) (stan : Z)
  : result (string * Z * string * string) :=
  match issuer.db r with
  | None => Err ErrNotSupportedInMemory
  | Some d =>
      match issuer.auth_by_card_stan d cardID stan with
      | None => Err ErrNoRows
      | Some a => Ok (issuer.auth_id a, issuer.amount a, issuer.currency a, issuer.status a)
      end
  end.

End repository.

(** *** Vocabulary of the further statements *)

(** An account that an operation has not credited: it is still there,
    in the same currency, with an available balance that has not grown. *)
Definition not_credited (before after : option issuer.Account) : Prop :=
  match before, after with
  | Some a, Some a' =>
      issuer.acc_currency a' = issuer.acc_currency a
      /\ issuer.available_balance a' <= issuer.available_balance a
  | None, None => True
  | _, _ => False
  end.

(** An account whose funds were moved between its two balances only. *)
Definition conserved (before after : option issuer.Account) : Prop :=
  match before, after with
  | Some a, Some a' =>
      issuer.acc_currency a' = issuer.acc_currency a
      /\ issuer.available_balance a' + issuer.hold_balance a'
         = issuer.available_balance a + issuer.hold_balance a
  | None, None => True
  | _, _ => False
  end.

(** Whether a call is a CreateAuthAndHold. *)
Definition is_create (c : call) : bool :=
  match c with
  | CallCreateAuthAndHold _ _ _ _ _ _ _ _ _ _ => true
  | _ => false
  end.

(** The primary key of [issuer.auths]. *)
Definition auth_ids_unique (d : issuer.DB) : Prop :=
  NoDup (map issuer.auth_id (issuer.auths d)).

(** What a transaction leaves of [issuer.auths]: the primary key keeps
    holding, and a row that was not AUTHORIZED stays as it was. *)
Definition rows_settled (d d' : issuer.DB) : Prop :=
  auth_ids_unique d' /\
  forall a, In a (issuer.auths d) -> issuer.status a <> issuer.AUTHORIZED ->
            In a (issuer.auths d').

(** A captured authorization, and a database that holds it. *)
Definition sample_captured_row : issuer.Auth :=
  issuer.with_status issuer.CAPTURED
    (issuer.new_auth "u1" "acc-1" "card-1" 100 "USD" "00" "123456" "shop" "5411" (Some 7)).

Definition sample_db_captured : issuer.DB :=
  {| issuer.accounts := {[ "acc-1" := {| issuer.acc_currency := "USD";
                                         issuer.available_balance := 0;
                                         issuer.hold_balance := 0 |} ]};
     issuer.cards := {[ "card-1" ]};
     issuer.auths := [sample_captured_row];
     issuer.transactions := [] |}.

(** No row of [issuer.auths] carries a [hold_expires_at]. *)
Definition no_hold_expiry (d : issuer.DB) : Prop :=
  Forall (fun a => issuer.hold_expires_at a = None) (issuer.auths d).

(** The Luhn sum over a whole PAN, check digit included (it is the first
    digit from the right, so it is not doubled). *)
Definition luhn_total (pan : string) : Z :=
  cardgen.luhn_loop (rev (list_ascii_of_string pan)) false 0.

(** The string [s] with the bytes at [i] and [i + 1] exchanged. *)
Definition transpose (i : nat) (s : string) : string :=
  match String.get i s, String.get (S i) s with
  | Some a, Some b => set_byte i b (set_byte (S i) a s)
  | _, _ => s
  end.

(** The 256 byte values. *)
Definition all_bytes : list ascii := map (fun n => byte_of (Z.of_nat n)) (seq 0 256).

(** The decimal digit [d] as a byte. *)
Definition digit_char (d : Z) : ascii := byte_add "0" (byte_of d).

(** Whether a random byte, read alone, yields the digit [d]. *)
Definition sampled_as (d : Z) (b : ascii) : bool :=
  bool_decide (cardgen.scan_buffer [b] 1 = (String (digit_char d) "", 0%nat)).

(** Which bytes of a cleaned PAN of [n] bytes [MaskPAN] shows. *)
Definition shown (n i : Z) : bool :=
  ((10 <=? n) && (i <? 6)) || ((4 <? n) && (n - 4 <=? i)).

(** A number printed with [w] digits: decimal digits, [w] of them. *)
Definition printed_ok (w : nat) (n : Z) : bool :=
  cardgen.IsDigits (security.Sprintf_0d w n)
  && (len (security.Sprintf_0d w n) =? Z.of_nat w).

(** The seconds of the window [ComputeDisplayDCVV] works with. *)
Definition window_seconds (step : Z) : Z :=
  if step <=? 0 then 30
  else if step <? security.Second then 1
  else Z.quot step security.Second.

(** The 4-bit halves of the bytes of a MAC, the high half first. *)
Definition nibbles (mac : list ascii) : list Z :=
  flat_map (fun b => [Z.shiftr (byte_val b) 4; Z.land (byte_val b) 15]) mac.

(** What [decimalize] makes of the hex digit of a 4-bit value. *)
Definition decimalized_ok (v : Z) : bool :=
  bool_decide (hsm.decimal_of_hex (hsm.hex_digit v) = digit_char (v mod 10)).

(** A stand-in for HMAC-SHA256 in the examples (the statements hold for
    every function): 32 bytes taken from the message and the key. *)
Definition sample_hmac (key msg : list ascii) : list ascii :=
  firstn 32 (rev msg ++ key ++ repeat zero 32).

(** [f] holds on the [n] integers from [z] on. *)
Fixpoint forall_from (f : Z -> bool) (z : Z) (n : nat) : bool :=
  match n with
  | O => true
  | S n' => if f z then forall_from f (z + 1) n' else false
  end.

(** * Properties *)

(** ** Strings as lists of bytes *)

Section StringFacts.

Local Abbreviation bytes := list_ascii_of_string.

Lemma bytes_app (a b : string) : bytes (a ++ b) = (bytes a ++ bytes b)%list.
Proof. induction a as [|c a IH]; simpl; [reflexivity | now rewrite IH]. Qed.

Lemma length_bytes (s : string) : length (bytes s) = String.length s.
Proof. induction s as [|c s IH]; simpl; [reflexivity | now rewrite IH]. Qed.

Lemma string_length_app (a b : string) :
  String.length (a ++ b) = (String.length a + String.length b)%nat.
Proof. induction a as [|c a IH]; simpl; [reflexivity | now rewrite IH]. Qed.

Lemma len_app (a b : string) : len (a ++ b) = len a + len b.
Proof. unfold len. rewrite string_length_app. lia. Qed.

Lemma bytes_inj (a b : string) : bytes a = bytes b -> a = b.
Proof.
  intros H. rewrite <- (string_of_list_ascii_of_string a),
    <- (string_of_list_ascii_of_string b). now rewrite H.
Qed.

Lemma substring_take (s : string) (n : nat) : bytes (substring 0 n s) = take n (bytes s).
Proof.
  revert n. induction s as [|c s IH]; intros [|n]; simpl; try reflexivity.
  now rewrite IH.
Qed.

Lemma substring_app_left (a b : string) : substring 0 (String.length a) (a ++ b) = a.
Proof.
  apply bytes_inj. rewrite substring_take, bytes_app, <- length_bytes.
  now rewrite take_app_length.
Qed.

End StringFacts.

(** ** Bytes *)

Lemma byte_val_range (c : ascii) : 0 <= byte_val c < 256.
Proof. unfold byte_val. pose proof (nat_ascii_bounded c). lia. Qed.

Lemma byte_val_of (z : Z) : byte_val (byte_of z) = z mod 256.
Proof.
  unfold byte_val, byte_of.
  pose proof (Z.mod_pos_bound z 256 ltac:(lia)).
  rewrite nat_ascii_embedding by lia. lia.
Qed.

Lemma byte_of_val (c : ascii) : byte_of (byte_val c) = c.
Proof.
  unfold byte_of, byte_val. pose proof (nat_ascii_bounded c).
  rewrite Z.mod_small by lia. rewrite Nat2Z.id. apply ascii_nat_embedding.
Qed.

Lemma byte_val_inj (a b : ascii) : byte_val a = byte_val b -> a = b.
Proof. intros H. rewrite <- (byte_of_val a), <- (byte_of_val b). now rewrite H. Qed.

Lemma byte_val_zero_char : byte_val "0" = 48.
Proof. reflexivity. Qed.

Lemma byte_val_nine_char : byte_val "9" = 57.
Proof. reflexivity. Qed.

Lemma is_digit_range (c : ascii) : cardgen.is_digit c = true <-> 48 <= byte_val c <= 57.
Proof.
  unfold cardgen.is_digit. rewrite byte_val_zero_char, byte_val_nine_char.
  rewrite andb_true_iff, !Z.leb_le. tauto.
Qed.

Lemma digit_value (c : ascii) :
  cardgen.is_digit c = true -> byte_val (byte_sub c "0") = byte_val c - 48.
Proof.
  intros H%is_digit_range. unfold byte_sub. rewrite byte_val_of, byte_val_zero_char.
  apply Z.mod_small. lia.
Qed.

Lemma digit_char_val (d : Z) :
  0 <= d <= 9 -> byte_val (byte_add "0" (byte_of d)) = 48 + d.
Proof.
  intros H. unfold byte_add. rewrite !byte_val_of, byte_val_zero_char.
  rewrite (Z.mod_small d) by lia. apply Z.mod_small. lia.
Qed.

Lemma digit_char_is_digit (d : Z) :
  0 <= d <= 9 -> cardgen.is_digit (byte_add "0" (byte_of d)) = true.
Proof. intros H. apply is_digit_range. rewrite digit_char_val by lia. lia. Qed.

(** ** cardgen: digits, random fill and the Luhn digit *)

Section CardgenFacts.

Import cardgen.
Local Abbreviation bytes := list_ascii_of_string.

Lemma IsDigits_forallb (s : string) : IsDigits s = forallb is_digit (bytes s).
Proof.
  induction s as [|c s IH]; simpl; [reflexivity|].
  rewrite IH. now destruct (is_digit c).
Qed.

Lemma IsDigits_app (a b : string) : IsDigits (a ++ b) = IsDigits a && IsDigits b.
Proof. rewrite !IsDigits_forallb, bytes_app. apply forallb_app. Qed.

Lemma ValidateBIN_ok (bin : string) :
  ValidateBIN bin = Ok tt ->
  IsDigits bin = true /\ (len bin = 6 \/ len bin = 8 \/ len bin = 9).
Proof.
  unfold ValidateBIN. destruct (String.eqb bin ""); [discriminate|].
  destruct (IsDigits bin); simpl; [|discriminate].
  intros H. split; [reflexivity|].
  destruct (len bin) as [|p|p]; try discriminate.
  repeat (destruct p as [p|p|]; try discriminate); auto.
Qed.

(** The accepted bytes of a buffer: those below the threshold. *)
Lemma scan_buffer_spec (buf : list ascii) (need : nat) :
  let '(s, k) := scan_buffer buf need in
  IsDigits s = true /\ (String.length s + k = need)%nat.
Proof.
  revert need. induction buf as [|b r IH]; intros [|n]; simpl; auto.
  destruct (byte_val b <? threshold).
  - specialize (IH n). destruct (scan_buffer r n) as [s k]. simpl.
    destruct IH as [Hd Hl]. split; [|lia].
    rewrite digit_char_is_digit; [exact Hd|].
    pose proof (Z.mod_pos_bound (byte_val b) 10). lia.
  - specialize (IH (S n)). simpl in IH. exact IH.
Qed.

Lemma read_digits_spec (rnd : tape) (need : nat) (s : string) (t : tape) :
  read_digits rnd need = (Ok s, t) ->
  IsDigits s = true /\ String.length s = need.
Proof.
  revert need s t. induction rnd as [|buf rest IH]; intros [|n] s t; simpl.
  - intros [= <- <-]. auto.
  - discriminate.
  - intros [= <- <-]. auto.
  - pose proof (scan_buffer_spec (firstn 64 buf) (S n)) as Hs.
    destruct (scan_buffer (firstn 64 buf) (S n)) as [s1 k]. destruct Hs as [Hd Hl].
    destruct (read_digits rest k) as [[s2|e] t'] eqn:E; [|discriminate].
    intros [= <- <-]. destruct (IH _ _ _ E) as [Hd2 Hl2].
    rewrite IsDigits_app, Hd, Hd2, string_length_app. split; [reflexivity|lia].
Qed.

Lemma randomDigits_spec (count : Z) (rnd t : tape) (s : string) :
  0 < count -> randomDigits count rnd = (Ok s, t) ->
  IsDigits s = true /\ len s = count.
Proof.
  unfold randomDigits. intros Hc. destruct (Z.leb_spec count 0); [lia|].
  intros Hr%read_digits_spec. destruct Hr as [Hd Hl]. split; [exact Hd|].
  unfold len. lia.
Qed.

Lemma scan_buffer_enough (buf : list ascii) (need : nat) :
  (need <= accepted buf)%nat ->
  snd (scan_buffer buf need) = O.
Proof.
  unfold accepted.
  revert need. induction buf as [|b r IH]; intros [|n]; simpl; auto; [lia|].
  rewrite filter_cons. destruct (decide (byte_val b < threshold)) as [Hb|Hb].
  - apply Z.ltb_lt in Hb as ->. simpl. intros Hn.
    specialize (IH n ltac:(lia)). destruct (scan_buffer r n). simpl in *. exact IH.
  - apply Z.ltb_nlt in Hb as ->. intros Hn. apply (IH (S n)). exact Hn.
Qed.

End CardgenFacts.

Section LuhnFacts.

Import cardgen.
Local Abbreviation bytes := list_ascii_of_string.

Lemma luhn_digit_nonneg (dbl : bool) (c : ascii) : 0 <= luhn_digit dbl c.
Proof.
  unfold luhn_digit. pose proof (byte_val_range (byte_sub c "0")).
  destruct dbl; [|lia]. destruct (Z.gtb_spec (byte_val (byte_sub c "0") * 2) 9); lia.
Qed.

Lemma luhn_loop_acc (l : list ascii) (dbl : bool) (sum : Z) :
  luhn_loop l dbl sum = sum + luhn_loop l dbl 0.
Proof.
  revert dbl sum. induction l as [|c l IH]; intros dbl sum; simpl; [lia|].
  rewrite (IH _ (sum + _)), (IH _ (0 + _)). lia.
Qed.

Lemma luhn_loop_nonneg (l : list ascii) (dbl : bool) : 0 <= luhn_loop l dbl 0.
Proof.
  revert dbl. induction l as [|c l IH]; intros dbl; simpl; [lia|].
  rewrite luhn_loop_acc. pose proof (luhn_digit_nonneg dbl c). specialize (IH (negb dbl)). lia.
Qed.

Lemma luhn_loop_app (a b : list ascii) (dbl : bool) (sum : Z) :
  luhn_loop (a ++ b) dbl sum = luhn_loop b (flag_after (length a) dbl) (luhn_loop a dbl sum).
Proof.
  revert dbl sum. induction a as [|c a IH]; intros dbl sum; simpl; [reflexivity|].
  rewrite IH. f_equal. unfold flag_after. clear.
  induction (length a) as [|n IHn]; simpl; [reflexivity|]. now rewrite <- IHn.
Qed.

(** The sum of a body in which one byte [x] stands between [l1] and [l2]. *)
Lemma luhn_sum_split (l1 l2 : list ascii) (x : ascii) :
  luhn_loop (rev (l1 ++ x :: l2)) true 0
  = luhn_loop (rev l2) true 0
    + luhn_digit (flag_after (length l2) true) x
    + luhn_loop (rev l1) (negb (flag_after (length l2) true)) 0.
Proof.
  rewrite rev_app_distr. simpl. rewrite <- app_assoc. simpl.
  rewrite luhn_loop_app. simpl. rewrite length_rev.
  rewrite luhn_loop_acc. lia.
Qed.

(** On decimal digits the Luhn weight is injective and stays a digit. *)
Lemma luhn_digit_inj (dbl : bool) (x y : ascii) :
  is_digit x = true -> is_digit y = true -> x <> y ->
  0 <= luhn_digit dbl x <= 9 /\ 0 <= luhn_digit dbl y <= 9
  /\ luhn_digit dbl x <> luhn_digit dbl y.
Proof.
  intros Hx Hy Hne. unfold luhn_digit. rewrite !digit_value by assumption.
  apply is_digit_range in Hx, Hy.
  assert (byte_val x <> byte_val y) by (intros E; apply Hne, byte_val_inj, E).
  destruct dbl; [|lia].
  destruct (Z.gtb_spec ((byte_val x - 48) * 2) 9), (Z.gtb_spec ((byte_val y - 48) * 2) 9); lia.
Qed.

Lemma check_value_range (sum : Z) : 0 <= sum -> 0 <= check_value sum <= 9.
Proof.
  intros H. unfold check_value. rewrite (Z.rem_mod_nonneg sum 10) by lia.
  pose proof (Z.mod_pos_bound sum 10 ltac:(lia)).
  rewrite Z.rem_mod_nonneg by lia.
  pose proof (Z.mod_pos_bound (10 - sum mod 10) 10 ltac:(lia)). lia.
Qed.

Lemma check_value_differs (a x y : Z) :
  0 <= a -> 0 <= x <= 9 -> 0 <= y <= 9 -> x <> y ->
  check_value (a + x) <> check_value (a + y).
Proof.
  intros Ha Hx Hy Hne. unfold check_value.
  rewrite !(Z.rem_mod_nonneg (a + _) 10) by lia.
  pose proof (Z.mod_pos_bound (a + x) 10 ltac:(lia)).
  pose proof (Z.mod_pos_bound (a + y) 10 ltac:(lia)).
  rewrite !(Z.rem_mod_nonneg (10 - _) 10) by lia.
  intros E. Z.div_mod_to_equations. lia.
Qed.

Lemma luhnCheckDigit_char (body : string) :
  exists c, luhnCheckDigit body = String c ""
            /\ is_digit c = true
            /\ byte_val c = 48 + check_value (luhn_loop (rev (bytes body)) true 0).
Proof.
  unfold luhnCheckDigit. eexists. split; [reflexivity|].
  pose proof (check_value_range _ (luhn_loop_nonneg (rev (bytes body)) true)) as Hr.
  unfold check_value in Hr.
  split; [apply digit_char_is_digit; exact Hr | apply digit_char_val; exact Hr].
Qed.

End LuhnFacts.

Section ValidatePANFacts.

Import cardgen.
Local Abbreviation bytes := list_ascii_of_string.

Lemma snoc_not_empty (body : string) (c : ascii) : String.eqb (body ++ String c "") "" = false.
Proof. destruct body; reflexivity. Qed.

Lemma last_byte_snoc (body : string) (c : ascii) : last_byte (body ++ String c "") = Some c.
Proof.
  unfold last_byte. rewrite string_length_app. simpl.
  replace (String.length body + 1 - 1)%nat with (String.length body) by lia.
  induction body as [|x body IH]; simpl; [reflexivity | exact IH].
Qed.

Lemma body_of_snoc (body : string) (c : ascii) :
  substring 0 (String.length (body ++ String c "") - 1) (body ++ String c "") = body.
Proof.
  rewrite string_length_app. simpl.
  replace (String.length body + 1 - 1)%nat with (String.length body) by lia.
  apply substring_app_left.
Qed.

(** Every non-empty string is a body followed by one last byte. *)
Lemma snoc_split (s : string) : s <> "" -> exists body c, s = body ++ String c "".
Proof.
  induction s as [|x s IH]; [congruence|]. intros _.
  destruct s as [|y s].
  - exists "", x. reflexivity.
  - destruct IH as (body & c & E); [congruence|]. exists (String x body), c.
    simpl. now rewrite E.
Qed.

(** [ValidatePAN] on a body followed by a last byte. *)
Lemma ValidatePAN_snoc (body : string) (c : ascii) :
  ValidatePAN (body ++ String c "")
  = if negb (IsDigits body && is_digit c) then Err ErrPanDigits
    else if (len body + 1 <? 13) || (len body + 1 >? 19)
    then Err (ErrPanLength (len body + 1))
    else if decide (luhnCheckDigit body = String c "") then Ok tt else Err ErrLuhn.
Proof.
  unfold ValidatePAN. rewrite snoc_not_empty, IsDigits_app. simpl IsDigits.
  replace (if is_digit c then true else false) with (is_digit c) by now destruct (is_digit c).
  destruct (negb (IsDigits body && is_digit c)); [reflexivity|].
  rewrite len_app. change (len (String c "")) with 1.
  destruct ((len body + 1 <? 13) || (len body + 1 >? 19)); [reflexivity|].
  rewrite body_of_snoc, last_byte_snoc.
  destruct (luhnCheckDigit_char body) as (cd & -> & _ & _). simpl.
  repeat case_decide; congruence.
Qed.

Lemma ValidatePAN_generated (body : string) :
  IsDigits body = true -> 12 <= len body <= 18 ->
  ValidatePAN (body ++ luhnCheckDigit body) = Ok tt.
Proof.
  intros Hd Hl. destruct (luhnCheckDigit_char body) as (cd & E & Hcd & _).
  rewrite E, ValidatePAN_snoc, Hd, Hcd. cbn [negb andb].
  destruct (Z.ltb_spec (len body + 1) 13); [lia|].
  destruct (Z.gtb_spec (len body + 1) 19); [lia|]. cbn [orb].
  rewrite E. now case_decide.
Qed.

Lemma ValidatePAN_ok (pan : string) :
  ValidatePAN pan = Ok tt ->
  exists body c, pan = body ++ String c "" /\ IsDigits body = true /\ is_digit c = true
                 /\ 12 <= len body <= 18 /\ luhnCheckDigit body = String c "".
Proof.
  intros H. destruct (snoc_split pan) as (body & c & ->).
  { intros ->. discriminate. }
  exists body, c. rewrite ValidatePAN_snoc in H.
  destruct (IsDigits body) eqn:Hb, (is_digit c) eqn:Hc; try discriminate. cbn [negb andb] in H.
  destruct (Z.ltb_spec (len body + 1) 13); [discriminate|].
  destruct (Z.gtb_spec (len body + 1) 19); [discriminate|]. cbn [orb] in H.
  case_decide; [|discriminate]. repeat split; auto; lia.
Qed.

Lemma set_byte_app_left (i : nat) (c : ascii) (a b : string) :
  (i < String.length a)%nat -> set_byte i c (a ++ b) = set_byte i c a ++ b.
Proof.
  revert i. induction a as [|x a IH]; intros i Hi; simpl in Hi; [lia|].
  destruct i as [|i]; simpl; [reflexivity|]. rewrite IH by lia. reflexivity.
Qed.

(** A byte replaced inside a string, read on its bytes. *)
Lemma set_byte_split (i : nat) (c : ascii) (s : string) :
  (i < String.length s)%nat ->
  exists l1 x l2, bytes s = (l1 ++ x :: l2)%list /\ String.get i s = Some x
                  /\ bytes (set_byte i c s) = (l1 ++ c :: l2)%list.
Proof.
  revert i. induction s as [|y s IH]; intros i Hi; simpl in *; [lia|].
  destruct i as [|i].
  - exists [], y, (bytes s). auto.
  - destruct (IH i ltac:(lia)) as (l1 & x & l2 & E1 & E2 & E3).
    exists (y :: l1), x, l2. simpl. rewrite E1, E3. auto.
Qed.

(** Replacing one byte of the body by another digit changes the check digit. *)
Lemma luhnCheckDigit_flip (i : nat) (c : ascii) (body : string) :
  IsDigits body = true -> is_digit c = true ->
  (i < String.length body)%nat -> String.get i body <> Some c ->
  luhnCheckDigit (set_byte i c body) <> luhnCheckDigit body.
Proof.
  intros Hd Hc Hi Hne.
  destruct (set_byte_split i c body Hi) as (l1 & x & l2 & E1 & E2 & E3).
  assert (is_digit x = true) as Hx.
  { rewrite IsDigits_forallb, E1, forallb_app in Hd. simpl in Hd.
    apply andb_true_iff in Hd as [_ Hd]. now apply andb_true_iff in Hd as [Hd _]. }
  assert (x <> c) as Hxc by congruence.
  destruct (luhnCheckDigit_char body) as (cd & -> & _ & Hv).
  destruct (luhnCheckDigit_char (set_byte i c body)) as (cd' & -> & _ & Hv').
  intros [= E]. rewrite E, Hv in Hv'. rewrite E1, E3, !luhn_sum_split in Hv'.
  set (f := flag_after (length l2) true) in *.
  destruct (luhn_digit_inj f x c Hx Hc Hxc) as (Rx & Rc & Hdiff).
  pose proof (luhn_loop_nonneg (rev l2) true).
  pose proof (luhn_loop_nonneg (rev l1) (negb f)).
  apply (check_value_differs
           (luhn_loop (rev l2) true 0 + luhn_loop (rev l1) (negb f) 0)
           (luhn_digit f x) (luhn_digit f c)); try lia.
  replace (luhn_loop (rev l2) true 0 + luhn_loop (rev l1) (negb f) 0 + luhn_digit f x)
    with (luhn_loop (rev l2) true 0 + luhn_digit f x + luhn_loop (rev l1) (negb f) 0) by lia.
  replace (luhn_loop (rev l2) true 0 + luhn_loop (rev l1) (negb f) 0 + luhn_digit f c)
    with (luhn_loop (rev l2) true 0 + luhn_digit f c + luhn_loop (rev l1) (negb f) 0) by lia.
  lia.
Qed.

(** Luhn detects every single changed digit before the check digit. *)
Lemma ValidatePAN_flip (pan : string) (i : nat) (c : ascii) :
  ValidatePAN pan = Ok tt ->
  (i < String.length pan - 1)%nat -> String.get i pan <> Some c ->
  is_ok (ValidatePAN (set_byte i c pan)) = false.
Proof.
  intros Hv Hi Hne.
  destruct (ValidatePAN_ok pan Hv) as (body & cd & -> & Hd & Hcd & Hl & Hluhn).
  rewrite string_length_app in Hi. simpl in Hi.
  assert (i < String.length body)%nat as Hi' by lia.
  rewrite set_byte_app_left by exact Hi'. rewrite ValidatePAN_snoc.
  destruct (IsDigits (set_byte i c body)) eqn:Hd'; [|reflexivity].
  rewrite Hcd. cbn [negb andb].
  destruct ((len (set_byte i c body) + 1 <? 13) || (len (set_byte i c body) + 1 >? 19));
    [reflexivity|].
  case_decide as E; [|reflexivity]. exfalso.
  assert (String.get i body <> Some c) as Hne'.
  { intros G. apply Hne. rewrite <- (append_correct1 body (String cd "") i Hi'). exact G. }
  assert (is_digit c = true) as Hc.
  { destruct (set_byte_split i c body Hi') as (l1 & x & l2 & _ & _ & E3).
    rewrite IsDigits_forallb, E3, forallb_app in Hd'. simpl in Hd'.
    apply andb_true_iff in Hd' as [_ Hd']. now apply andb_true_iff in Hd' as [Hd' _]. }
  apply (luhnCheckDigit_flip i c body Hd Hc Hi' Hne'). congruence.
Qed.

End ValidatePANFacts.

Section GeneratorFacts.

Import cardgen.

Lemma TrimSpace_empty : TrimSpace "" = "".
Proof. reflexivity. Qed.

Lemma read_digits_zero (rnd : tape) : read_digits rnd 0 = (Ok "", rnd).
Proof. destruct rnd; reflexivity. Qed.

Lemma read_digits_fruitful (buf : list ascii) (rest : tape) (need : nat) :
  (need <= accepted (firstn 64 buf))%nat ->
  exists s, read_digits (buf :: rest) need = (Ok s, if need is O then buf :: rest else rest).
Proof.
  intros H. destruct need as [|n]; simpl; [eexists; reflexivity|].
  pose proof (scan_buffer_enough _ _ H) as Hk.
  change (scan_buffer (firstn 64 buf) (S n)) with (scan_buffer (take 64 buf) (S n)) in *.
  destruct (scan_buffer (take 64 buf) (S n)) as [s k]. simpl in Hk. subst k.
  rewrite read_digits_zero. eexists; reflexivity.
Qed.

(** The two generators coincide at length 16. *)
Lemma GeneratePAN_WithLength (bin sequence : string) (rnd : tape) :
  GeneratePAN bin sequence rnd = GeneratePANWithLength bin panLen sequence rnd.
Proof. reflexivity. Qed.

(** What a successful generation returns: BIN, fill and check digit. *)
Lemma GeneratePANWithLength_ok (bin : string) (totalLen : Z) (sequence : string)
    (rnd t : tape) (pan : string) :
  GeneratePANWithLength bin totalLen sequence rnd = (Ok pan, t) ->
  exists b, pan = (bin ++ b) ++ luhnCheckDigit (bin ++ b)
    /\ IsDigits bin = true
    /\ (len bin = 6 \/ len bin = 8 \/ len bin = 9)
    /\ 13 <= totalLen <= 19
    /\ (TrimSpace sequence = "" -> IsDigits b = true /\ len b = totalLen - 1 - len bin).
Proof.
  unfold GeneratePANWithLength.
  destruct (ValidateBIN bin) as [[]|e] eqn:Hb; [|discriminate].
  apply ValidateBIN_ok in Hb as [Hd Hl].
  destruct (Z.ltb_spec totalLen 13); [discriminate|].
  destruct (Z.gtb_spec totalLen 19); [discriminate|]. simpl.
  destruct (Z.leb_spec (totalLen - 1 - len bin) 0); [discriminate|].
  destruct (check_sequence _ _) as [[]|e]; [|discriminate].
  unfold fill_and_check.
  destruct (randomDigits _ rnd) as [[s|e] t'] eqn:Hr; [|discriminate].
  intros [= <- <-]. eexists. split; [reflexivity|].
  split; [exact Hd|]. split; [exact Hl|]. split; [lia|].
  intros ->. simpl. eapply randomDigits_spec; [|exact Hr]; lia.
Qed.

(** A generation with valid arguments on a fruitful tape takes exactly one
    read and returns a PAN. *)
Lemma GeneratePANWithLength_fruitful (bin : string) (totalLen : Z) (sequence : string)
    (buf : list ascii) (rest : tape) :
  ValidateBIN bin = Ok tt -> 13 <= totalLen <= 19 ->
  check_sequence (TrimSpace sequence) (totalLen - 1 - len bin) = Ok tt ->
  (Z.to_nat (totalLen - 1 - len bin) <= accepted (firstn 64 buf))%nat ->
  exists pan, GeneratePANWithLength bin totalLen sequence (buf :: rest) = (Ok pan, rest).
Proof.
  intros Hb Hl Hs Hf. unfold GeneratePANWithLength. rewrite Hb.
  apply ValidateBIN_ok in Hb as [_ Hlen].
  destruct (Z.ltb_spec totalLen 13); [lia|].
  destruct (Z.gtb_spec totalLen 19); [lia|]. simpl.
  destruct (Z.leb_spec (totalLen - 1 - len bin) 0); [lia|].
  rewrite Hs. unfold fill_and_check, randomDigits.
  destruct (Z.leb_spec (totalLen - 1 - len bin) 0); [lia|].
  destruct (read_digits_fruitful buf rest _ Hf) as (s & ->).
  destruct (Z.to_nat (totalLen - 1 - len bin)) eqn:E; [lia|].
  eexists; reflexivity.
Qed.

Section UniqueLoop.

Variables (bin : string) (totalLen : Z) (sequence : string) (maxRetries : Z).
Variable used : string -> bool.
Hypothesis Hbin : ValidateBIN bin = Ok tt.
Hypothesis Hlen : 13 <= totalLen <= 19.
Hypothesis Hseq : check_sequence (TrimSpace sequence) (totalLen - 1 - len bin) = Ok tt.

Local Abbreviation fill := (Z.to_nat (totalLen - 1 - len bin)).

Lemma generated_length (n : nat) (rnd : tape) :
  fruitful n fill rnd -> length (generated n bin totalLen sequence rnd) = n.
Proof.
  revert rnd. induction n as [|n IH]; intros rnd Hf; simpl; [reflexivity|].
  destruct rnd as [|buf rest]; simpl in Hf; [contradiction|]. destruct Hf as [Hb Hf].
  destruct (GeneratePANWithLength_fruitful bin totalLen sequence buf rest Hbin Hlen Hseq Hb)
    as (pan & ->).
  simpl. now rewrite IH.
Qed.

End UniqueLoop.

(** The loop of [GenerateUniquePAN] against the PANs its generations
    draw: it logs them up to the first unused one, returns that one, and
    reports exhaustion when all [n] generations succeeded and every PAN
    was in use. *)
Lemma unique_loop_spec (bin : string) (totalLen : Z) (sequence : string) (maxRetries : Z)
    (used : string -> bool) (n : nat) (st : gen_state) :
  let gens := generated n bin totalLen sequence (rnd_of st) in
  let run := unique_loop n bin totalLen sequence maxRetries (Some (fun p => Ok (used p))) st in
  attempts (snd run) = (attempts st ++ upto_first_unused used gens)%list
  /\ (forall pan, find (fun p => negb (used p)) gens = Some pan -> fst run = Ok pan)
  /\ (find (fun p => negb (used p)) gens = None -> length gens = n ->
      fst run = Err (ErrUniqueExhausted maxRetries)).
Proof.
  revert st. induction n as [|n IH]; intros st; simpl.
  - split; [now rewrite app_nil_r|]. split; [discriminate | reflexivity].
  - destruct (GeneratePANWithLength bin totalLen sequence (rnd_of st)) as [[pan|e] t]; simpl.
    + destruct (used pan) eqn:Hu; simpl.
      * specialize (IH {| rnd_of := t; attempts := (attempts st ++ [pan])%list |}).
        simpl in IH. destruct IH as (IH1 & IH2 & IH3).
        split; [now rewrite IH1, <- app_assoc|]. split; [exact IH2|].
        intros Hnone Hlen. apply IH3; [exact Hnone | lia].
      * split; [reflexivity|]. split; [now intros pan' [= <-] | discriminate].
    + split; [now rewrite app_nil_r|]. split; discriminate.
Qed.


End GeneratorFacts.

(** ** Claims on the PAN generator *)

(** C9.  For every BIN that [ValidateBIN] accepts, a PAN returned by
    [GeneratePAN bin ""] passes [ValidatePAN]; a PAN returned by
    [GeneratePANWithLength "421234" 16 ""] has 16 bytes, all decimal digits,
    starts with 421234 and passes [ValidatePAN]; replacing any single byte
    before the check digit of such a PAN by a different byte makes
    [ValidatePAN] fail.  Both generators do return a PAN as soon as the
    first read of the random source delivers enough accepted bytes. *)
Theorem C9_generated_pan_is_luhn_valid (bin : string) (rnd : cardgen.tape) :
  cardgen.ValidateBIN bin = Ok tt ->
  (forall pan t, cardgen.GeneratePAN bin "" rnd = (Ok pan, t) ->
     cardgen.ValidatePAN pan = Ok tt
     /\ forall i c, (i < String.length pan - 1)%nat -> String.get i pan <> Some c ->
          is_ok (cardgen.ValidatePAN (set_byte i c pan)) = false)
  /\ (forall pan t, cardgen.GeneratePANWithLength "421234" 16 "" rnd = (Ok pan, t) ->
     len pan = 16
     /\ cardgen.IsDigits pan = true
     /\ substring 0 6 pan = "421234"
     /\ cardgen.ValidatePAN pan = Ok tt
     /\ forall i c, (i < String.length pan - 1)%nat -> String.get i pan <> Some c ->
          is_ok (cardgen.ValidatePAN (set_byte i c pan)) = false)
  /\ (fruitful 1 (Z.to_nat (15 - len bin)) rnd ->
      exists pan t, cardgen.GeneratePAN bin "" rnd = (Ok pan, t))
  /\ (fruitful 1 9 rnd ->
      exists pan t, cardgen.GeneratePANWithLength "421234" 16 "" rnd = (Ok pan, t)).
Proof.
  intros Hbin. split; [|split; [|split]].
  - intros pan t Hg. rewrite GeneratePAN_WithLength in Hg.
    destruct (GeneratePANWithLength_ok _ _ _ _ _ _ Hg) as (b & -> & Hd & Hl & _ & Hb).
    destruct (Hb TrimSpace_empty) as [Hdb Hlb]. unfold cardgen.panLen in Hlb.
    assert (cardgen.ValidatePAN ((bin ++ b) ++ cardgen.luhnCheckDigit (bin ++ b)) = Ok tt) as Hv.
    { apply ValidatePAN_generated.
      - now rewrite IsDigits_app, Hd, Hdb.
      - rewrite len_app. lia. }
    split; [exact Hv|]. intros i c. now apply ValidatePAN_flip.
  - intros pan t Hg.
    destruct (GeneratePANWithLength_ok _ _ _ _ _ _ Hg) as (b & -> & Hd & _ & _ & Hb).
    destruct (Hb TrimSpace_empty) as [Hdb Hlb]. change (len "421234") with 6 in Hlb.
    assert (cardgen.ValidatePAN (("421234" ++ b) ++ cardgen.luhnCheckDigit ("421234" ++ b)) = Ok tt)
      as Hv.
    { apply ValidatePAN_generated.
      - now rewrite IsDigits_app, Hd, Hdb.
      - rewrite len_app. change (len "421234") with 6. lia. }
    destruct (luhnCheckDigit_char ("421234" ++ b)) as (cd & E & Hcd & _).
    split; [|split; [|split; [|split]]].
    + rewrite E, !len_app. change (len "421234") with 6. change (len (String cd "")) with 1. lia.
    + rewrite E, !IsDigits_app, Hdb. simpl. now rewrite Hcd.
    + simpl. now destruct (("" ++ b) ++ cardgen.luhnCheckDigit ("421234" ++ b)).
    + exact Hv.
    + intros i c. now apply ValidatePAN_flip.
  - intros Hf. destruct rnd as [|buf rest]; simpl in Hf; [tauto|]. destruct Hf as [Hf _].
    rewrite GeneratePAN_WithLength.
    destruct (GeneratePANWithLength_fruitful bin cardgen.panLen "" buf rest) as (pan & E);
      [exact Hbin | unfold cardgen.panLen; lia | reflexivity | exact Hf | eauto].
  - intros Hf. destruct rnd as [|buf rest]; simpl in Hf; [tauto|]. destruct Hf as [Hf _].
    destruct (GeneratePANWithLength_fruitful "421234" 16 "" buf rest) as (pan & E);
      [reflexivity | lia | reflexivity | exact Hf | eauto].
Qed.

Lemma C9_generated_pan_witness :
  cardgen.ValidatePAN "4212341234567893" = Ok tt
  /\ is_ok (cardgen.ValidatePAN (set_byte 7 "9" "4212341234567893")) = false.
Proof.
  destruct (C9_generated_pan_is_luhn_valid "421234" (sample_tape 1) eq_refl)
    as (H & _).
  destruct (H "4212341234567893" [] eq_refl) as [Hv Hflip].
  split; [exact Hv|]. apply Hflip; [simpl; lia | discriminate].
Defined.

(** C8.  [GenerateUniquePAN] with a callback [exists] that answers
    [used pan] without error makes one generation attempt after the
    other and returns the first generated PAN the callback reports unused,
    having attempted that PAN and each one before it.  When the callback
    reports every PAN used and all [maxRetries + 1] generations succeed
    (6 when [maxRetries <= 0]) it has made exactly that many attempts and
    fails with the exhaustion error.  With a valid BIN, total length and
    sequence the generations do all succeed as soon as each read of the
    random source delivers enough accepted bytes. *)
Theorem C8_GenerateUniquePAN_retries (bin : string) (totalLen : Z) (sequence : string)
    (maxRetries : Z) (used : string -> bool) (rnd : cardgen.tape) :
  maxRetries < max_int64 ->
  let n := if maxRetries <=? 0 then 5 else maxRetries in
  let gens := generated (Z.to_nat (n + 1)) bin totalLen sequence rnd in
  let run := cardgen.GenerateUniquePAN bin totalLen sequence maxRetries
               (Some (fun pan => Ok (used pan))) rnd in
  cardgen.attempts (snd run) = upto_first_unused used gens
  /\ (forall pan, find (fun p => negb (used p)) gens = Some pan -> fst run = Ok pan)
  /\ ((forall pan, used pan = true) -> Z.of_nat (length gens) = n + 1 ->
      fst run = Err (ErrUniqueExhausted n)
      /\ Z.of_nat (length (cardgen.attempts (snd run))) = n + 1)
  /\ (cardgen.ValidateBIN bin = Ok tt ->
      13 <= totalLen <= 19 ->
      cardgen.check_sequence (cardgen.TrimSpace sequence) (totalLen - 1 - len bin) = Ok tt ->
      fruitful (Z.to_nat (n + 1)) (Z.to_nat (totalLen - 1 - len bin)) rnd ->
      Z.of_nat (length gens) = n + 1).
Proof.
  intros Hmax n gens run.
  assert (0 < n) as Hn by (subst n; destruct (Z.leb_spec maxRetries 0); lia).
  pose proof (unique_loop_spec bin totalLen sequence n used (Z.to_nat (n + 1))
                {| cardgen.rnd_of := rnd; cardgen.attempts := [] |}) as Hs.
  simpl in Hs. fold gens in Hs.
  assert (run = cardgen.unique_loop (Z.to_nat (n + 1)) bin totalLen sequence n
                  (Some (fun pan => Ok (used pan)))
                  {| cardgen.rnd_of := rnd; cardgen.attempts := [] |}) as Hrun by reflexivity.
  rewrite <- Hrun in Hs. destruct Hs as (Hatt & Hsome & Hnone).
  split; [exact Hatt|]. split; [exact Hsome|]. split.
  - intros Hall Hlen.
    assert (forall l, find (fun pan => negb (used pan)) l = None
                      /\ upto_first_unused used l = l) as Hl.
    { induction l as [|p l [IH1 IH2]]; simpl; [auto|]. rewrite Hall. simpl.
      now rewrite IH1, IH2. }
    destruct (Hl gens) as [Hfind Hupto].
    split; [apply Hnone; [exact Hfind | lia] | rewrite Hatt, Hupto; exact Hlen].
  - intros Hbin Hlen Hseq Hf.
    pose proof (generated_length bin totalLen sequence Hbin Hlen Hseq _ _ Hf) as Hg.
    fold gens in Hg. lia.
Qed.

Lemma C8_GenerateUniquePAN_witness :
  fst (cardgen.GenerateUniquePAN "421234" 16 "" 0 (Some (fun _ => Ok true)) (sample_tape 6))
  = Err (ErrUniqueExhausted 5)
  /\ Z.of_nat (length (cardgen.attempts
        (snd (cardgen.GenerateUniquePAN "421234" 16 "" 0 (Some (fun _ => Ok true))
                (sample_tape 6))))) = 6.
Proof.
  refine (proj1 (proj2 (proj2
    (C8_GenerateUniquePAN_retries "421234" 16 "" 0 (fun _ => true) (sample_tape 6) _)))
    (fun _ => eq_refl) eq_refl).
  unfold max_int64. lia.
Defined.

(** ** Claims on the expiry calculator *)

Section ExpiryFacts.

Import expiry.

(** The calendar facts hold for every month of the years 2000 to 2099. *)
Lemma calendar_table_ok :
  forallb (fun yy => forallb (fun mm => calendar_ok (Z.of_nat yy) (Z.of_nat mm)) (seq 1 12))
          (seq 0 100) = true.
Proof. vm_compute. reflexivity. Qed.

Lemma forallb_seq (f : nat -> bool) (a n : nat) (z : Z) :
  forallb f (seq a n) = true -> Z.of_nat a <= z < Z.of_nat a + Z.of_nat n ->
  f (Z.to_nat z) = true.
Proof.
  intros H Hz. rewrite forallb_forall in H. apply H. apply in_seq. lia.
Qed.

Lemma calendar_facts (yy mm : Z) :
  0 <= yy <= 99 -> 1 <= mm <= 12 -> calendar_ok yy mm = true.
Proof.
  intros Hy Hm.
  pose proof (forallb_seq _ 0 100 yy calendar_table_ok ltac:(lia)) as H.
  cbv beta in H.
  pose proof (forallb_seq _ 1 12 mm H ltac:(lia)) as H'.
  cbv beta in H'. rewrite !Z2Nat.id in H' by lia. exact H'.
Qed.

(** A valid YYMM is four digits; the two halves read as a year below 100
    and a month from 1 to 12. *)
Lemma ValidateYYMM_ok (yymm : string) :
  ValidateYYMM yymm = Ok tt ->
  0 <= Atoi (substring 0 2 yymm) <= 99 /\ 1 <= Atoi (substring 2 2 yymm) <= 12.
Proof.
  unfold ValidateYYMM. destruct (Z.eqb_spec (len yymm) 4) as [Hl|]; [|discriminate]. simpl.
  destruct yymm as [|a [|b [|c [|d [|e r]]]]]; try discriminate;
    [|unfold len in Hl; simpl in Hl; lia].
  unfold at_. simpl.
  destruct (cardgen.is_digit a) eqn:Ha; [|discriminate].
  destruct (cardgen.is_digit b) eqn:Hb; [|discriminate].
  destruct (cardgen.is_digit c) eqn:Hc; [|discriminate].
  destruct (cardgen.is_digit d) eqn:Hd; [|discriminate]. simpl.
  unfold Atoi. simpl. unfold digit_val. rewrite !digit_value by assumption.
  apply is_digit_range in Ha, Hb, Hc, Hd.
  destruct (Z.ltb_spec ((byte_val c - 48) * 10 + (byte_val d - 48)) 1); [discriminate|].
  destruct (Z.gtb_spec ((byte_val c - 48) * 10 + (byte_val d - 48)) 12); [discriminate|].
  intros _. lia.
Qed.

(** The wall clock of [Date y m d 0 0 0 0 l] shifted by [k] nanoseconds,
    for a shift of less than a second back or forth. *)
Lemma wallSeconds_Date (y m d : Z) (l : time.Location) :
  time.wallSeconds (time.Date y m d 0 0 0 0 l) = time.daysFromCivil y m d * 86400.
Proof.
  unfold time.wallSeconds, time.Date, time.nanosPerSecond, time.secondsPerDay. simpl.
  Z.div_mod_to_equations. lia.
Qed.

Lemma nsec_Date (y m d : Z) (l : time.Location) :
  time.nsec (time.Date y m d 0 0 0 0 l) = 0.
Proof.
  unfold time.nsec, time.Date, time.nanosPerSecond, time.secondsPerDay. simpl.
  Z.div_mod_to_equations. lia.
Qed.

Lemma DateOf_Date (y m d : Z) (l : time.Location) :
  time.DateOf (time.Date y m d 0 0 0 0 l) = time.civilFromDays (time.daysFromCivil y m d).
Proof.
  unfold time.DateOf. rewrite wallSeconds_Date. unfold time.secondsPerDay.
  now rewrite Z.div_mul by lia.
Qed.

Lemma ClockOf_Date (y m d : Z) (l : time.Location) :
  time.ClockOf (time.Date y m d 0 0 0 0 l) = (0, 0, 0).
Proof.
  unfold time.ClockOf. rewrite wallSeconds_Date. unfold time.secondsPerDay.
  now rewrite Z.mod_mul by lia.
Qed.

Lemma DateOf_before_Date (y m d : Z) (l : time.Location) :
  time.DateOf (time.Add (time.Date y m d 0 0 0 0 l) (- time.Nanosecond))
  = time.civilFromDays (time.daysFromCivil y m d - 1).
Proof.
  unfold time.DateOf. f_equal.
  unfold time.wallSeconds, time.Add, time.Date, time.nanosPerSecond, time.secondsPerDay,
    time.Nanosecond. simpl.
  Z.div_mod_to_equations. lia.
Qed.

End ExpiryFacts.

Section ExpiryClaim.

Import expiry.

(** [AddDate(0, 1, 0)] on the first instant of a month of 2000..2099 is
    the first instant of the following month. *)
Lemma AddDate_first_of_month (yy mm : Z) (l : time.Location) :
  0 <= yy <= 99 -> 1 <= mm <= 12 ->
  time.AddDate (time.Date (2000 + yy) mm 1 0 0 0 0 l) 0 1 0
  = time.Date (fst (following_month (2000 + yy) mm)) (snd (following_month (2000 + yy) mm))
      1 0 0 0 0 l.
Proof.
  intros Hy Hm. pose proof (calendar_facts yy mm Hy Hm) as H.
  unfold calendar_ok in H. destruct (following_month (2000 + yy) mm) as [y' m'].
  rewrite !andb_true_iff, !bool_decide_eq_true in H.
  destruct H as ((((H1 & H2) & H3) & H4) & H5).
  unfold time.AddDate. rewrite DateOf_Date, ClockOf_Date, nsec_Date, H1.
  cbv beta iota zeta. simpl fst. simpl snd.
  unfold time.Date. simpl time.loc. change (1 + 0) with 1.
  replace (2000 + yy + 0) with (2000 + yy) by lia. rewrite H3. f_equal.
Qed.

End ExpiryClaim.



(** ** Claims on the CVV provider *)

Section ProviderFacts.

Variable hmac_sha256 : list ascii -> list ascii -> list ascii.

Lemma StaticCVVDemoStrict_not_key_error (pan yymm sc : string) (width : Z) (k : list ascii) :
  security.StaticCVVDemoStrict hmac_sha256 pan yymm sc width k <> Err ErrDemoKeyRequired.
Proof.
  unfold security.StaticCVVDemoStrict, expiry.ValidateYYMM, security.validateServiceCode,
    security.panNoCDStrict, cardgen.ValidatePAN.
  repeat (match goal with
          | |- context [if ?b then _ else _] => destruct b
          end; try discriminate).
Qed.

Lemma DynamicCVVWithTTLStrict_not_key_error (pan yymm sc : string) (now step width : Z)
    (k : list ascii) :
  security.DynamicCVVWithTTLStrict hmac_sha256 pan yymm sc now step width k
  <> Err ErrDemoKeyRequired.
Proof.
  unfold security.DynamicCVVWithTTLStrict, expiry.ValidateYYMM, security.validateServiceCode,
    security.panNoCDStrict, cardgen.ValidatePAN.
  repeat (match goal with
          | |- context [if ?b then _ else _] => destruct b
          end; try discriminate).
Qed.

End ProviderFacts.

(** C7, as the code has it.  [NewDemoProviderStrict] has no error result:
    it returns a provider that holds the key it is given, the empty key
    included.  The missing key is reported at use: on a provider built
    from an empty key every [ComputeCVV2] and every [ComputeDisplayDCVV]
    fails with "cvv demo key is required", whatever the other arguments,
    and on a provider with a non-empty key neither ever fails with that
    error.  Only the key loader [StrictDemoKey] fails on an empty key
    before a provider exists. *)
Theorem C7_missing_key_reported_at_use
    (hmac_sha256 : list ascii -> list ascii -> list ascii)
    (panNoCD yymm sc : string) (step width now : Z) (b : ascii) (k : list ascii) :
  security.key (security.NewDemoProviderStrict []) = []
  /\ security.ComputeCVV2 hmac_sha256 (security.NewDemoProviderStrict []) panNoCD yymm sc width
     = Err ErrDemoKeyRequired
  /\ security.ComputeDisplayDCVV hmac_sha256 (security.NewDemoProviderStrict []) panNoCD yymm sc
       step width now
     = Err ErrDemoKeyRequired
  /\ security.ComputeCVV2 hmac_sha256 (security.NewDemoProviderStrict (b :: k)) panNoCD yymm sc
       width
     <> Err ErrDemoKeyRequired
  /\ security.ComputeDisplayDCVV hmac_sha256 (security.NewDemoProviderStrict (b :: k)) panNoCD
       yymm sc step width now
     <> Err ErrDemoKeyRequired
  /\ security.StrictDemoKey "" = Err ErrKeyMissing.
Proof.
  split; [reflexivity|]. split; [reflexivity|]. split; [reflexivity|].
  split; [|split; [|reflexivity]].
  - unfold security.ComputeCVV2. simpl security.key.
    replace (Z.of_nat (length (b :: k)) =? 0) with false
      by (symmetry; apply Z.eqb_neq; simpl; lia).
    destruct (expiry.ValidateYYMM yymm) as [[]|e] eqn:E.
    + destruct (_ || _); [discriminate|].
      destruct (security.validatePanNoCD panNoCD) as [[]|e'] eqn:E'.
      * apply StaticCVVDemoStrict_not_key_error.
      * unfold security.validatePanNoCD in E'.
        repeat (match type of E' with
                | context [if ?c then _ else _] => destruct c
                end; try discriminate); congruence.
    + unfold expiry.ValidateYYMM in E.
      repeat (match type of E with
              | context [if ?c then _ else _] => destruct c
              end; try discriminate); congruence.
  - unfold security.ComputeDisplayDCVV. simpl security.key.
    replace (Z.of_nat (length (b :: k)) =? 0) with false
      by (symmetry; apply Z.eqb_neq; simpl; lia).
    destruct (expiry.ValidateYYMM yymm) as [[]|e] eqn:E.
    + destruct (_ || _); [discriminate|].
      destruct (security.validatePanNoCD panNoCD) as [[]|e'] eqn:E'.
      * apply DynamicCVVWithTTLStrict_not_key_error.
      * unfold security.validatePanNoCD in E'.
        repeat (match type of E' with
                | context [if ?c then _ else _] => destruct c
                end; try discriminate); congruence.
    + unfold expiry.ValidateYYMM in E.
      repeat (match type of E with
              | context [if ?c then _ else _] => destruct c
              end; try discriminate); congruence.
Qed.

(** C7 as stated fails: construction from the empty key yields a provider,
    and the missing key only shows when the provider is first used. *)
Lemma C7_construction_does_not_fail :
  exists p : security.DemoProvider,
    p = security.NewDemoProviderStrict []
    /\ security.ComputeCVV2 (fun _ _ => []) p "421234123456789" "3002" "101" 3
       = Err ErrDemoKeyRequired
    /\ security.ComputeDisplayDCVV (fun _ _ => []) p "421234123456789" "3002" "101"
         30000000000 3 1900000000
       = Err ErrDemoKeyRequired.
Proof.
  eexists. split; [reflexivity|]. split; reflexivity.
Qed.

(** ** Claims on the ledger repository *)

Section LedgerFacts.

Import issuer.

Lemma update_account_balances (id : string) (guard : Account -> bool)
    (set : Account -> Account) (d d' : DB) (n : Z) :
  balances_ok d -> update_account id guard set d = Ok (n, d') -> balances_ok d'.
Proof.
  unfold update_account, balances_ok. intros Hd.
  destruct (accounts d !! id) as [a|]; [|now intros [= <- <-]].
  destruct (guard a); [|now intros [= <- <-]].
  destruct (check_account (set a)) as [[]|e] eqn:Hc; [|discriminate].
  intros [= <- <-]. simpl. apply map_Forall_insert_2; [|exact Hd].
  unfold check_account in Hc.
  destruct (in_int64 _ && in_int64 _); [|discriminate]. simpl in Hc.
  destruct (Z.leb_spec 0 (available_balance (set a))); [|discriminate].
  destruct (Z.leb_spec 0 (hold_balance (set a))); [|discriminate]. auto.
Qed.

Lemma insert_auth_accounts (b : bool) (row : Auth) (d d' : DB) :
  insert_auth b row d = Inserted d' -> accounts d' = accounts d.
Proof.
  unfold insert_auth.
  repeat (match goal with
          | |- context [if ?c then _ else _] => destruct c
          end; try discriminate).
  now intros [= <-].
Qed.

Lemma insert_transaction_accounts (row : Transaction) (d d' : DB) :
  insert_transaction row d = Ok d' -> accounts d' = accounts d.
Proof.
  unfold insert_transaction.
  repeat (match goal with
          | |- context [if ?c then _ else _] => destruct c
          end; try discriminate).
  now intros [= <-].
Qed.

Lemma mark_reversed_accounts (l : list Auth) (d : DB) :
  accounts (mark_reversed l d) = accounts d.
Proof.
  unfold mark_reversed. revert d. induction l as [|a l IH]; intros d; simpl; [reflexivity|].
  now rewrite IH.
Qed.

Lemma release_all_balances (l : list (string * Z)) (d d' : DB) :
  balances_ok d -> release_all l d = Ok d' -> balances_ok d'.
Proof.
  revert d. induction l as [|[acc sum] l IH]; intros d Hd; simpl.
  - now intros [= <-].
  - destruct (release_hold acc sum d) as [[n d1]|e] eqn:E; [|discriminate].
    apply IH. eapply update_account_balances; [exact Hd | exact E].
Qed.

Lemma balances_ok_accounts (d d' : DB) :
  accounts d' = accounts d -> balances_ok d -> balances_ok d'.
Proof. unfold balances_ok. now intros ->. Qed.

Lemma hold_and_insert_balances (row : Auth) {ap au : string} (d d' : DB)
    (res : string * string * bool) :
  balances_ok d -> hold_and_insert row ap au d = Ok (res, d') -> balances_ok d'.
Proof.
  unfold hold_and_insert. intros Hd.
  destruct (hold_funds _ _ d) as [[n d1]|e] eqn:E; [|discriminate].
  pose proof (update_account_balances _ _ _ _ _ _ Hd E) as Hd1.
  destruct (n =? 0); [discriminate|].
  destruct (stan row).
  - now intros [= <- <-].
  - destruct (insert_auth false row d1) as [d2| |e] eqn:Ei; [| |discriminate].
    + intros [= <- <-]. eapply balances_ok_accounts; [|exact Hd1].
      eapply insert_auth_accounts, Ei.
    + now intros [= <- <-].
Qed.

Lemma CreateAuthAndHold_tx_balances (uuid accountID cardID : string) (amount : Z)
    (currency approvalCode authorizationCode merchantName mcc : string) (stan : option Z)
    (d d' : DB) (res : string * string * bool) :
  balances_ok d ->
  CreateAuthAndHold_tx uuid accountID cardID amount currency approvalCode authorizationCode
    merchantName mcc stan d = Ok (res, d') ->
  balances_ok d'.
Proof.
  unfold CreateAuthAndHold_tx. intros Hd. destruct stan as [s|].
  - destruct (insert_auth true _ d) as [d1| |e] eqn:Ei; [| |discriminate].
    + apply hold_and_insert_balances.
      eapply balances_ok_accounts; [|exact Hd]. eapply insert_auth_accounts, Ei.
    + destruct (auth_by_card_stan d cardID s); [|discriminate].
      destruct (_ || _); [discriminate|]. now intros [= <- <-].
  - now apply hold_and_insert_balances.
Qed.

Lemma CaptureAuth_tx_balances (uuid : string) (now : Z) (authID : string) (amount : Z)
    (currency : string) (d d' : DB) :
  balances_ok d -> CaptureAuth_tx uuid now authID amount currency d = Ok (tt, d') ->
  balances_ok d'.
Proof.
  unfold CaptureAuth_tx. intros Hd.
  destruct (auth_by_id d authID) as [a|]; [|discriminate].
  destruct (negb (status a =? AUTHORIZED)%string); [discriminate|].
  destruct (negb _); [discriminate|].
  destruct (_ >? _); [discriminate|].
  destruct (release_hold _ _ d) as [[n d1]|e] eqn:E; [|discriminate].
  pose proof (update_account_balances _ _ _ _ _ _ Hd E) as Hd1.
  destruct (insert_transaction _ d1) as [d2|e] eqn:Ei; [|discriminate].
  intros [= <-]. eapply balances_ok_accounts; [|exact Hd1].
  simpl. eapply insert_transaction_accounts, Ei.
Qed.

Lemma ReleaseExpiredHolds_tx_balances (now batch : Z) (d d' : DB) (n : Z) :
  balances_ok d -> ReleaseExpiredHolds_tx now batch d = Ok (n, d') -> balances_ok d'.
Proof.
  unfold ReleaseExpiredHolds_tx. intros Hd.
  destruct (batch <? 0); [discriminate|].
  destruct (_ =? 0); [now intros [= <- <-]|].
  destruct (release_all _ d) as [d1|e] eqn:E; [|discriminate].
  intros [= <- <-]. eapply balances_ok_accounts; [apply mark_reversed_accounts|].
  eapply release_all_balances; [exact Hd | exact E].
Qed.

Lemma ReverseAuth_tx_balances (authID : string) (d d' : DB) :
  balances_ok d -> ReverseAuth_tx authID d = Ok (tt, d') -> balances_ok d'.
Proof.
  unfold ReverseAuth_tx. intros Hd.
  destruct (auth_by_id d authID) as [a|]; [|discriminate].
  destruct (negb _); [discriminate|].
  destruct (release_hold _ _ d) as [[n d1]|e] eqn:E; [|discriminate].
  intros [= <-]. eapply balances_ok_accounts; [|eapply update_account_balances; eauto].
  reflexivity.
Qed.

(** Committed or rolled back, a transaction that keeps the invariant
    leaves a repository that satisfies it. *)
Lemma run_tx_ok {A} (body : DB -> result (A * DB)) (d : DB) :
  balances_ok d ->
  (forall a d', body d = Ok (a, d') -> balances_ok d') ->
  repository_ok (snd (run_tx body {| db := Some d |} d)).
Proof.
  intros Hd Hbody. unfold run_tx. destruct (body d) as [[a d']|e] eqn:E; simpl.
  - exact (Hbody _ _ eq_refl).
  - exact Hd.
Qed.

Lemma after_ok (c : call) (r : Repository) : repository_ok r -> repository_ok (after c r).
Proof.
  destruct r as [[d|]]; intros Hr.
  - change (balances_ok d) in Hr.
    destruct c; simpl; apply run_tx_ok; try exact Hr.
    + intros a d'. now apply CreateAuthAndHold_tx_balances.
    + intros [] d'. now apply CaptureAuth_tx_balances.
    + intros n d'. now apply ReleaseExpiredHolds_tx_balances.
    + intros [] d'. now apply ReverseAuth_tx_balances.
  - destruct c; exact I.
Qed.

End LedgerFacts.

(** C2.  Each of CreateAuthAndHold, CaptureAuth, ReleaseExpiredHolds and
    ReverseAuth keeps [available_balance >= 0] and [hold_balance >= 0] on
    every account: from a repository that satisfies the invariant, the
    repository after the call satisfies it, whether the call succeeded or
    failed; so does the repository after any sequence of calls, so no
    number of authorization attempts makes a balance negative. *)
Theorem C2_balances_never_negative (r : issuer.Repository) :
  repository_ok r ->
  (forall c : call, repository_ok (after c r))
  /\ (forall cs : list call, repository_ok (after_all cs r)).
Proof.
  intros Hr. split.
  - intros c. now apply after_ok.
  - intros cs. revert r Hr. unfold after_all.
    induction cs as [|c cs IH]; intros r Hr; simpl; [exact Hr|].
    apply IH. now apply after_ok.
Qed.

Lemma sample_db_ok : balances_ok sample_db.
Proof.
  unfold balances_ok, sample_db. simpl. apply map_Forall_singleton. simpl. lia.
Qed.

Lemma C2_balances_witness :
  repository_ok
    (after_all
       [CallCreateAuthAndHold "u1" "acc-1" "card-1" 60 "USD" "00" "111111" "shop" "5411" None;
        CallCreateAuthAndHold "u2" "acc-1" "card-1" 60 "USD" "00" "222222" "shop" "5411" None;
        CallReverseAuth "u1"]
       sample_repo).
Proof.
  apply (C2_balances_never_negative sample_repo). exact sample_db_ok.
Defined.

Section LedgerSteps.

Import issuer.

Lemma ToUpper_idempotent (s : string) : ToUpper (ToUpper s) = ToUpper s.
Proof.
  induction s as [|c s IH]; simpl; [reflexivity|]. rewrite IH. f_equal.
  unfold upper_byte.
  destruct ((97 <=? byte_val c) && (byte_val c <=? 122)) eqn:E; [|now rewrite E].
  apply andb_true_iff in E as [E1%Z.leb_le E2%Z.leb_le].
  rewrite byte_val_of, Z.mod_small by lia.
  destruct (Z.leb_spec 97 (byte_val c - 32)); [lia|]. reflexivity.
Qed.

Lemma find_snoc {A} (f : A -> bool) (l : list A) (x : A) :
  find f (l ++ [x]) = match find f l with
                      | Some y => Some y
                      | None => if f x then Some x else None
                      end.
Proof.
  induction l as [|y l IH]; simpl; [reflexivity|]. destruct (f y); [reflexivity | exact IH].
Qed.

(** An INSERT that passes every constraint appends the row. *)
Lemma insert_auth_fresh (b : bool) (row : Auth) (d : DB) :
  0 < amount row ->
  (forall s, stan row = Some s -> auth_by_card_stan d (card_id row) s = None) ->
  auth_by_id d (auth_id row) = None ->
  is_Some (accounts d !! account_id row) ->
  card_id row ∈ cards d ->
  insert_auth b row d
  = Inserted {| accounts := accounts d; cards := cards d;
                auths := (auths d ++ [row])%list; transactions := transactions d |}.
Proof.
  intros Ha Hs Hid Hacc Hcard. unfold insert_auth.
  destruct (Z.ltb_spec 0 (amount row)); [|lia]. simpl.
  replace (match stan row with
           | Some s => bool_decide (is_Some (auth_by_card_stan d (card_id row) s))
           | None => false
           end) with false.
  2: { destruct (stan row) as [s|]; [|reflexivity]. rewrite (Hs s eq_refl).
       symmetry. apply bool_decide_eq_false_2. now intros [? ?]. }
  rewrite Hid. rewrite (bool_decide_eq_false_2 (is_Some None)) by now intros [? ?].
  rewrite (bool_decide_eq_true_2 _ Hacc), (bool_decide_eq_true_2 _ Hcard). reflexivity.
Qed.

(** An INSERT with a STAN the card already used is dropped. *)
Lemma insert_auth_suppressed (row : Auth) (d : DB) (s : Z) (existed : Auth) :
  0 < amount row -> stan row = Some s ->
  auth_by_card_stan d (card_id row) s = Some existed ->
  insert_auth true row d = Suppressed.
Proof.
  intros Ha Hs He. unfold insert_auth.
  destruct (Z.ltb_spec 0 (amount row)); [|lia]. simpl.
  rewrite Hs, He. now rewrite bool_decide_eq_true_2 by eauto.
Qed.

(** An INSERT never touches another table and never drops a row. *)
Lemma insert_auth_inserted (b : bool) (row : Auth) (d d' : DB) :
  insert_auth b row d = Inserted d' ->
  d' = {| accounts := accounts d; cards := cards d;
          auths := (auths d ++ [row])%list; transactions := transactions d |}
  /\ 0 < amount row
  /\ (forall s, stan row = Some s -> auth_by_card_stan d (card_id row) s = None).
Proof.
  unfold insert_auth. destruct (Z.ltb_spec 0 (amount row)); [|discriminate]. simpl.
  destruct (stan row) as [s|] eqn:Es.
  - case_bool_decide as Hc.
    + now destruct b.
    + repeat (match goal with
              | |- context [if ?c then _ else _] => destruct c
              end; try discriminate).
      intros [= <-]. split; [reflexivity|]. split; [assumption|].
      intros s' [= <-]. destruct (auth_by_card_stan d (card_id row) s) eqn:E; [|reflexivity].
      exfalso. apply Hc. eauto.
  - repeat (match goal with
            | |- context [if ?c then _ else _] => destruct c
            end; try discriminate).
    intros [= <-]. split; [reflexivity|]. split; [assumption|]. discriminate.
Qed.

Lemma check_account_ok (a : Account) :
  account_in_schema a -> check_account a = Ok tt.
Proof.
  intros [[H1 H2] [H3 H4]]. unfold check_account, in_int64, min_int64, max_int64 in *.
  repeat match goal with
         | |- context [?x <=? ?y] => destruct (Z.leb_spec x y); [|lia]
         end.
  reflexivity.
Qed.

(** The conditional UPDATE of the hold: nothing moves when the guard
    fails; the amount moves when the funds are there. *)
Lemma hold_funds_short (id : string) (amt : Z) (d : DB) (a : Account) :
  accounts d !! id = Some a -> available_balance a < amt ->
  hold_funds id amt d = Ok (0, d).
Proof.
  intros Ha Hlt. unfold hold_funds, update_account. rewrite Ha.
  destruct (Z.leb_spec amt (available_balance a)); [lia|]. reflexivity.
Qed.

Lemma hold_funds_ok (id : string) (amt : Z) (d d' : DB) (n : Z) :
  hold_funds id amt d = Ok (n, d') -> n <> 0 ->
  exists a, accounts d !! id = Some a
            /\ amt <= available_balance a
            /\ d' = {| accounts := <[id := held amt a]> (accounts d); cards := cards d;
                       auths := auths d; transactions := transactions d |}.
Proof.
  unfold hold_funds, update_account.
  destruct (accounts d !! id) as [a|]; [|intros [= <- <-]; congruence].
  destruct (Z.leb_spec amt (available_balance a)); [|intros [= <- <-]; congruence].
  destruct (check_account _); [|discriminate].
  intros [= <- <-] _. exists a. auto.
Qed.

(** The UPDATE that takes an amount out of the hold balance. *)
Lemma release_hold_ok (id : string) (amt : Z) (d : DB) (a : Account) :
  accounts d !! id = Some a -> account_in_schema a ->
  0 <= amt <= hold_balance a ->
  release_hold id amt d
  = Ok (1, {| accounts := <[id := released amt a]> (accounts d); cards := cards d;
              auths := auths d; transactions := transactions d |}).
Proof.
  intros Ha Hs Hamt. unfold release_hold, update_account. rewrite Ha.
  rewrite check_account_ok; [reflexivity|].
  destruct Hs as [H1 H2]. split; simpl; lia.
Qed.

Lemma release_hold_short (id : string) (amt : Z) (d : DB) (a : Account) :
  accounts d !! id = Some a -> account_in_schema a ->
  hold_balance a < amt <= max_int64 ->
  release_hold id amt d = Err check_violation.
Proof.
  intros Ha [[H1 H2] [H3 H4]] Hamt. unfold release_hold, update_account. rewrite Ha.
  unfold check_account, in_int64, min_int64, max_int64 in *. simpl.
  repeat match goal with
         | |- context [?x <=? ?y] => destruct (Z.leb_spec x y); try lia
         end; reflexivity.
Qed.

(** An INSERT into [issuer.transactions] that passes every constraint
    appends the row. *)
Lemma insert_transaction_ok (row : Transaction) (d : DB) :
  tx_amount row <> 0 ->
  tx_by_id d (tx_id row) = None ->
  is_Some (accounts d !! tx_account_id row) ->
  tx_card_id row ∈ cards d ->
  (forall id, tx_auth_id row = Some id -> is_Some (auth_by_id d id)) ->
  insert_transaction row d
  = Ok {| accounts := accounts d; cards := cards d; auths := auths d;
          transactions := (transactions d ++ [row])%list |}.
Proof.
  intros Hamt Hid Hacc Hcard Hauth. unfold insert_transaction.
  destruct (Z.eqb_spec (tx_amount row) 0); [contradiction|].
  rewrite Hid, (bool_decide_eq_false_2 (is_Some None)) by now intros [? ?].
  rewrite (bool_decide_eq_true_2 _ Hacc), (bool_decide_eq_true_2 _ Hcard).
  destruct (tx_auth_id row) as [id|]; [|reflexivity].
  now rewrite (bool_decide_eq_true_2 _ (Hauth id eq_refl)).
Qed.

Lemma auth_by_id_set_status (id : string) (s : string) (d : DB) :
  auth_by_id (set_auth_status id s d) id = with_status s <$> auth_by_id d id.
Proof.
  unfold auth_by_id, set_auth_status. simpl.
  induction (auths d) as [|a l IH]; simpl; [reflexivity|].
  destruct (String.eqb (auth_id a) id) eqn:E; simpl; rewrite E; [reflexivity | exact IH].
Qed.

End LedgerSteps.


Section ReplayFacts.

Import issuer.

Lemma len_ToUpper (s : string) : len (ToUpper s) = len s.
Proof. unfold len. f_equal. induction s as [|c s IH]; simpl; [reflexivity | now rewrite IH]. Qed.

(** A text of [n] characters is stored as it is. *)
Lemma bpchar_full (n : Z) (s : string) : len s = n -> bpchar n s = s.
Proof.
  intros H. unfold bpchar. rewrite H, Z.sub_diag. simpl.
  apply bytes_inj. rewrite bytes_app. apply app_nil_r.
Qed.

(** The length of what a column holds. *)
Lemma len_bpchar (n : Z) (s : string) : len (bpchar n s) = Z.max n (len s).
Proof.
  unfold bpchar. rewrite len_app. unfold len at 2.
  rewrite <- (length_bytes (string_of_list_ascii _)), list_ascii_of_string_of_list_ascii,
    repeat_length.
  pose proof (Nat2Z.is_nonneg (String.length s)). unfold len in *. lia.
Qed.

(** What a successful call with a STAN leaves behind: a replay leaves the
    database as it found it and returns the codes of the stored row; a
    fresh call returns its own codes and has appended the row of its
    request, as the columns hold it, and moved the amount to the hold. *)
Lemma CreateAuthAndHold_tx_stan_ok (uuid accountID cardID : string) (amount : Z)
    (currency approvalCode authorizationCode merchantName mcc : string) (s : Z)
    (d d1 : DB) (appr auth : string) (dup : bool) :
  CreateAuthAndHold_tx uuid accountID cardID amount currency approvalCode authorizationCode
    merchantName mcc (Some s) d = Ok (appr, auth, dup, d1) ->
  0 < amount
  /\ exists row, auth_by_card_stan d1 cardID s = Some row
       /\ issuer.amount row = amount
       /\ if dup then d1 = d
                      /\ ToUpper (issuer.currency row) = ToUpper currency
                      /\ approval_code row = appr /\ authorization_code row = auth
          else row = new_auth uuid accountID cardID amount currency approvalCode
                       authorizationCode merchantName mcc (Some s)
               /\ appr = approvalCode /\ auth = authorizationCode
               /\ auth_by_card_stan d cardID s = None
               /\ exists a, accounts d !! accountID = Some a
                    /\ amount <= available_balance a
                    /\ accounts d1 = <[accountID := held amount a]> (accounts d)
                    /\ auths d1 = (auths d ++ [row])%list
                    /\ transactions d1 = transactions d.
Proof.
  unfold CreateAuthAndHold_tx.
  set (row := new_auth uuid accountID cardID amount currency approvalCode
                authorizationCode merchantName mcc (Some s)).
  destruct (insert_auth true row d) as [d0| |e] eqn:Ei; [| |discriminate].
  - apply insert_auth_inserted in Ei as (-> & Hpos & Hnone).
    specialize (Hnone s eq_refl). simpl in Hnone.
    unfold hold_and_insert.
    destruct (hold_funds _ _ _) as [[n d2]|e] eqn:Eh; [|discriminate].
    destruct (Z.eqb_spec n 0) as [|Hn]; [discriminate|].
    simpl stan. intros [= <- <- <- <-].
    apply hold_funds_ok in Eh as (a & Ha & Hle & ->); [|exact Hn]. simpl in *.
    split; [exact Hpos|]. exists row. split.
    { unfold auth_by_card_stan in *. simpl. rewrite find_snoc, Hnone.
      unfold same_card_stan. simpl. now rewrite String.eqb_refl, Z.eqb_refl. }
    split; [reflexivity|]. repeat split; auto.
    exists a. repeat split; auto.
  - destruct (auth_by_card_stan d cardID s) as [existed|] eqn:Ee; [|discriminate].
    destruct (Z.eqb_spec (issuer.amount existed) amount) as [Ea|]; [|discriminate].
    destruct (String.eqb_spec (ToUpper (issuer.currency existed)) (ToUpper currency))
      as [Ec|]; [|discriminate].
    simpl. intros [= <- <- <- <-].
    split.
    { unfold insert_auth in Ei. simpl in Ei.
      destruct (Z.ltb_spec 0 amount); [assumption|discriminate]. }
    exists existed. repeat split; auto.
Qed.

End ReplayFacts.







(** C1, as the code has it.  On an AUTHORIZED row with held amount A whose
    account holds at least A, [ReverseAuth] succeeds, takes A out of the
    account's [hold_balance], sets the row's status to REVERSED, and
    leaves [available_balance] as it was: the amount is not added back.
    On a row in any other status it fails and changes nothing. *)
Theorem C1_ReverseAuth_leaves_available_unchanged (d : issuer.DB) (authID : string)
    (a : issuer.Auth) (acct : issuer.Account) :
  issuer.auth_by_id d authID = Some a ->
  issuer.accounts d !! issuer.account_id a = Some acct ->
  account_in_schema acct ->
  0 < issuer.amount a ->
  (issuer.status a = issuer.AUTHORIZED ->
   issuer.amount a <= issuer.hold_balance acct ->
   exists d',
     issuer.ReverseAuth (issuer.NewPGRepository d) authID = (Ok tt, issuer.NewPGRepository d')
     /\ issuer.accounts d'
        = <[issuer.account_id a := issuer.released (issuer.amount a) acct]> (issuer.accounts d)
     /\ issuer.available_balance (issuer.released (issuer.amount a) acct)
        = issuer.available_balance acct
     /\ issuer.hold_balance (issuer.released (issuer.amount a) acct)
        = issuer.hold_balance acct - issuer.amount a
     /\ issuer.auth_by_id d' authID = Some (issuer.with_status issuer.REVERSED a))
  /\ (issuer.status a <> issuer.AUTHORIZED ->
      issuer.ReverseAuth (issuer.NewPGRepository d) authID
      = (Err (ErrBadAuthStatus (issuer.status a)), issuer.NewPGRepository d)).
Proof.
  intros Hfind Hacc Hschema Hpos.
  unfold issuer.ReverseAuth, issuer.NewPGRepository, issuer.run_tx. simpl issuer.db.
  cbv beta iota. unfold issuer.ReverseAuth_tx. rewrite Hfind. split.
  - intros Hst Hhold. rewrite Hst, String.eqb_refl. simpl negb. cbv iota.
    rewrite (release_hold_ok _ _ d acct Hacc Hschema) by lia.
    eexists. split; [reflexivity|]. split; [reflexivity|]. split; [reflexivity|].
    split; [reflexivity|].
    rewrite auth_by_id_set_status. unfold issuer.auth_by_id in *. simpl. now rewrite Hfind.
  - intros Hst. apply String.eqb_neq in Hst as ->. reflexivity.
Qed.

Lemma C1_ReverseAuth_witness :
  exists d',
    issuer.ReverseAuth sample_repo_authorized "u1" = (Ok tt, issuer.NewPGRepository d')
    /\ issuer.accounts d' !! "acc-1"
       = Some {| issuer.acc_currency := "USD"; issuer.available_balance := 0;
                 issuer.hold_balance := 0 |}.
Proof.
  destruct (C1_ReverseAuth_leaves_available_unchanged
              (default sample_db (issuer.db sample_repo_authorized)) "u1"
              (issuer.new_auth "u1" "acc-1" "card-1" 100 "usd" "00" "123456" "shop" "5411" (Some 7))
              {| issuer.acc_currency := "USD"; issuer.available_balance := 0;
                 issuer.hold_balance := 100 |})
    as [H _].
  - reflexivity.
  - reflexivity.
  - unfold account_in_schema, max_int64. simpl. lia.
  - simpl. lia.
  - destruct H as (d' & Hrun & Hacc & _); [reflexivity | simpl; lia |].
    exists d'. split; [exact Hrun|]. rewrite Hacc. reflexivity.
Defined.

(** C6, as the code has it.  For an AUTHORIZED authorization of amount N
    with matching currency, let the captured amount be N when the
    requested amount is [<= 0] and the requested amount otherwise.  When the
    captured amount is at most N and at most the account's
    [hold_balance], [CaptureAuth] succeeds, takes the captured amount out
    of [hold_balance], inserts a CAPTURED transaction of that amount, and
    sets the row's status to CAPTURED for a full capture and leaves it
    AUTHORIZED for a partial one.  When the captured amount exceeds the
    account's [hold_balance] the CHECK on the balance fails the call, and
    a requested amount above N, a row in another status or a currency
    mismatch fail it as well; a failed call changes nothing. *)
Theorem C6_CaptureAuth_full_and_partial (d : issuer.DB) (uuid : string) (now : Z)
    (authID : string) (requested : Z) (currency : string)
    (a : issuer.Auth) (acct : issuer.Account) :
  issuer.auth_by_id d authID = Some a ->
  issuer.accounts d !! issuer.account_id a = Some acct ->
  account_in_schema acct ->
  0 < issuer.amount a <= max_int64 ->
  issuer.card_id a ∈ issuer.cards d ->
  issuer.tx_by_id d uuid = None ->
  let N := issuer.amount a in
  let captured := if requested <=? 0 then N else requested in
  let run := issuer.CaptureAuth (issuer.NewPGRepository d) uuid now authID requested currency in
  (issuer.status a = issuer.AUTHORIZED ->
   issuer.ToUpper (issuer.currency a) = issuer.ToUpper currency ->
   (captured <= N -> captured <= issuer.hold_balance acct ->
    exists d',
      run = (Ok tt, issuer.NewPGRepository d')
      /\ issuer.accounts d'
         = <[issuer.account_id a := issuer.released captured acct]> (issuer.accounts d)
      /\ issuer.transactions d'
         = (issuer.transactions d
            ++ [{| issuer.tx_id := uuid; issuer.tx_account_id := issuer.account_id a;
                   issuer.tx_card_id := issuer.card_id a; issuer.tx_auth_id := Some authID;
                   issuer.tx_amount := captured;
                   issuer.tx_currency := issuer.ToUpper currency;
                   issuer.tx_status := issuer.CAPTURED; issuer.posted_at := Some now |}])%list
      /\ issuer.auth_by_id d' authID
         = Some (issuer.with_status
                   (if captured <? N then issuer.AUTHORIZED else issuer.CAPTURED) a))
   /\ (captured <= N -> issuer.hold_balance acct < captured ->
       run = (Err issuer.check_violation, issuer.NewPGRepository d))
   /\ (N < captured -> run = (Err ErrInvalidCaptureAmount, issuer.NewPGRepository d)))
  /\ (issuer.status a <> issuer.AUTHORIZED ->
      run = (Err (ErrBadAuthStatus (issuer.status a)), issuer.NewPGRepository d))
  /\ (issuer.status a = issuer.AUTHORIZED ->
      issuer.ToUpper (issuer.currency a) <> issuer.ToUpper currency ->
      run = (Err ErrCurrencyMismatch, issuer.NewPGRepository d)).
Proof.
  intros Hfind Hacc Hschema HN Hcard Htx N captured run. subst run.
  unfold issuer.CaptureAuth, issuer.NewPGRepository, issuer.run_tx. simpl issuer.db.
  cbv beta iota. unfold issuer.CaptureAuth_tx. rewrite Hfind. fold N. fold captured.
  assert (0 < captured) as Hcap.
  { subst captured. destruct (Z.leb_spec requested 0); lia. }
  split; [|split].
  - intros Hst Hcur. rewrite Hst, Hcur, !String.eqb_refl. simpl negb. cbv iota.
    split; [|split].
    + intros HleN Hhold. destruct (Z.gtb_spec captured N); [lia|].
      rewrite (release_hold_ok _ _ d acct Hacc Hschema) by lia.
      rewrite insert_transaction_ok; simpl; try assumption; try lia.
      2: { rewrite lookup_insert_eq. eauto. }
      2: { intros id [= <-]. unfold issuer.auth_by_id in *. simpl. rewrite Hfind. eauto. }
      eexists. split; [reflexivity|]. split; [reflexivity|]. split; [reflexivity|].
      rewrite auth_by_id_set_status. unfold issuer.auth_by_id in *. simpl.
      now rewrite Hfind.
    + intros HleN Hhold. destruct (Z.gtb_spec captured N); [lia|].
      rewrite (release_hold_short _ _ d acct Hacc Hschema) by lia. reflexivity.
    + intros Hgt. destruct (Z.gtb_spec captured N); [|lia]. reflexivity.
  - intros Hst. apply String.eqb_neq in Hst as ->. reflexivity.
  - intros Hst Hcur. rewrite Hst, String.eqb_refl. apply String.eqb_neq in Hcur as ->.
    reflexivity.
Qed.

Lemma C6_CaptureAuth_witness :
  exists d',
    issuer.CaptureAuth sample_repo_authorized "t1" 1000 "u1" 30 "USD"
    = (Ok tt, issuer.NewPGRepository d')
    /\ issuer.accounts d' !! "acc-1"
       = Some {| issuer.acc_currency := "USD"; issuer.available_balance := 0;
                 issuer.hold_balance := 70 |}
    /\ option_map issuer.status (issuer.auth_by_id d' "u1") = Some issuer.AUTHORIZED.
Proof.
  destruct (C6_CaptureAuth_full_and_partial
              (default sample_db (issuer.db sample_repo_authorized)) "t1" 1000 "u1" 30 "USD"
              (issuer.new_auth "u1" "acc-1" "card-1" 100 "usd" "00" "123456" "shop" "5411" (Some 7))
              {| issuer.acc_currency := "USD"; issuer.available_balance := 0;
                 issuer.hold_balance := 100 |})
    as [H _].
  - reflexivity.
  - reflexivity.
  - unfold account_in_schema, max_int64. simpl. lia.
  - unfold max_int64. simpl. lia.
  - vm_compute. reflexivity.
  - reflexivity.
  - destruct (H eq_refl eq_refl) as [Hok _].
    destruct Hok as (d' & Hrun & Hacc & _ & Hauth); [simpl; lia | simpl; lia |].
    exists d'. split; [exact Hrun|]. split.
    + rewrite Hacc. reflexivity.
    + rewrite Hauth. reflexivity.
Defined.

(** C6 as stated fails on a row that is AUTHORIZED after a partial
    capture: the row still shows the full amount 100 in USD while only 70
    are left on hold, and the full capture in USD is refused. *)
Lemma C6_full_capture_after_partial_fails :
  option_map (fun a => (issuer.status a, issuer.amount a, issuer.currency a))
    (issuer.auth_by_id (default sample_db (issuer.db sample_repo_partly_captured)) "u1")
  = Some (issuer.AUTHORIZED, 100, "USD")
  /\ option_map issuer.hold_balance
       (issuer.accounts (default sample_db (issuer.db sample_repo_partly_captured)) !! "acc-1")
     = Some 70
  /\ issuer.CaptureAuth sample_repo_partly_captured "t2" 2000 "u1" 0 "USD"
     = (Err issuer.check_violation, sample_repo_partly_captured).
Proof.
  split; [reflexivity|]. split; reflexivity.
Qed.
(** ** Further properties of the ledger repository *)

Section LedgerFrame.

Import issuer.

(** What one UPDATE of [issuer.accounts] does to the rows, read through a
    relation that holds between a row and itself and between a row and
    the row the UPDATE writes. *)
Lemma update_account_rel (R : option Account -> option Account -> Prop)
    (id : string) (guard : Account -> bool) (set : Account -> Account) (d d' : DB) (n : Z) :
  (forall o, R o o) ->
  (forall a, guard a = true -> R (Some a) (Some (set a))) ->
  update_account id guard set d = Ok (n, d') ->
  forall id', R (accounts d !! id') (accounts d' !! id').
Proof.
  intros Hrefl Hset. unfold update_account.
  destruct (accounts d !! id) as [a|] eqn:Ea; [|now intros [= <- <-]].
  destruct (guard a) eqn:Eg; [|now intros [= <- <-]].
  destruct (check_account (set a)); [|discriminate].
  intros [= <- <-] id'. simpl.
  destruct (decide (id' = id)) as [->|Hne].
  - rewrite lookup_insert_eq, Ea. now apply Hset.
  - rewrite lookup_insert_ne by congruence. apply Hrefl.
Qed.

Lemma update_account_frame (id : string) (guard : Account -> bool) (set : Account -> Account)
    (d d' : DB) (n : Z) (id' : string) :
  update_account id guard set d = Ok (n, d') -> id' <> id ->
  accounts d' !! id' = accounts d !! id'.
Proof.
  unfold update_account.
  destruct (accounts d !! id) as [a|]; [|now intros [= <- <-]].
  destruct (guard a); [|now intros [= <- <-]].
  destruct (check_account (set a)); [|discriminate].
  intros [= <- <-] Hne. simpl. now rewrite lookup_insert_ne by congruence.
Qed.

Lemma update_account_auths (id : string) (guard : Account -> bool) (set : Account -> Account)
    (d d' : DB) (n : Z) :
  update_account id guard set d = Ok (n, d') -> auths d' = auths d.
Proof.
  unfold update_account.
  destruct (accounts d !! id) as [a|]; [|now intros [= <- <-]].
  destruct (guard a); [|now intros [= <- <-]].
  destruct (check_account (set a)); [|discriminate].
  now intros [= <- <-].
Qed.

Lemma not_credited_refl (o : option Account) : not_credited o o.
Proof. destruct o; simpl; [split; [reflexivity | lia] | exact I]. Qed.

Lemma not_credited_trans (o1 o2 o3 : option Account) :
  not_credited o1 o2 -> not_credited o2 o3 -> not_credited o1 o3.
Proof.
  destruct o1, o2, o3; simpl; try tauto.
  intros [E1 H1] [E2 H2]. split; [congruence | lia].
Qed.

Lemma conserved_refl (o : option Account) : conserved o o.
Proof. destruct o; simpl; auto. Qed.

Lemma release_hold_available (id : string) (amt : Z) (d d' : DB) (n : Z) (id' : string) :
  release_hold id amt d = Ok (n, d') ->
  available_balance <$> accounts d' !! id' = available_balance <$> accounts d !! id'.
Proof.
  intros H. unfold release_hold in H.
  eapply (update_account_rel
            (fun o o' => available_balance <$> o' = available_balance <$> o));
    [reflexivity | | exact H].
  reflexivity.
Qed.

Lemma release_hold_not_credited (id : string) (amt : Z) (d d' : DB) (n : Z) (id' : string) :
  release_hold id amt d = Ok (n, d') ->
  not_credited (accounts d !! id') (accounts d' !! id').
Proof.
  intros H. unfold release_hold in H.
  eapply (update_account_rel not_credited); [apply not_credited_refl | | exact H].
  intros a _. simpl. split; [reflexivity | lia].
Qed.

Lemma release_all_available (l : list (string * Z)) (d d' : DB) (id' : string) :
  release_all l d = Ok d' ->
  available_balance <$> accounts d' !! id' = available_balance <$> accounts d !! id'.
Proof.
  revert d. induction l as [|[acc sum] l IH]; intros d; simpl.
  - now intros [= <-].
  - destruct (release_hold acc sum d) as [[n d1]|e] eqn:E; [|discriminate].
    intros H. rewrite (IH _ H). eapply release_hold_available, E.
Qed.

Lemma release_all_not_credited (l : list (string * Z)) (d d' : DB) (id' : string) :
  release_all l d = Ok d' -> not_credited (accounts d !! id') (accounts d' !! id').
Proof.
  revert d. induction l as [|[acc sum] l IH]; intros d; simpl.
  - intros [= <-]. apply not_credited_refl.
  - destruct (release_hold acc sum d) as [[n d1]|e] eqn:E; [|discriminate].
    intros H. eapply not_credited_trans; [eapply release_hold_not_credited, E | eauto].
Qed.

Lemma release_all_auths (l : list (string * Z)) (d d' : DB) :
  release_all l d = Ok d' -> auths d' = auths d.
Proof.
  revert d. induction l as [|[acc sum] l IH]; intros d; simpl.
  - now intros [= <-].
  - destruct (release_hold acc sum d) as [[n d1]|e] eqn:E; [|discriminate].
    intros H. rewrite (IH _ H). eapply update_account_auths, E.
Qed.

(** The amount of a committed authorization is positive, so the hold
    takes funds out of the available balance. *)
Lemma hold_and_insert_not_credited (row : Auth) {ap au : string} (d d' : DB)
    (res : string * string * bool)
    (id : string) :
  (is_Some (stan row) -> 0 < amount row) ->
  hold_and_insert row ap au d = Ok (res, d') ->
  not_credited (accounts d !! id) (accounts d' !! id).
Proof.
  unfold hold_and_insert. intros Hpos.
  destruct (hold_funds _ _ d) as [[n d1]|e] eqn:E; [|discriminate].
  destruct (n =? 0); [discriminate|].
  assert (0 < amount row -> not_credited (accounts d !! id) (accounts d1 !! id)) as Hstep.
  { intros Ha. unfold hold_funds in E.
    eapply (update_account_rel not_credited); [apply not_credited_refl | | exact E].
    intros a _. simpl. split; [reflexivity | lia]. }
  destruct (stan row) as [s|].
  - intros [= <- <-]. apply Hstep, Hpos. eauto.
  - destruct (insert_auth false row d1) as [d2| |e] eqn:Ei; [| |discriminate].
    + intros [= <- <-]. rewrite (insert_auth_accounts _ _ _ _ Ei).
      apply Hstep. now apply insert_auth_inserted in Ei as (_ & Ha & _).
    + exfalso. unfold insert_auth in Ei.
      repeat (match type of Ei with
              | context [if ?c then _ else _] => destruct c
              end; try discriminate).
Qed.

Lemma hold_and_insert_conserved (row : Auth) {ap au : string} (d d' : DB)
    (res : string * string * bool)
    (id : string) :
  hold_and_insert row ap au d = Ok (res, d') ->
  conserved (accounts d !! id) (accounts d' !! id)
  /\ (id <> account_id row -> accounts d' !! id = accounts d !! id).
Proof.
  unfold hold_and_insert.
  destruct (hold_funds _ _ d) as [[n d1]|e] eqn:E; [|discriminate].
  destruct (n =? 0); [discriminate|].
  assert (conserved (accounts d !! id) (accounts d1 !! id)
          /\ (id <> account_id row -> accounts d1 !! id = accounts d !! id)) as Hstep.
  { split.
    - unfold hold_funds in E.
      eapply (update_account_rel conserved); [apply conserved_refl | | exact E].
      intros a _. simpl. split; [reflexivity | lia].
    - intros Hne. eapply update_account_frame; eauto. }
  destruct (stan row) as [s|].
  - now intros [= <- <-].
  - destruct (insert_auth false row d1) as [d2| |e] eqn:Ei; [| |discriminate].
    + intros [= <- <-]. now rewrite (insert_auth_accounts _ _ _ _ Ei).
    + now intros [= <- <-].
Qed.

Lemma CreateAuthAndHold_tx_not_credited (uuid accountID cardID : string) (amount : Z)
    (currency approvalCode authorizationCode merchantName mcc : string) (stan : option Z)
    (d d' : DB) (res : string * string * bool) (id : string) :
  CreateAuthAndHold_tx uuid accountID cardID amount currency approvalCode authorizationCode
    merchantName mcc stan d = Ok (res, d') ->
  not_credited (accounts d !! id) (accounts d' !! id).
Proof.
  unfold CreateAuthAndHold_tx. destruct stan as [s|].
  - destruct (insert_auth true _ d) as [d1| |e] eqn:Ei; [| |discriminate].
    + rewrite <- (insert_auth_accounts _ _ _ _ Ei).
      apply hold_and_insert_not_credited. intros _.
      now apply insert_auth_inserted in Ei as (_ & Ha & _).
    + destruct (auth_by_card_stan d cardID s); [|discriminate].
      destruct (_ || _); [discriminate|]. intros [= <- <-]. apply not_credited_refl.
  - apply hold_and_insert_not_credited. now intros [? [=]].
Qed.

Lemma CreateAuthAndHold_tx_conserved (uuid accountID cardID : string) (amount : Z)
    (currency approvalCode authorizationCode merchantName mcc : string) (stan : option Z)
    (d d' : DB) (res : string * string * bool) (id : string) :
  CreateAuthAndHold_tx uuid accountID cardID amount currency approvalCode authorizationCode
    merchantName mcc stan d = Ok (res, d') ->
  conserved (accounts d !! id) (accounts d' !! id)
  /\ (id <> accountID -> accounts d' !! id = accounts d !! id).
Proof.
  unfold CreateAuthAndHold_tx. destruct stan as [s|].
  - destruct (insert_auth true _ d) as [d1| |e] eqn:Ei; [| |discriminate].
    + rewrite <- (insert_auth_accounts _ _ _ _ Ei). apply hold_and_insert_conserved.
    + destruct (auth_by_card_stan d cardID s); [|discriminate].
      destruct (_ || _); [discriminate|]. intros [= <- <-].
      split; [apply conserved_refl | reflexivity].
  - apply hold_and_insert_conserved.
Qed.

Lemma CaptureAuth_tx_available (uuid : string) (now : Z) (authID : string) (amount : Z)
    (currency : string) (d d' : DB) (id : string) :
  CaptureAuth_tx uuid now authID amount currency d = Ok (tt, d') ->
  available_balance <$> accounts d' !! id = available_balance <$> accounts d !! id.
Proof.
  unfold CaptureAuth_tx.
  destruct (auth_by_id d authID) as [a|]; [|discriminate].
  destruct (negb (status a =? AUTHORIZED)%string); [discriminate|].
  destruct (negb _); [discriminate|].
  destruct (_ >? _); [discriminate|].
  destruct (release_hold _ _ d) as [[n d1]|e] eqn:E; [|discriminate].
  destruct (insert_transaction _ d1) as [d2|e] eqn:Ei; [|discriminate].
  intros [= <-]. simpl. rewrite (insert_transaction_accounts _ _ _ Ei).
  eapply release_hold_available, E.
Qed.

Lemma ReleaseExpiredHolds_tx_available (now batch : Z) (d d' : DB) (n : Z) (id : string) :
  ReleaseExpiredHolds_tx now batch d = Ok (n, d') ->
  available_balance <$> accounts d' !! id = available_balance <$> accounts d !! id.
Proof.
  unfold ReleaseExpiredHolds_tx.
  destruct (batch <? 0); [discriminate|].
  destruct (_ =? 0); [now intros [= <- <-]|].
  destruct (release_all _ d) as [d1|e] eqn:E; [|discriminate].
  intros [= <- <-]. rewrite mark_reversed_accounts. eapply release_all_available, E.
Qed.

Lemma ReverseAuth_tx_available (authID : string) (d d' : DB) (id : string) :
  ReverseAuth_tx authID d = Ok (tt, d') ->
  available_balance <$> accounts d' !! id = available_balance <$> accounts d !! id.
Proof.
  unfold ReverseAuth_tx.
  destruct (auth_by_id d authID) as [a|]; [|discriminate].
  destruct (negb _); [discriminate|].
  destruct (release_hold _ _ d) as [[n d1]|e] eqn:E; [|discriminate].
  intros [= <-]. simpl. eapply release_hold_available, E.
Qed.

(** A transaction on a database-backed repository leaves a
    database-backed repository: the committed database, or the one it
    started from. *)
Lemma run_tx_db {A} (body : DB -> result (A * DB)) (r : Repository) (d : DB) :
  db r = Some d ->
  exists d', db (snd (run_tx body r d)) = Some d'
             /\ (d' = d \/ exists a, body d = Ok (a, d')).
Proof.
  intros Hr. unfold run_tx. destruct (body d) as [[a d']|e] eqn:E; simpl; eauto.
Qed.

(** Every call runs as one transaction on the database of the
    repository. *)
Lemma after_db (c : call) (d : DB) :
  exists d', after c (NewPGRepository d) = NewPGRepository d'
    /\ (d' = d
        \/ match c with
           | CallCreateAuthAndHold uuid accountID cardID amount currency approvalCode
               authorizationCode merchantName mcc stan =>
               exists res, CreateAuthAndHold_tx uuid accountID cardID amount currency
                             approvalCode authorizationCode merchantName mcc stan d
                           = Ok (res, d')
           | CallCaptureAuth uuid now authID amount currency =>
               CaptureAuth_tx uuid now authID amount currency d = Ok (tt, d')
           | CallReleaseExpiredHolds now batch =>
               exists n, ReleaseExpiredHolds_tx now batch d = Ok (n, d')
           | CallReverseAuth authID => ReverseAuth_tx authID d = Ok (tt, d')
           end).
Proof.
  destruct c; simpl; unfold CreateAuthAndHold, CaptureAuth, ReleaseExpiredHolds, ReverseAuth,
    NewPGRepository, run_tx; simpl db; cbv beta iota.
  - destruct (CreateAuthAndHold_tx _ _ _ _ _ _ _ _ _ _ d) as [[res d']|e]; simpl; eauto.
  - destruct (CaptureAuth_tx _ _ _ _ _ d) as [[[] d']|e]; simpl; eauto.
  - destruct (ReleaseExpiredHolds_tx _ _ d) as [[n d']|e]; simpl; eauto.
  - destruct (ReverseAuth_tx _ d) as [[[] d']|e]; simpl; eauto.
Qed.

Lemma after_not_credited (c : call) (d d' : DB) (id : string) :
  after c (NewPGRepository d) = NewPGRepository d' ->
  not_credited (accounts d !! id) (accounts d' !! id)
  /\ (is_create c = false ->
      available_balance <$> accounts d' !! id = available_balance <$> accounts d !! id).
Proof.
  intros H. destruct (after_db c d) as (d1 & E & Hd). rewrite E in H.
  injection H as ->.
  destruct Hd as [->|Hd]; [split; [apply not_credited_refl | reflexivity]|].
  assert (forall o o' : option Account,
            available_balance <$> o' = available_balance <$> o ->
            (acc_currency <$> o' = acc_currency <$> o) -> not_credited o o') as Hk.
  { intros [a|] [a'|]; simpl; try discriminate; auto.
    intros [= E1] [= E2]. split; [exact E2 | lia]. }
  destruct c; simpl.
  - destruct Hd as (res & Hd). split; [|discriminate].
    eapply CreateAuthAndHold_tx_not_credited, Hd.
  - pose proof (CaptureAuth_tx_available _ _ _ _ _ _ _ id Hd) as Ha.
    split; [|intros _; exact Ha].
    unfold CaptureAuth_tx in Hd.
    destruct (auth_by_id d authID) as [a|]; [|discriminate].
    destruct (negb (status a =? AUTHORIZED)%string); [discriminate|].
    destruct (negb _); [discriminate|].
    destruct (_ >? _); [discriminate|].
    destruct (release_hold _ _ d) as [[n d2]|e] eqn:E2; [|discriminate].
    destruct (insert_transaction _ d2) as [d3|e] eqn:Ei; [|discriminate].
    injection Hd as <-. simpl. rewrite (insert_transaction_accounts _ _ _ Ei).
    eapply release_hold_not_credited, E2.
  - destruct Hd as (n & Hd).
    pose proof (ReleaseExpiredHolds_tx_available _ _ _ _ _ id Hd) as Ha.
    split; [|intros _; exact Ha].
    unfold ReleaseExpiredHolds_tx in Hd.
    destruct (batch <? 0); [discriminate|].
    destruct (_ =? 0); [injection Hd as <- <-; apply not_credited_refl|].
    destruct (release_all _ d) as [d2|e] eqn:E2; [|discriminate].
    injection Hd as <- <-. rewrite mark_reversed_accounts.
    eapply release_all_not_credited, E2.
  - pose proof (ReverseAuth_tx_available _ _ _ id Hd) as Ha.
    split; [|intros _; exact Ha].
    unfold ReverseAuth_tx in Hd.
    destruct (auth_by_id d authID) as [a|]; [|discriminate].
    destruct (negb _); [discriminate|].
    destruct (release_hold _ _ d) as [[n d2]|e] eqn:E2; [|discriminate].
    injection Hd as <-. simpl. eapply release_hold_not_credited, E2.
Qed.

End LedgerFrame.

(** X1.  No ledger operation ever credits an account.  After any sequence
    of CreateAuthAndHold, CaptureAuth, ReleaseExpiredHolds and
    ReverseAuth calls on a database-backed repository, failed calls
    included, the repository is still database-backed, it holds the same
    accounts in the same currencies, and no available balance is above
    what it was; when the sequence contains no CreateAuthAndHold, every
    available balance is exactly what it was. *)
Theorem ledger_never_credits (cs : list call) (d : issuer.DB) :
  exists d', after_all cs (issuer.NewPGRepository d) = issuer.NewPGRepository d'
    /\ (forall id, not_credited (issuer.accounts d !! id) (issuer.accounts d' !! id))
    /\ (forallb (fun c => negb (is_create c)) cs = true ->
        forall id, issuer.available_balance <$> issuer.accounts d' !! id
                   = issuer.available_balance <$> issuer.accounts d !! id).
Proof.
  revert d. unfold after_all. induction cs as [|c cs IH]; intros d; simpl.
  - exists d. split; [reflexivity|]. split; [intros id; apply not_credited_refl | reflexivity].
  - destruct (after_db c d) as (d1 & E & _). rewrite E.
    destruct (IH d1) as (d' & E' & Hnc & Hav). exists d'. split; [exact E'|]. split.
    + intros id. eapply not_credited_trans; [|apply Hnc].
      now apply (after_not_credited c d d1 id).
    + intros Hno id. apply andb_true_iff in Hno as [Hc Hcs].
      rewrite (Hav Hcs id). apply (after_not_credited c d d1 id E).
      now destruct (is_create c).
Qed.

(** X2.  CreateAuthAndHold moves funds between the two balances of one
    account and does nothing else to the accounts: whatever the outcome of
    the call (a fresh authorization, a replay, a failure), every account
    keeps its currency and the sum of its available and hold balance, and
    every account other than the one named in the call keeps its row. *)
Theorem CreateAuthAndHold_conserves_funds (d : issuer.DB) (uuid accountID cardID : string)
    (amount : Z) (currency approvalCode authorizationCode merchantName mcc : string)
    (stan : option Z) :
  exists d',
    snd (issuer.CreateAuthAndHold (issuer.NewPGRepository d) uuid accountID cardID amount
           currency approvalCode authorizationCode merchantName mcc stan)
    = issuer.NewPGRepository d'
    /\ (forall id, conserved (issuer.accounts d !! id) (issuer.accounts d' !! id))
    /\ (forall id, id <> accountID -> issuer.accounts d' !! id = issuer.accounts d !! id).
Proof.
  destruct (after_db (CallCreateAuthAndHold uuid accountID cardID amount currency approvalCode
                        authorizationCode merchantName mcc stan) d) as (d' & E & Hd).
  exists d'. split; [exact E|].
  destruct Hd as [->|(res & Hd)].
  - split; [intros id; apply conserved_refl | reflexivity].
  - split; intros id; now apply (CreateAuthAndHold_tx_conserved _ _ _ _ _ _ _ _ _ _ _ _ _ id Hd).
Qed.

Section LedgerRows.

Import issuer.

Lemma insert_transaction_auths (row : Transaction) (d d' : DB) :
  insert_transaction row d = Ok d' -> auths d' = auths d.
Proof.
  unfold insert_transaction.
  repeat (match goal with
          | |- context [if ?c then _ else _] => destruct c
          end; try discriminate).
  now intros [= <-].
Qed.

Lemma set_auth_status_ids (id s : string) (d : DB) :
  map auth_id (auths (set_auth_status id s d)) = map auth_id (auths d).
Proof.
  unfold set_auth_status. simpl. rewrite map_map. apply map_ext.
  intros a. now destruct (String.eqb (auth_id a) id).
Qed.

Lemma mark_reversed_ids (l : list Auth) (d : DB) :
  map auth_id (auths (mark_reversed l d)) = map auth_id (auths d).
Proof.
  unfold mark_reversed. revert d. induction l as [|it l IH]; intros d; simpl; [reflexivity|].
  now rewrite IH, set_auth_status_ids.
Qed.

(** An UPDATE of the status by [auth_id] leaves every row with another
    id as it is. *)
Lemma set_auth_status_keeps (a : Auth) (id s : string) (d : DB) :
  In a (auths d) -> auth_id a <> id -> In a (auths (set_auth_status id s d)).
Proof.
  intros Hin Hne. unfold set_auth_status. simpl. apply in_map_iff. exists a.
  split; [|exact Hin]. destruct (String.eqb_spec (auth_id a) id); [contradiction | reflexivity].
Qed.

Lemma mark_reversed_keeps (a : Auth) (l : list Auth) (d : DB) :
  (forall it, In it l -> auth_id it <> auth_id a) ->
  In a (auths d) -> In a (auths (mark_reversed l d)).
Proof.
  unfold mark_reversed. revert d. induction l as [|it l IH]; intros d Hl Hin; simpl; [exact Hin|].
  apply IH; [intros it' Hit'; apply Hl; now right|].
  apply set_auth_status_keeps; [exact Hin|]. intros E. apply (Hl it); [now left | now symmetry].
Qed.

Lemma auth_by_id_In (d : DB) (id : string) (a : Auth) :
  auth_by_id d id = Some a -> In a (auths d) /\ auth_id a = id.
Proof.
  unfold auth_by_id. intros H. apply find_some in H as [Hin He].
  split; [exact Hin | now apply String.eqb_eq].
Qed.

Lemma auth_by_id_fresh (d : DB) (id : string) :
  auth_by_id d id = None -> ~ In id (map auth_id (auths d)).
Proof.
  unfold auth_by_id. intros H Hin. apply in_map_iff in Hin as (a & <- & Ha).
  pose proof (find_none _ _ H a Ha) as Hf. simpl in Hf. now rewrite String.eqb_refl in Hf.
Qed.

(** Under the primary key, two rows with the same id are one row. *)
Lemma unique_id_row (l : list Auth) (a b : Auth) :
  NoDup (map auth_id l) -> In a l -> In b l -> auth_id a = auth_id b -> a = b.
Proof.
  induction l as [|x l IH]; simpl; [tauto|].
  intros Hnd. apply NoDup_cons in Hnd as [Hx Hnd].
  intros [->|Ha] [->|Hb] E; auto.
  - exfalso. apply Hx, list_elem_of_In. rewrite E. now apply in_map.
  - exfalso. apply Hx, list_elem_of_In. rewrite <- E. now apply in_map.
Qed.

Lemma insert_auth_unique (b : bool) (row : Auth) (d d' : DB) :
  insert_auth b row d = Inserted d' -> auth_ids_unique d ->
  auth_ids_unique d' /\ auths d' = (auths d ++ [row])%list.
Proof.
  unfold insert_auth, auth_ids_unique.
  destruct (negb (0 <? amount row)); [discriminate|].
  destruct (match stan row with Some _ => _ | None => _ end); [now destruct b|].
  case_bool_decide as Hid; [discriminate|].
  destruct (negb _); [discriminate|].
  intros [= <-] Hnd. simpl. split; [|reflexivity].
  rewrite map_app. simpl. apply NoDup_app. split; [exact Hnd|]. split.
  - intros x Hx ->%list_elem_of_singleton.
    apply list_elem_of_In in Hx. revert Hx. apply auth_by_id_fresh.
    destruct (auth_by_id d (auth_id row)) eqn:E; [|reflexivity].
    exfalso. apply Hid. eauto.
  - apply NoDup_singleton.
Qed.

Lemma order_by_expiry_In (l : list Auth) (a : Auth) : In a (order_by_expiry l) -> In a l.
Proof.
  unfold order_by_expiry.
  assert (forall x l', In a (insert_by_expiry x l') -> a = x \/ In a l') as Hins.
  { intros x l'. induction l' as [|y l' IH]; simpl.
    - intros [->|[]]. now left.
    - destruct (expires y <? expires x); simpl.
      + intros [->|H]; [right; now left|]. destruct (IH H); auto.
      + intros [->|[->|H]]; auto. }
  induction l as [|x l IH]; simpl; [tauto|].
  intros H. destruct (Hins _ _ H) as [->|H']; auto.
Qed.

(** The rows the sweep selects are rows of the table in status
    AUTHORIZED that carry an expiry. *)
Lemma select_expired_In (now batch : Z) (d : DB) (a : Auth) :
  In a (select_expired now batch d) ->
  In a (auths d) /\ status a = AUTHORIZED /\ is_Some (hold_expires_at a).
Proof.
  unfold select_expired. intros H. apply list_elem_of_In, subseteq_take in H.
  apply list_elem_of_In, order_by_expiry_In in H.
  apply list_elem_of_In, list_elem_of_filter in H as [He Hin].
  split; [now apply list_elem_of_In|].
  unfold is_expired_hold in He. apply andb_true_iff in He as [Hs He].
  split; [now apply String.eqb_eq|]. destruct (hold_expires_at a); [eauto | discriminate].
Qed.

Lemma rows_settled_status (id s : string) (d0 d : DB) (a0 : Auth) :
  auth_ids_unique d0 -> auths d = auths d0 ->
  auth_by_id d0 id = Some a0 -> status a0 = AUTHORIZED ->
  rows_settled d0 (set_auth_status id s d).
Proof.
  intros Hnd Ha Hid Hst. split.
  - unfold auth_ids_unique. now rewrite set_auth_status_ids, Ha.
  - intros a Hin Hs. apply set_auth_status_keeps; [now rewrite Ha|].
    intros E. apply auth_by_id_In in Hid as [Hin0 Hid0].
    assert (a = a0) as -> by (apply (unique_id_row (auths d0)); auto; congruence).
    contradiction.
Qed.

Lemma hold_and_insert_settled (row : Auth) {ap au : string} (d0 d d' : DB)
    (res : string * string * bool) :
  auth_ids_unique d -> (forall a, In a (auths d0) -> In a (auths d)) ->
  hold_and_insert row ap au d = Ok (res, d') ->
  auth_ids_unique d' /\ forall a, In a (auths d0) -> In a (auths d').
Proof.
  unfold hold_and_insert. intros Hnd Hsub.
  destruct (hold_funds _ _ d) as [[n d1]|e] eqn:E; [|discriminate].
  apply update_account_auths in E.
  destruct (n =? 0); [discriminate|].
  assert (auth_ids_unique d1) as Hnd1 by (unfold auth_ids_unique; now rewrite E).
  destruct (stan row) as [s|].
  - intros [= <- <-]. split; [exact Hnd1|]. intros a Ha. rewrite E. auto.
  - destruct (insert_auth false row d1) as [d2| |e] eqn:Ei; [| |discriminate].
    + intros [= <- <-]. destruct (insert_auth_unique _ _ _ _ Ei Hnd1) as [Hnd2 E2].
      split; [exact Hnd2|]. intros a Ha. rewrite E2, E. apply in_or_app. auto.
    + intros [= <- <-]. split; [exact Hnd1|]. intros a Ha. rewrite E. auto.
Qed.

Lemma CreateAuthAndHold_tx_settled (uuid accountID cardID : string) (amount : Z)
    (currency approvalCode authorizationCode merchantName mcc : string) (stan : option Z)
    (d d' : DB) (res : string * string * bool) :
  auth_ids_unique d ->
  CreateAuthAndHold_tx uuid accountID cardID amount currency approvalCode authorizationCode
    merchantName mcc stan d = Ok (res, d') ->
  rows_settled d d'.
Proof.
  unfold CreateAuthAndHold_tx, rows_settled. intros Hnd. destruct stan as [s|].
  - destruct (insert_auth true _ d) as [d1| |e] eqn:Ei; [| |discriminate].
    + destruct (insert_auth_unique _ _ _ _ Ei Hnd) as [Hnd1 E1]. intros H.
      destruct (hold_and_insert_settled _ d _ _ _ Hnd1 ltac:(intros a Ha; rewrite E1;
        apply in_or_app; auto) H) as [H1 H2]. split; auto.
    + destruct (auth_by_card_stan d cardID s); [|discriminate].
      destruct (_ || _); [discriminate|]. intros [= <- <-]. auto.
  - intros H. destruct (hold_and_insert_settled _ d _ _ _ Hnd ltac:(auto) H) as [H1 H2].
    split; auto.
Qed.

Lemma CaptureAuth_tx_settled (uuid : string) (now : Z) (authID : string) (amount : Z)
    (currency : string) (d d' : DB) :
  auth_ids_unique d -> CaptureAuth_tx uuid now authID amount currency d = Ok (tt, d') ->
  rows_settled d d'.
Proof.
  unfold CaptureAuth_tx. intros Hnd.
  destruct (auth_by_id d authID) as [a|] eqn:Ea; [|discriminate].
  destruct (String.eqb_spec (status a) AUTHORIZED) as [Hs|]; [|discriminate]. simpl.
  destruct (negb _); [discriminate|].
  destruct (_ >? _); [discriminate|].
  destruct (release_hold _ _ d) as [[n d1]|e] eqn:E; [|discriminate].
  destruct (insert_transaction _ d1) as [d2|e] eqn:Ei; [|discriminate].
  intros [= <-]. apply (rows_settled_status _ _ d d2 a); auto.
  rewrite (insert_transaction_auths _ _ _ Ei). eapply update_account_auths, E.
Qed.

Lemma ReverseAuth_tx_settled (authID : string) (d d' : DB) :
  auth_ids_unique d -> ReverseAuth_tx authID d = Ok (tt, d') -> rows_settled d d'.
Proof.
  unfold ReverseAuth_tx. intros Hnd.
  destruct (auth_by_id d authID) as [a|] eqn:Ea; [|discriminate].
  destruct (String.eqb_spec (status a) AUTHORIZED) as [Hs|]; [|discriminate]. simpl.
  destruct (release_hold _ _ d) as [[n d1]|e] eqn:E; [|discriminate].
  intros [= <-]. apply (rows_settled_status _ _ d d1 a); auto.
  eapply update_account_auths, E.
Qed.

Lemma ReleaseExpiredHolds_tx_settled (now batch : Z) (d d' : DB) (n : Z) :
  auth_ids_unique d -> ReleaseExpiredHolds_tx now batch d = Ok (n, d') -> rows_settled d d'.
Proof.
  unfold ReleaseExpiredHolds_tx, rows_settled. intros Hnd.
  destruct (batch <? 0); [discriminate|].
  destruct (_ =? 0); [intros [= <- <-]; auto|].
  destruct (release_all _ d) as [d1|e] eqn:E; [|discriminate].
  apply release_all_auths in E. intros [= <- <-]. split.
  - unfold auth_ids_unique. now rewrite mark_reversed_ids, E.
  - intros a Hin Hs. apply mark_reversed_keeps; [|now rewrite E].
    intros it Hit%select_expired_In E'. destruct Hit as (Hit & Hst & _).
    assert (it = a) as -> by (apply (unique_id_row (auths d)); auto).
    contradiction.
Qed.

Lemma after_settled (c : call) (d d' : DB) :
  auth_ids_unique d -> after c (NewPGRepository d) = NewPGRepository d' -> rows_settled d d'.
Proof.
  intros Hnd H. destruct (after_db c d) as (d1 & E & Hd). rewrite E in H.
  injection H as ->. destruct Hd as [->|Hd]; [split; auto|].
  destruct c.
  - destruct Hd as (res & Hd). eapply CreateAuthAndHold_tx_settled; eauto.
  - eapply CaptureAuth_tx_settled; eauto.
  - destruct Hd as (n & Hd). eapply ReleaseExpiredHolds_tx_settled; eauto.
  - eapply ReverseAuth_tx_settled; eauto.
Qed.

(** Rows without an expiry: none is ever selected by the sweep, and no
    operation writes one. *)
Lemma select_expired_none (now batch : Z) (d : DB) :
  no_hold_expiry d -> select_expired now batch d = [].
Proof.
  intros Hno. destruct (select_expired now batch d) as [|a l] eqn:E; [reflexivity|].
  exfalso. destruct (select_expired_In now batch d a) as (Hin & _ & Hex).
  { rewrite E. now left. }
  unfold no_hold_expiry in Hno. rewrite Forall_forall in Hno.
  apply list_elem_of_In in Hin.
  rewrite (Hno a Hin) in Hex. now destruct Hex.
Qed.

Lemma set_auth_status_no_expiry (id s : string) (d : DB) :
  no_hold_expiry d -> no_hold_expiry (set_auth_status id s d).
Proof.
  unfold no_hold_expiry, set_auth_status. simpl. intros H.
  apply Forall_fmap. eapply Forall_impl; [exact H|].
  intros a Ha. simpl. now destruct (String.eqb (auth_id a) id).
Qed.

Lemma hold_and_insert_no_expiry (row : Auth) {ap au : string} (d d' : DB)
    (res : string * string * bool) :
  hold_expires_at row = None -> no_hold_expiry d ->
  hold_and_insert row ap au d = Ok (res, d') -> no_hold_expiry d'.
Proof.
  unfold hold_and_insert, no_hold_expiry. intros Hrow Hno.
  destruct (hold_funds _ _ d) as [[n d1]|e] eqn:E; [|discriminate].
  apply update_account_auths in E.
  destruct (n =? 0); [discriminate|].
  destruct (stan row) as [s|].
  - intros [= <- <-]. now rewrite E.
  - destruct (insert_auth false row d1) as [d2| |e] eqn:Ei; [| |discriminate].
    + intros [= <- <-]. apply insert_auth_inserted in Ei as (-> & _). simpl.
      rewrite E. apply Forall_app. split; [exact Hno|]. now constructor.
    + intros [= <- <-]. now rewrite E.
Qed.

Lemma CreateAuthAndHold_tx_no_expiry (uuid accountID cardID : string) (amount : Z)
    (currency approvalCode authorizationCode merchantName mcc : string) (stan : option Z)
    (d d' : DB) (res : string * string * bool) :
  no_hold_expiry d ->
  CreateAuthAndHold_tx uuid accountID cardID amount currency approvalCode authorizationCode
    merchantName mcc stan d = Ok (res, d') ->
  no_hold_expiry d'.
Proof.
  unfold CreateAuthAndHold_tx. intros Hno. destruct stan as [s|].
  - destruct (insert_auth true _ d) as [d2| |e] eqn:Ei; [| |discriminate].
    + apply insert_auth_inserted in Ei as (-> & _).
      apply hold_and_insert_no_expiry; [reflexivity|].
      unfold no_hold_expiry. simpl. apply Forall_app. split; [exact Hno|]. now constructor.
    + destruct (auth_by_card_stan d cardID s); [|discriminate].
      destruct (_ || _); [discriminate|]. now intros [= <- <-].
  - apply hold_and_insert_no_expiry; [reflexivity | exact Hno].
Qed.

Lemma CaptureAuth_tx_no_expiry (uuid : string) (now : Z) (authID : string) (amount : Z)
    (currency : string) (d d' : DB) :
  no_hold_expiry d -> CaptureAuth_tx uuid now authID amount currency d = Ok (tt, d') ->
  no_hold_expiry d'.
Proof.
  unfold CaptureAuth_tx. intros Hno.
  destruct (auth_by_id d authID) as [a|]; [|discriminate].
  destruct (negb (status a =? AUTHORIZED)%string); [discriminate|].
  destruct (negb _); [discriminate|].
  destruct (_ >? _); [discriminate|].
  destruct (release_hold _ _ d) as [[n d2]|e] eqn:E2; [|discriminate].
  destruct (insert_transaction _ d2) as [d3|e] eqn:Ei; [|discriminate].
  intros [= <-]. apply set_auth_status_no_expiry. unfold no_hold_expiry.
  rewrite (insert_transaction_auths _ _ _ Ei), (update_account_auths _ _ _ _ _ _ E2).
  exact Hno.
Qed.

Lemma ReverseAuth_tx_no_expiry (authID : string) (d d' : DB) :
  no_hold_expiry d -> ReverseAuth_tx authID d = Ok (tt, d') -> no_hold_expiry d'.
Proof.
  unfold ReverseAuth_tx. intros Hno.
  destruct (auth_by_id d authID) as [a|]; [|discriminate].
  destruct (negb _); [discriminate|].
  destruct (release_hold _ _ d) as [[n d2]|e] eqn:E2; [|discriminate].
  intros [= <-]. apply set_auth_status_no_expiry. unfold no_hold_expiry.
  now rewrite (update_account_auths _ _ _ _ _ _ E2).
Qed.

Lemma ReleaseExpiredHolds_tx_no_expiry (now batch : Z) (d d' : DB) (n : Z) :
  no_hold_expiry d -> ReleaseExpiredHolds_tx now batch d = Ok (n, d') ->
  n = 0 /\ d' = d.
Proof.
  unfold ReleaseExpiredHolds_tx. intros Hno.
  destruct (batch <? 0); [discriminate|].
  rewrite (select_expired_none _ _ _ Hno). simpl. now intros [= <- <-].
Qed.

Lemma after_no_expiry (c : call) (d d' : DB) :
  no_hold_expiry d -> after c (NewPGRepository d) = NewPGRepository d' -> no_hold_expiry d'.
Proof.
  intros Hno H. destruct (after_db c d) as (d1 & E & Hd). rewrite E in H.
  injection H as ->. destruct Hd as [->|Hd]; [exact Hno|].
  destruct c.
  - destruct Hd as (res & Hd). eapply CreateAuthAndHold_tx_no_expiry; eauto.
  - eapply CaptureAuth_tx_no_expiry; eauto.
  - destruct Hd as (n & Hd).
    now destruct (ReleaseExpiredHolds_tx_no_expiry _ _ _ _ _ Hno Hd) as [_ ->].
  - eapply ReverseAuth_tx_no_expiry; eauto.
Qed.

End LedgerRows.

(** X3.  CAPTURED and REVERSED are final.  On a database-backed
    repository whose authorization rows have distinct ids (the primary
    key of issuer.auths), after any sequence of CreateAuthAndHold,
    CaptureAuth, ReleaseExpiredHolds and ReverseAuth calls the ids are
    still distinct and every row that was not in status AUTHORIZED is
    still in the table exactly as it was: same status, amount, codes and
    account. *)
Theorem settled_authorizations_are_final (cs : list call) (d : issuer.DB) :
  auth_ids_unique d ->
  exists d', after_all cs (issuer.NewPGRepository d) = issuer.NewPGRepository d'
    /\ auth_ids_unique d'
    /\ forall a, In a (issuer.auths d) -> issuer.status a <> issuer.AUTHORIZED ->
                 In a (issuer.auths d').
Proof.
  revert d. unfold after_all. induction cs as [|c cs IH]; intros d Hnd; simpl.
  - exists d. auto.
  - destruct (after_db c d) as (d1 & E & _). rewrite E.
    destruct (after_settled c d d1 Hnd E) as [Hnd1 Hkeep].
    destruct (IH d1 Hnd1) as (d' & E' & Hnd' & Hkeep'). exists d'.
    split; [exact E'|]. split; [exact Hnd'|]. intros a Ha Hs. auto.
Qed.

Lemma settled_authorizations_witness :
  exists d',
    after_all [CallReverseAuth "u1"; CallCaptureAuth "t2" 2000 "u1" 0 "USD";
               CallReleaseExpiredHolds 3000 10]
      (issuer.NewPGRepository sample_db_captured) = issuer.NewPGRepository d'
    /\ In sample_captured_row (issuer.auths d').
Proof.
  destruct (settled_authorizations_are_final
              [CallReverseAuth "u1"; CallCaptureAuth "t2" 2000 "u1" 0 "USD";
               CallReleaseExpiredHolds 3000 10] sample_db_captured)
    as (d' & E & _ & H).
  - unfold auth_ids_unique. simpl. apply NoDup_singleton.
  - exists d'. split; [exact E|]. apply H; [simpl; now left | discriminate].
Defined.

(** X4.  A hold made by this repository never expires.  CreateAuthAndHold
    inserts its row without a hold_expires_at and no operation sets one,
    so on a database whose authorization rows carry no expiry (an empty
    table, for one) this stays so after any sequence of calls, and every
    ReleaseExpiredHolds sweep, at whatever time and with whatever batch
    size that is not negative, releases nothing: it returns 0 and leaves
    the repository as it found it. *)
Theorem holds_never_expire (cs : list call) (d : issuer.DB) (now batch : Z) :
  no_hold_expiry d -> 0 <= batch ->
  exists d', after_all cs (issuer.NewPGRepository d) = issuer.NewPGRepository d'
    /\ no_hold_expiry d'
    /\ issuer.ReleaseExpiredHolds (issuer.NewPGRepository d') now batch
       = (Ok 0, issuer.NewPGRepository d').
Proof.
  intros Hno Hb. revert d Hno. unfold after_all.
  induction cs as [|c cs IH]; intros d Hno; simpl.
  - exists d. split; [reflexivity|]. split; [exact Hno|].
    unfold issuer.ReleaseExpiredHolds, issuer.NewPGRepository, issuer.run_tx. simpl issuer.db.
    cbv beta iota. unfold issuer.ReleaseExpiredHolds_tx.
    destruct (Z.ltb_spec batch 0); [lia|].
    now rewrite (select_expired_none _ _ _ Hno).
  - destruct (after_db c d) as (d1 & E & _). rewrite E.
    apply IH. eapply after_no_expiry; eauto.
Qed.

Lemma holds_never_expire_witness :
  exists d',
    after_all [CallCreateAuthAndHold "u1" "acc-1" "card-1" 60 "USD" "00" "111111" "shop" "5411"
                 (Some 7)]
      sample_repo = issuer.NewPGRepository d'
    /\ issuer.ReleaseExpiredHolds (issuer.NewPGRepository d') 4102444800 100
       = (Ok 0, issuer.NewPGRepository d').
Proof.
  destruct (holds_never_expire
              [CallCreateAuthAndHold "u1" "acc-1" "card-1" 60 "USD" "00" "111111" "shop" "5411"
                 (Some 7)] sample_db 4102444800 100)
    as (d' & E & _ & H).
  - unfold no_hold_expiry. simpl. constructor.
  - lia.
  - exists d'. split; [exact E | exact H].
Defined.

(** X5.  FindAuthByCardStan finds what CreateAuthAndHold stored.  For
    arguments that fit their columns: after a successful
    CreateAuthAndHold with a STAN, fresh or replayed, the lookup by the
    same card and STAN returns a row with the amount of the call.  After
    a fresh authorization it is the new row: the generated id, the
    upper-cased currency as its [char(3)] column holds it, padded with
    blanks to three characters, and the status AUTHORIZED.  After a
    replay it is a row whose currency equals the call's up to case. *)
Theorem FindAuthByCardStan_after_create (d : issuer.DB) (uuid accountID cardID : string)
    (amount : Z) (currency approvalCode authorizationCode merchantName mcc : string) (s : Z)
    (appr auth : string) (dup : bool) (r' : issuer.Repository) :
  fits_auths currency approvalCode authorizationCode mcc s = true ->
  issuer.CreateAuthAndHold (issuer.NewPGRepository d) uuid accountID cardID amount currency
    approvalCode authorizationCode merchantName mcc (Some s) = (Ok (appr, auth, dup), r') ->
  exists id cur st,
    repository.FindAuthByCardStan r' cardID s = Ok (id, amount, cur, st)
    /\ (dup = true -> issuer.ToUpper cur = issuer.ToUpper currency)
    /\ (dup = false ->
        id = uuid /\ cur = issuer.bpchar 3 (issuer.ToUpper currency) /\ len cur = 3
        /\ st = issuer.AUTHORIZED).
Proof.
  intros Hfit.
  unfold issuer.CreateAuthAndHold, issuer.NewPGRepository, issuer.run_tx. simpl issuer.db.
  cbv beta iota.
  destruct (issuer.CreateAuthAndHold_tx uuid accountID cardID amount currency approvalCode
              authorizationCode merchantName mcc (Some s) d) as [[res d1]|e] eqn:E;
    [|discriminate].
  intros [= -> <-]. unfold repository.FindAuthByCardStan. simpl issuer.db.
  unfold issuer.CreateAuthAndHold_tx in E.
  set (row := issuer.new_auth uuid accountID cardID amount currency approvalCode
                authorizationCode merchantName mcc (Some s)) in *.
  destruct (issuer.insert_auth true row d) as [d0| |e] eqn:Ei; [| |discriminate].
  - apply insert_auth_inserted in Ei as (-> & Hpos & Hnone).
    specialize (Hnone s eq_refl). simpl in Hnone.
    unfold issuer.hold_and_insert in E.
    destruct (issuer.hold_funds _ _ _) as [[n d2]|e] eqn:Eh; [|discriminate].
    destruct (n =? 0); [discriminate|]. simpl issuer.stan in E.
    injection E as <- <- <- <-. apply update_account_auths in Eh. simpl in Eh.
    unfold issuer.auth_by_card_stan in *. rewrite Eh, find_snoc, Hnone.
    unfold issuer.same_card_stan. simpl. rewrite String.eqb_refl, Z.eqb_refl. simpl.
    eexists _, _, _. split; [reflexivity|]. split; [discriminate|]. intros _.
    repeat split.
    unfold fits_auths, fits_char in Hfit. rewrite !andb_true_iff in Hfit.
    destruct Hfit as ((((((_ & Hl%Z.leb_le) & _) & _) & _) & _) & _).
    rewrite len_bpchar, len_ToUpper. lia.
  - destruct (issuer.auth_by_card_stan d cardID s) as [existed|] eqn:Ee; [|discriminate].
    destruct (Z.eqb_spec (issuer.amount existed) amount) as [Ea|]; [|discriminate].
    destruct (String.eqb_spec (issuer.ToUpper (issuer.currency existed))
                (issuer.ToUpper currency)) as [Ec|]; [|discriminate].
    simpl in E. injection E as <- <- <- <-. rewrite Ee, Ea.
    eexists _, _, _. split; [reflexivity|]. split; [intros _; exact Ec | discriminate].
Qed.

Lemma FindAuthByCardStan_witness :
  repository.FindAuthByCardStan
    (snd (issuer.CreateAuthAndHold sample_repo "u1" "acc-1" "card-1" 40 "us" "00" "123456"
            "shop" "5411" (Some 7))) "card-1" 7
  = Ok ("u1", 40, "US ", "AUTHORIZED").
Proof.
  destruct (FindAuthByCardStan_after_create sample_db "u1" "acc-1" "card-1" 40 "us" "00"
              "123456" "shop" "5411" 7 "00" "123456" false
              (snd (issuer.CreateAuthAndHold sample_repo "u1" "acc-1" "card-1" 40 "us" "00"
                      "123456" "shop" "5411" (Some 7)))
              eq_refl eq_refl)
    as (id & cur & st & E & _ & H).
  destruct (H eq_refl) as (-> & -> & _ & ->). exact E.
Defined.

(** ** Further properties of the PAN generator and validator *)

Section LuhnTotal.

Import cardgen.
Local Abbreviation bytes := list_ascii_of_string.

Lemma luhn_total_snoc (body : string) (c : ascii) :
  luhn_total (body ++ String c "")
  = luhn_digit false c + luhn_loop (rev (bytes body)) true 0.
Proof.
  unfold luhn_total. rewrite bytes_app. simpl. rewrite rev_app_distr. simpl.
  now rewrite luhn_loop_acc.
Qed.

(** The check digit is the one digit that completes the sum to a
    multiple of ten. *)
Lemma check_value_completes (sum v : Z) :
  0 <= sum -> 0 <= v <= 9 -> (check_value sum = v <-> (v + sum) mod 10 = 0).
Proof.
  intros Hs Hv. unfold check_value.
  rewrite (Z.rem_mod_nonneg sum 10) by lia.
  pose proof (Z.mod_pos_bound sum 10 ltac:(lia)).
  rewrite Z.rem_mod_nonneg by lia.
  split; intros E; Z.div_mod_to_equations; lia.
Qed.

Lemma ValidatePAN_snoc_total (body : string) (c : ascii) :
  IsDigits body = true -> is_digit c = true -> 12 <= len body <= 18 ->
  (ValidatePAN (body ++ String c "") = Ok tt <-> luhn_total (body ++ String c "") mod 10 = 0).
Proof.
  intros Hb Hc Hl. rewrite ValidatePAN_snoc, Hb, Hc. cbn [negb andb].
  destruct (Z.ltb_spec (len body + 1) 13); [lia|].
  destruct (Z.gtb_spec (len body + 1) 19); [lia|]. cbn [orb].
  rewrite luhn_total_snoc. unfold luhn_digit. rewrite digit_value by exact Hc.
  destruct (luhnCheckDigit_char body) as (cd & -> & Hcd & Hv).
  pose proof (luhn_loop_nonneg (rev (bytes body)) true) as Hs.
  apply is_digit_range in Hc.
  rewrite <- check_value_completes by lia.
  case_decide as E.
  - split; [intros _|reflexivity]. injection E as ->. lia.
  - split; [discriminate|]. intros Hcv. exfalso. apply E. f_equal.
    apply byte_val_inj. lia.
Qed.

Lemma luhn_total_of_valid (pan : string) :
  ValidatePAN pan = Ok tt ->
  IsDigits pan = true /\ 13 <= len pan <= 19 /\ luhn_total pan mod 10 = 0.
Proof.
  intros Hv. destruct (ValidatePAN_ok pan Hv) as (body & c & -> & Hb & Hc & Hl & _).
  split; [rewrite IsDigits_app, Hb; simpl; now rewrite Hc|].
  split; [rewrite len_app; change (len (String c "")) with 1; lia|].
  now apply ValidatePAN_snoc_total.
Qed.

Lemma valid_of_luhn_total (pan : string) :
  IsDigits pan = true -> 13 <= len pan <= 19 -> luhn_total pan mod 10 = 0 ->
  ValidatePAN pan = Ok tt.
Proof.
  intros Hd Hl Ht. destruct (snoc_split pan) as (body & c & ->).
  { intros ->. unfold len in Hl. simpl in Hl. lia. }
  rewrite IsDigits_app in Hd. apply andb_true_iff in Hd as [Hb Hc]. simpl in Hc.
  destruct (is_digit c) eqn:Ec; [|discriminate].
  rewrite len_app in Hl. change (len (String c "")) with 1 in Hl.
  apply ValidatePAN_snoc_total; auto. lia.
Qed.

(** Two neighbours inside a string, read on its bytes, and the string
    with the two exchanged. *)
Lemma neighbours_split (s : string) (i : nat) (a b : ascii) :
  String.get i s = Some a -> String.get (S i) s = Some b ->
  exists l1 l2, bytes s = (l1 ++ a :: b :: l2)%list
                /\ bytes (transpose i s) = (l1 ++ b :: a :: l2)%list.
Proof.
  intros Ha Hb. unfold transpose. rewrite Ha, Hb.
  revert i Ha Hb. induction s as [|x s IH]; intros i; [discriminate|].
  destruct i as [|i].
  - simpl. intros [= ->]. destruct s as [|y s]; [discriminate|]. simpl. intros [= ->].
    exists [], (bytes s). auto.
  - intros Ha Hb. destruct (IH i Ha Hb) as (l1 & l2 & E1 & E2).
    exists (x :: l1), l2. split.
    + cbn [list_ascii_of_string]. now rewrite E1.
    + change (set_byte (S i) b (set_byte (S (S i)) a (String x s)))
        with (String x (set_byte i b (set_byte (S i) a s))).
      cbn [list_ascii_of_string]. now rewrite E2.
Qed.

(** The Luhn sum of a string in which [x] and [y] are neighbours. *)
Lemma luhn_pair (l1 l2 : list ascii) (x y : ascii) (dbl : bool) :
  luhn_loop (rev (l1 ++ x :: y :: l2)) dbl 0
  = luhn_loop (rev l2) dbl 0
    + luhn_digit (flag_after (length l2) dbl) y
    + luhn_digit (negb (flag_after (length l2) dbl)) x
    + luhn_loop (rev l1) (flag_after (length l2) dbl) 0.
Proof.
  rewrite rev_app_distr. simpl. rewrite <- !app_assoc. simpl.
  rewrite luhn_loop_app. simpl. rewrite length_rev, negb_involutive.
  rewrite luhn_loop_acc. lia.
Qed.

(** Exchanging two different neighbouring digits changes the sum modulo
    ten, unless the two are 0 and 9. *)
Lemma luhn_exchange (f : bool) (x y : ascii) (rest : Z) :
  is_digit x = true -> is_digit y = true -> x <> y ->
  (rest + luhn_digit f y + luhn_digit (negb f) x) mod 10 = 0 ->
  ((rest + luhn_digit f x + luhn_digit (negb f) y) mod 10 = 0
   <-> (byte_val x = 48 /\ byte_val y = 57) \/ (byte_val x = 57 /\ byte_val y = 48)).
Proof.
  intros Hx Hy Hne. unfold luhn_digit. rewrite !digit_value by assumption.
  apply is_digit_range in Hx, Hy.
  assert (byte_val x <> byte_val y) as Hv by (intros E; apply Hne, byte_val_inj, E).
  destruct f; simpl;
    destruct (Z.gtb_spec ((byte_val x - 48) * 2) 9), (Z.gtb_spec ((byte_val y - 48) * 2) 9);
    intros ?; split; intros ?; Z.div_mod_to_equations; lia.
Qed.

End LuhnTotal.

(** X6.  ValidatePAN accepts exactly the strings of 13 to 19 decimal
    digits whose Luhn sum over all digits, the check digit included and
    every second digit from the right doubled, is a multiple of ten.  The
    code computes the check digit of the body and compares it with the
    last byte; this is the same test. *)
Theorem ValidatePAN_iff_luhn_total (pan : string) :
  cardgen.ValidatePAN pan = Ok tt
  <-> cardgen.IsDigits pan = true /\ 13 <= len pan <= 19 /\ luhn_total pan mod 10 = 0.
Proof.
  split.
  - apply luhn_total_of_valid.
  - intros (Hd & Hl & Ht). now apply valid_of_luhn_total.
Qed.

(** X7.  The Luhn check of ValidatePAN detects the exchange of two
    neighbouring digits, with one exception.  When a valid PAN has the
    different bytes a and b at positions i and i + 1 (the check digit may
    be one of them), the PAN with the two exchanged is rejected, unless
    the two digits are 0 and 9: that exchange, and only that one, yields
    a PAN that is accepted again. *)
Theorem ValidatePAN_detects_transposition (pan : string) (i : nat) (a b : ascii) :
  cardgen.ValidatePAN pan = Ok tt ->
  String.get i pan = Some a -> String.get (S i) pan = Some b -> a <> b ->
  (cardgen.ValidatePAN (transpose i pan) = Ok tt
   <-> (a = "0"%char /\ b = "9"%char) \/ (a = "9"%char /\ b = "0"%char)).
Proof.
  intros Hv Ha Hb Hne.
  destruct (luhn_total_of_valid pan Hv) as (Hd & Hl & Ht).
  destruct (neighbours_split pan i a b Ha Hb) as (l1 & l2 & E1 & E2).
  assert (cardgen.is_digit a = true /\ cardgen.is_digit b = true) as [Hda Hdb].
  { rewrite IsDigits_forallb, E1, forallb_app in Hd. simpl in Hd.
    apply andb_true_iff in Hd as [_ Hd]. apply andb_true_iff in Hd as [Hda Hd].
    now apply andb_true_iff in Hd as [Hdb _]. }
  assert (cardgen.IsDigits (transpose i pan) = true) as Hd'.
  { rewrite IsDigits_forallb, E1, forallb_app in Hd. simpl in Hd.
    apply andb_true_iff in Hd as [H1 H2]. apply andb_true_iff in H2 as [_ H2].
    apply andb_true_iff in H2 as [_ H2].
    rewrite IsDigits_forallb, E2, forallb_app. simpl. now rewrite H1, Hda, Hdb, H2. }
  assert (len (transpose i pan) = len pan) as Hl'.
  { unfold len. rewrite <- !length_bytes, E1, E2, !length_app. reflexivity. }
  unfold luhn_total in Ht. rewrite E1, luhn_pair in Ht.
  set (f := flag_after (length l2) false) in *.
  set (S2 := cardgen.luhn_loop (rev l2) false 0) in *.
  set (S1 := cardgen.luhn_loop (rev l1) f 0) in *.
  assert (luhn_total (transpose i pan) = S2 + S1 + cardgen.luhn_digit f a
                                          + cardgen.luhn_digit (negb f) b) as Ht'.
  { unfold luhn_total. rewrite E2, luhn_pair. fold f S2 S1. lia. }
  replace (S2 + cardgen.luhn_digit f b + cardgen.luhn_digit (negb f) a + S1)
    with (S2 + S1 + cardgen.luhn_digit f b + cardgen.luhn_digit (negb f) a) in Ht by lia.
  pose proof (luhn_exchange f a b (S2 + S1) Hda Hdb Hne Ht) as Hex.
  rewrite <- Ht' in Hex.
  assert (forall c : ascii, (c = "0"%char <-> byte_val c = 48)
                            /\ (c = "9"%char <-> byte_val c = 57)) as Hc.
  { intros c. split; (split; [now intros -> | intros E; now apply byte_val_inj]). }
  rewrite !(proj1 (Hc _)), !(proj2 (Hc _)), <- Hex.
  split.
  - intros Hv'. now apply luhn_total_of_valid in Hv'.
  - intros Ht2. apply valid_of_luhn_total; [exact Hd' | lia | exact Ht2].
Qed.

Lemma ValidatePAN_transposition_witness :
  cardgen.ValidatePAN "4539578763621486" = Ok tt
  /\ is_ok (cardgen.ValidatePAN (transpose 1 "4539578763621486")) = false.
Proof.
  split; [reflexivity|].
  destruct (cardgen.ValidatePAN (transpose 1 "4539578763621486")) as [[]|e] eqn:E;
    [|reflexivity].
  exfalso.
  apply (ValidatePAN_detects_transposition "4539578763621486" 1 "5" "3"
           eq_refl eq_refl eq_refl ltac:(discriminate)) in E.
  destruct E as [[E _]|[E _]]; discriminate.
Defined.

Section GeneratorShape.

Import cardgen.
Local Abbreviation bytes := list_ascii_of_string.

Lemma IsDigits_take (s : string) (n : nat) :
  IsDigits s = true -> IsDigits (substring 0 n s) = true.
Proof.
  rewrite !IsDigits_forallb, substring_take. intros H.
  rewrite forallb_forall in *. intros x Hx. apply H.
  apply list_elem_of_In. apply list_elem_of_In in Hx. eapply subseteq_take, Hx.
Qed.

Lemma len_take (s : string) (n : nat) :
  (n <= String.length s)%nat -> len (substring 0 n s) = Z.of_nat n.
Proof.
  intros H. unfold len. rewrite <- length_bytes, substring_take, length_take.
  rewrite length_bytes. lia.
Qed.

(** A successful generation, with or without a sequence: BIN, random
    fill, sequence, check digit. *)
Lemma GeneratePANWithLength_shape (bin : string) (totalLen : Z) (sequence : string)
    (rnd t : tape) (pan : string) :
  GeneratePANWithLength bin totalLen sequence rnd = (Ok pan, t) ->
  exists r, pan = (bin ++ r ++ TrimSpace sequence)
                  ++ luhnCheckDigit (bin ++ r ++ TrimSpace sequence)
    /\ IsDigits bin = true
    /\ IsDigits r = true
    /\ IsDigits (TrimSpace sequence) = true
    /\ len r = totalLen - 1 - len bin - len (TrimSpace sequence)
    /\ 0 <= len r
    /\ 13 <= totalLen <= 19.
Proof.
  unfold GeneratePANWithLength.
  destruct (ValidateBIN bin) as [[]|e] eqn:Hb; [|discriminate].
  apply ValidateBIN_ok in Hb as [Hd Hl].
  destruct (Z.ltb_spec totalLen 13); [discriminate|].
  destruct (Z.gtb_spec totalLen 19); [discriminate|]. simpl.
  destruct (Z.leb_spec (totalLen - 1 - len bin) 0); [discriminate|].
  set (seq := TrimSpace sequence). set (fill := totalLen - 1 - len bin) in *.
  unfold check_sequence, fill_and_check.
  destruct (randomDigits fill rnd) as [[s|e] t'] eqn:Hr.
  2: { destruct (negb (seq =? "")%string); [|discriminate].
       destruct (negb (IsDigits seq)); [discriminate|].
       destruct (len seq >? fill); discriminate. }
  destruct (randomDigits_spec fill rnd t' s ltac:(lia) Hr) as [Hds Hls].
  destruct (String.eqb_spec seq "") as [Es|Es]; simpl.
  - intros [= <- <-]. exists s. rewrite Es.
    assert (forall x : string, x ++ "" = x) as Hnil.
    { intros x. apply bytes_inj. rewrite bytes_app. apply app_nil_r. }
    rewrite Hnil.
    change (len "") with 0. repeat split; auto; lia.
  - destruct (IsDigits seq) eqn:Hq; simpl; [|discriminate].
    destruct (Z.gtb_spec (len seq) fill); [discriminate|].
    intros [= <- <-]. unfold overwrite_tail.
    assert (String.length seq <= String.length s)%nat as Hle by (unfold len in *; lia).
    exists (substring 0 (String.length s - String.length seq) s).
    split; [reflexivity|]. split; [exact Hd|].
    split; [now apply IsDigits_take|]. split; [reflexivity|].
    rewrite len_take by lia. unfold len in *. repeat split; lia.
Qed.

End GeneratorShape.

(** X8.  The digit sampler of randomDigits is unbiased.  A byte of the
    random source is turned into a digit only when it is below 250, and
    each of the ten digits is produced by exactly 25 of the 256 byte
    values; the six values from 250 on are skipped and yield nothing, so
    every digit is equally likely when the bytes are uniform. *)
Theorem digit_sampling_is_uniform (d : Z) :
  0 <= d <= 9 ->
  length (List.filter (sampled_as d) all_bytes) = 25%nat
  /\ forall b, 250 <= byte_val b -> cardgen.scan_buffer [b] 1 = ("", 1%nat).
Proof.
  intros Hd. split.
  - assert (d = 0 \/ d = 1 \/ d = 2 \/ d = 3 \/ d = 4 \/ d = 5 \/ d = 6 \/ d = 7 \/ d = 8
            \/ d = 9) as Hc by lia.
    repeat (destruct Hc as [->|Hc]; [vm_compute; reflexivity|]).
    subst d. vm_compute. reflexivity.
  - intros b Hb. simpl. unfold cardgen.threshold.
    destruct (Z.ltb_spec (byte_val b) 250); [lia | reflexivity].
Qed.

Lemma digit_sampling_witness :
  length (List.filter (sampled_as 7) all_bytes) = 25%nat.
Proof.
  apply (digit_sampling_is_uniform 7). lia.
Defined.

(** X9.  Where the generators put their parts.  A PAN returned by
    GeneratePANWithLength, for any BIN, length and sequence (given as
    ASCII text), is the BIN, then random digits, then the sequence with
    its surrounding white space cut off, then the Luhn check digit of
    all that; the random part has as many digits as are left over, the
    PAN has exactly the length asked for, consists of decimal digits and
    passes ValidatePAN.  GeneratePAN is the same at length 16. *)
Theorem GeneratePANWithLength_places_sequence (bin : string) (totalLen : Z)
    (sequence : string) (rnd t : cardgen.tape) (pan : string) :
  ascii_text sequence = true ->
  cardgen.GeneratePANWithLength bin totalLen sequence rnd = (Ok pan, t)
  \/ (totalLen = 16 /\ cardgen.GeneratePAN bin sequence rnd = (Ok pan, t)) ->
  let seq := cardgen.TrimSpace sequence in
  exists r, pan = (bin ++ r ++ seq) ++ cardgen.luhnCheckDigit (bin ++ r ++ seq)
    /\ cardgen.IsDigits r = true
    /\ len r = totalLen - 1 - len bin - len seq
    /\ len pan = totalLen
    /\ cardgen.IsDigits pan = true
    /\ cardgen.ValidatePAN pan = Ok tt.
Proof.
  intros _ Hg seq.
  assert (cardgen.GeneratePANWithLength bin totalLen sequence rnd = (Ok pan, t)) as H.
  { destruct Hg as [H|[-> H]]; [exact H|]. now rewrite GeneratePAN_WithLength in H. }
  destruct (GeneratePANWithLength_shape _ _ _ _ _ _ H)
    as (r & -> & Hb & Hr & Hs & Hl & Hr0 & Ht).
  fold seq in Hs, Hl |- *. exists r.
  assert (cardgen.IsDigits (bin ++ r ++ seq) = true) as Hd.
  { now rewrite !IsDigits_app, Hb, Hr, Hs. }
  assert (len (bin ++ r ++ seq) = totalLen - 1) as Hlen.
  { rewrite !len_app. lia. }
  destruct (luhnCheckDigit_char (bin ++ r ++ seq)) as (cd & E & Hcd & _).
  split; [reflexivity|]. split; [exact Hr|]. split; [exact Hl|].
  split; [rewrite len_app, Hlen, E; change (len (String cd "")) with 1; lia|].
  split; [rewrite IsDigits_app, Hd, E; simpl; now rewrite Hcd|].
  apply ValidatePAN_generated; [exact Hd | lia].
Qed.

Lemma GeneratePANWithLength_sequence_witness :
  exists r,
    fst (cardgen.GeneratePANWithLength "421234" 16 " 0042 " (sample_tape 1))
    = Ok (("421234" ++ r ++ "0042") ++ cardgen.luhnCheckDigit ("421234" ++ r ++ "0042"))
    /\ len r = 5.
Proof.
  destruct (cardgen.GeneratePANWithLength "421234" 16 " 0042 " (sample_tape 1))
    as [[pan|e] t] eqn:E; [|vm_compute in E; discriminate].
  destruct (GeneratePANWithLength_places_sequence "421234" 16 " 0042 " (sample_tape 1) t pan
              eq_refl (or_introl E)) as (r & -> & _ & Hl & _).
  exists r. split; [reflexivity | exact Hl].
Defined.

Section MaskFacts.

Local Abbreviation bytes := list_ascii_of_string.

Lemma get_lookup (s : string) (i : nat) : String.get i s = bytes s !! i.
Proof. revert i. induction s as [|c s IH]; intros [|i]; simpl; auto. Qed.

Lemma len_bytes (s : string) : len s = Z.of_nat (length (bytes s)).
Proof. unfold len. now rewrite length_bytes. Qed.

Lemma bytes_substring (n m : nat) (s : string) :
  bytes (substring n m s) = take m (drop n (bytes s)).
Proof.
  revert n m. induction s as [|c s IH]; intros [|n] [|m]; simpl; try reflexivity;
    now rewrite IH.
Qed.

Lemma bytes_from (i : Z) (s : string) :
  bytes (mask.from i s) = drop (Z.to_nat i) (bytes s).
Proof.
  unfold mask.from. rewrite bytes_substring. apply take_ge.
  rewrite length_drop, length_bytes. lia.
Qed.

Lemma bytes_Repeat (c : ascii) (k : Z) : bytes (mask.Repeat c k) = repeat c (Z.to_nat k).
Proof. unfold mask.Repeat. apply list_ascii_of_string_of_list_ascii. Qed.

Lemma lookup_repeat {A} (c : A) (k i : nat) : (i < k)%nat -> repeat c k !! i = Some c.
Proof.
  revert i. induction k as [|k IH]; intros i Hi; [lia|].
  destruct i as [|i]; simpl; [reflexivity | apply IH; lia].
Qed.

(** The bytes of the mask, by the length of the cleaned PAN. *)
Lemma MaskPAN_bytes (pan : string) :
  let cl := bytes (security.NormalizePAN pan) in
  let n := length cl in
  bytes (mask.MaskPAN pan)
  = if (n <=? 4)%nat then repeat "*"%char n
    else if (n <? 10)%nat then (repeat "*"%char (n - 4) ++ drop (n - 4) cl)%list
    else (take 6 cl ++ repeat "*"%char (n - 10) ++ drop (n - 4) cl)%list.
Proof.
  intros cl n. unfold mask.MaskPAN.
  assert (len (security.NormalizePAN pan) = Z.of_nat n) as -> by apply len_bytes.
  destruct (Z.eqb_spec (Z.of_nat n) 0) as [E0|E0].
  { assert (n = O) as -> by lia. reflexivity. }
  destruct (Z.leb_spec (Z.of_nat n) 4), (Nat.leb_spec n 4); try lia.
  { rewrite bytes_Repeat. now rewrite Nat2Z.id. }
  destruct (Z.ltb_spec (Z.of_nat n) 10), (Nat.ltb_spec n 10); try lia.
  - rewrite bytes_app, bytes_Repeat, bytes_from. fold cl.
    now replace (Z.to_nat (Z.of_nat n - 4)) with (n - 4)%nat by lia.
  - rewrite !bytes_app, bytes_Repeat, bytes_from, bytes_substring. fold cl.
    replace (Z.to_nat (Z.of_nat n - 4)) with (n - 4)%nat by lia.
    now replace (Z.to_nat (Z.of_nat n - 10)) with (n - 10)%nat by lia.
Qed.

End MaskFacts.

(** X10.  What MaskPAN shows.  For a PAN given as ASCII text, the mask has
    exactly as many bytes as the PAN once blanks, tabs and dashes are
    removed, and each of its bytes is either the byte of the cleaned PAN
    at that place or an asterisk: the first six and the last four are
    shown when the cleaned PAN has ten bytes or more, only the last four
    when it has five to nine, and none when it has four or fewer.  So at
    most ten bytes of a PAN are ever shown and every other byte is
    replaced. *)
Theorem MaskPAN_shows_only_the_ends (pan : string) :
  ascii_text pan = true ->
  let cleaned := security.NormalizePAN pan in
  len (mask.MaskPAN pan) = len cleaned
  /\ forall i, (i < String.length cleaned)%nat ->
       String.get i (mask.MaskPAN pan)
       = if shown (len cleaned) (Z.of_nat i) then String.get i cleaned else Some "*"%char.
Proof.
  intros _ cleaned. pose proof (MaskPAN_bytes pan) as Hb. cbv zeta in Hb. fold cleaned in Hb.
  rewrite !len_bytes. setoid_rewrite get_lookup. rewrite Hb.
  rewrite <- (length_bytes cleaned).
  set (cl := list_ascii_of_string cleaned) in *. set (n := length cl) in *.
  unfold shown.
  destruct (Nat.leb_spec n 4) as [H4|H4].
  { split; [now rewrite repeat_length|]. intros i Hi.
    destruct (Z.leb_spec 10 (Z.of_nat n)); [lia|].
    destruct (Z.ltb_spec 4 (Z.of_nat n)); [lia|]. simpl.
    now apply lookup_repeat. }
  destruct (Z.ltb_spec 4 (Z.of_nat n)) as [_|]; [|lia].
  destruct (Nat.ltb_spec n 10) as [H10|H10].
  - destruct (Z.leb_spec 10 (Z.of_nat n)); [lia|]. cbn [andb orb].
    split; [rewrite length_app, repeat_length, length_drop; lia|].
    intros i Hi. destruct (Z.leb_spec (Z.of_nat n - 4) (Z.of_nat i)).
    + rewrite lookup_app_r by (rewrite repeat_length; lia).
      rewrite repeat_length, lookup_drop. f_equal. lia.
    + rewrite lookup_app_l by (rewrite repeat_length; lia).
      apply lookup_repeat. lia.
  - destruct (Z.leb_spec 10 (Z.of_nat n)); [|lia]. cbn [andb].
    assert (length (take 6 cl) = 6%nat) as H6 by (rewrite length_take; lia).
    split; [rewrite !length_app, H6, repeat_length, length_drop; lia|].
    intros i Hi. destruct (Z.ltb_spec (Z.of_nat i) 6).
    + cbn [orb]. rewrite lookup_app_l by lia. rewrite lookup_take.
      case_decide; [reflexivity | lia].
    + cbn [orb]. rewrite lookup_app_r by lia. rewrite H6.
      destruct (Z.leb_spec (Z.of_nat n - 4) (Z.of_nat i)).
      * rewrite lookup_app_r by (rewrite repeat_length; lia).
        rewrite repeat_length, lookup_drop. f_equal. lia.
      * rewrite lookup_app_l by (rewrite repeat_length; lia).
        apply lookup_repeat. lia.
Qed.

Lemma MaskPAN_witness :
  len (mask.MaskPAN "4539 5787-6362 1486") = 16
  /\ String.get 5 (mask.MaskPAN "4539 5787-6362 1486") = Some "7"%char
  /\ String.get 6 (mask.MaskPAN "4539 5787-6362 1486") = Some "*"%char.
Proof.
  destruct (MaskPAN_shows_only_the_ends "4539 5787-6362 1486" eq_refl) as [Hl H].
  split; [exact Hl|]. split.
  - apply (H 5%nat). vm_compute. lia.
  - apply (H 6%nat). vm_compute. lia.
Defined.

(** ** Further properties of the CVV provider *)

Section ProviderFacts.

Import cardgen security.
Local Abbreviation bytes := list_ascii_of_string.

Lemma forall_from_spec (f : Z -> bool) (z : Z) (n : nat) (x : Z) :
  forall_from f z n = true -> z <= x < z + Z.of_nat n -> f x = true.
Proof.
  revert z. induction n as [|n IH]; intros z; simpl; [lia|].
  destruct (f z) eqn:E; [|discriminate]. intros H Hx.
  destruct (Z.eq_dec x z) as [->|Hne]; [exact E|]. apply (IH (z + 1)); [exact H | lia].
Qed.

(** A digit is no white space and no separator. *)
Lemma digit_not_space (c : ascii) : is_digit c = true -> is_space c = false.
Proof.
  intros H%is_digit_range. unfold is_space.
  destruct (byte_val c) as [|p|p]; try reflexivity.
  repeat (destruct p as [p|p|]; try reflexivity; try lia).
Qed.

Lemma trim_left_digits (s : string) : IsDigits s = true -> trim_left s = s.
Proof.
  destruct s as [|c s]; [reflexivity|]. simpl.
  destruct (is_digit c) eqn:E; [|discriminate]. intros _.
  now rewrite (digit_not_space c E).
Qed.

Lemma string_rev_involutive (s : string) : string_rev (string_rev s) = s.
Proof.
  unfold string_rev. rewrite list_ascii_of_string_of_list_ascii, rev_involutive.
  apply string_of_list_ascii_of_string.
Qed.

Lemma IsDigits_rev (s : string) : IsDigits (string_rev s) = IsDigits s.
Proof.
  unfold string_rev. rewrite !IsDigits_forallb, list_ascii_of_string_of_list_ascii.
  induction (bytes s) as [|c l IH]; [reflexivity|]. simpl.
  rewrite forallb_app, IH. simpl. rewrite andb_true_r. apply andb_comm.
Qed.

Lemma TrimSpace_digits (s : string) : IsDigits s = true -> TrimSpace s = s.
Proof.
  intros H. unfold TrimSpace. rewrite (trim_left_digits s H).
  rewrite trim_left_digits by now rewrite IsDigits_rev.
  apply string_rev_involutive.
Qed.

Lemma drop_separators_digits (s : string) : IsDigits s = true -> drop_separators s = s.
Proof.
  induction s as [|c s IH]; [reflexivity|]. simpl.
  destruct (is_digit c) eqn:E; [|discriminate]. intros H. rewrite (IH H).
  apply is_digit_range in E.
  destruct (byte_val c) as [|p|p]; try reflexivity.
  repeat (destruct p as [p|p|]; try reflexivity; try lia).
Qed.

(** Normalising a string of digits changes nothing. *)
Lemma NormalizePAN_digits (s : string) : IsDigits s = true -> NormalizePAN s = s.
Proof.
  intros H. unfold NormalizePAN. rewrite (TrimSpace_digits s H).
  now apply drop_separators_digits.
Qed.

Lemma stripCheckDigit_snoc (body : string) (c : ascii) :
  stripCheckDigit (body ++ String c "") = body.
Proof.
  unfold stripCheckDigit. rewrite len_app. change (len (String c "")) with 1.
  destruct (Z.eqb_spec (len body + 1) 0) as [E|_]; [unfold len in E; lia|].
  apply body_of_snoc.
Qed.

(** The PAN the provider builds from a PAN without check digit is taken
    apart again without loss. *)
Lemma panNoCDStrict_buildValidPAN (noCD : string) :
  IsDigits noCD = true -> 12 <= len noCD <= 18 ->
  panNoCDStrict (buildValidPAN noCD) = Ok noCD.
Proof.
  intros Hd Hl. unfold panNoCDStrict, buildValidPAN.
  destruct (luhnCheckDigit_char noCD) as (cd & E & Hcd & _).
  assert (IsDigits (noCD ++ luhnCheckDigit noCD) = true) as Hd'.
  { rewrite IsDigits_app, Hd, E. simpl. now rewrite Hcd. }
  rewrite (NormalizePAN_digits _ Hd'), (ValidatePAN_generated noCD Hd Hl), E.
  now rewrite stripCheckDigit_snoc.
Qed.

Lemma validatePanNoCD_ok (noCD : string) :
  validatePanNoCD noCD = Ok tt <-> IsDigits noCD = true /\ 12 <= len noCD <= 18.
Proof.
  unfold validatePanNoCD.
  destruct (String.eqb_spec noCD "") as [->|Hne]; simpl.
  { split; [discriminate|]. unfold len. simpl. lia. }
  destruct (IsDigits noCD); simpl; [|split; [discriminate | intros [[=] _]]].
  destruct (Z.ltb_spec (len noCD) 12); simpl; [split; [discriminate | lia]|].
  destruct (Z.gtb_spec (len noCD) 18); simpl; [split; [discriminate | lia]|].
  split; [lia | reflexivity].
Qed.

Lemma validateServiceCode_ok (sc : string) :
  len sc = 3 -> IsDigits sc = true -> validateServiceCode sc = Ok tt.
Proof.
  intros Hl Hd. unfold validateServiceCode. rewrite Hl, Hd. reflexivity.
Qed.

Lemma normalizeWidth_idempotent (width : Z) :
  normalizeWidth (if negb (width =? 4) then 3 else width) = normalizeWidth width.
Proof. unfold normalizeWidth. now destruct (Z.eqb_spec width 4) as [->|]. Qed.

Lemma key_empty (k : list ascii) : (Z.of_nat (length k) =? 0) = true <-> k = [].
Proof.
  destruct k; simpl; [split; reflexivity|].
  split; discriminate.
Qed.

Variable hmac_sha256 : list ascii -> list ascii -> list ascii.

(** The strict static function on a PAN built from valid parts. *)
Lemma StaticCVVDemoStrict_built (noCD yymm sc : string) (width : Z) (k : list ascii) :
  expiry.ValidateYYMM yymm = Ok tt -> len sc = 3 -> IsDigits sc = true ->
  IsDigits noCD = true -> 12 <= len noCD <= 18 ->
  StaticCVVDemoStrict hmac_sha256 (buildValidPAN noCD) yymm sc width k
  = Ok (hmacTruncatedDecimal hmac_sha256 k
          (bytes (noCD ++ "|" ++ yymm ++ "|" ++ sc ++ "|" ++ domainStatic)) []
          (normalizeWidth width)).
Proof.
  intros Hy Hl Hd Hn Hln. unfold StaticCVVDemoStrict.
  now rewrite Hy, (validateServiceCode_ok sc Hl Hd), (panNoCDStrict_buildValidPAN noCD Hn Hln).
Qed.

(** The seconds of a normalised step. *)
Lemma normalizeStep_seconds (step : Z) :
  Z.quot (normalizeStep step) Second = (if step <? Second then 1 else Z.quot step Second)
  /\ 1 <= Z.quot (normalizeStep step) Second
  /\ normalizeStep (normalizeStep step) = normalizeStep step.
Proof.
  unfold normalizeStep, Second.
  destruct (Z.ltb_spec step 1000000000) as [H|H].
  - split; [reflexivity|]. split; [now vm_compute|]. reflexivity.
  - assert (1 <= step ÷ 1000000000) as Hq by (apply Z.quot_le_lower_bound; lia).
    rewrite (Z.quot_mul (step ÷ 1000000000) 1000000000) by lia.
    split; [reflexivity|]. split; [exact Hq|].
    destruct (Z.ltb_spec (step ÷ 1000000000 * 1000000000) 1000000000); [lia | reflexivity].
Qed.

(** The window arithmetic of the dynamic code, for a time that is not
    before the epoch. *)
Lemma window_arithmetic (now sec later : Z) :
  0 <= now -> 1 <= sec ->
  let ttl := sec - Z.rem now sec in
  (if ttl <=? 0 then sec else ttl) = sec - now mod sec
  /\ 1 <= sec - now mod sec <= sec
  /\ (now + (sec - now mod sec)) mod sec = 0
  /\ Z.quot now sec = now / sec
  /\ (now <= later < now + (sec - now mod sec) ->
      later / sec = now / sec
      /\ sec - later mod sec = sec - now mod sec - (later - now)).
Proof.
  intros Hn Hs ttl. subst ttl.
  rewrite Z.rem_mod_nonneg, Z.quot_div_nonneg by lia.
  pose proof (Z.mod_pos_bound now sec ltac:(lia)) as Hm.
  pose proof (Z.div_mod now sec ltac:(lia)) as Hdm.
  destruct (Z.leb_spec (sec - now mod sec) 0); [lia|].
  split; [reflexivity|]. split; [lia|]. split.
  - replace (now + (sec - now mod sec)) with ((now / sec + 1) * sec) by lia.
    apply Z.mod_mul. lia.
  - split; [reflexivity|]. intros Hl.
    assert (later / sec = now / sec) as Hq.
    { apply Z.le_antisymm.
      - apply Z.lt_succ_r, Z.div_lt_upper_bound; lia.
      - apply Z.div_le_lower_bound; lia. }
    split; [exact Hq|].
    pose proof (Z.div_mod later sec ltac:(lia)) as Hdl. rewrite Hq in Hdl. lia.
Qed.

End ProviderFacts.

Section ProviderTheorems.

Import cardgen security.
Local Abbreviation bytes := list_ascii_of_string.

Lemma Sprintf_three_digits : forall_from (printed_ok 3) 0 (Z.to_nat 1000) = true.
Proof. vm_compute. reflexivity. Qed.

Lemma Sprintf_four_digits : forall_from (printed_ok 4) 0 (Z.to_nat 10000) = true.
Proof. vm_compute. reflexivity. Qed.

Lemma printed_ok_spec (w : nat) (n : Z) :
  printed_ok w n = true -> IsDigits (Sprintf_0d w n) = true /\ len (Sprintf_0d w n) = Z.of_nat w.
Proof. unfold printed_ok. intros [H1 H2%Z.eqb_eq]%andb_true_iff. auto. Qed.

Variable hmac_sha256 : list ascii -> list ascii -> list ascii.

Lemma hmacTruncatedDecimal_printed (k msg extra : list ascii) (width : Z) :
  IsDigits (hmacTruncatedDecimal hmac_sha256 k msg extra width) = true
  /\ len (hmacTruncatedDecimal hmac_sha256 k msg extra width) = normalizeWidth width.
Proof.
  unfold hmacTruncatedDecimal.
  set (code := Z.lor _ _). unfold normalizeWidth.
  destruct (Z.eqb_spec width 4) as [->|Hw]; simpl.
  - apply (printed_ok_spec 4), (forall_from_spec _ 0 _ _ Sprintf_four_digits).
    pose proof (Z.mod_pos_bound code 10000). lia.
  - apply (printed_ok_spec 3), (forall_from_spec _ 0 _ _ Sprintf_three_digits).
    pose proof (Z.mod_pos_bound code 1000). lia.
Qed.

(** The dynamic function on a PAN built from valid parts. *)
Lemma DynamicCVVWithTTLStrict_built (noCD yymm sc : string) (now step width : Z)
    (k : list ascii) :
  expiry.ValidateYYMM yymm = Ok tt -> len sc = 3 -> IsDigits sc = true ->
  IsDigits noCD = true -> 12 <= len noCD <= 18 ->
  let sec := Z.quot (normalizeStep step) Second in
  DynamicCVVWithTTLStrict hmac_sha256 (buildValidPAN noCD) yymm sc now step width k
  = Ok (hmacTruncatedDecimal hmac_sha256 k
          (bytes (noCD ++ "|" ++ yymm ++ "|" ++ sc ++ "|" ++ domainDynamic))
          (PutUint64 (Z.quot now sec)) (normalizeWidth width),
        if sec - Z.rem now sec <=? 0 then sec else sec - Z.rem now sec).
Proof.
  intros Hy Hl Hd Hn Hln sec. unfold DynamicCVVWithTTLStrict.
  now rewrite Hy, (validateServiceCode_ok sc Hl Hd), (panNoCDStrict_buildValidPAN noCD Hn Hln).
Qed.

End ProviderTheorems.

(** X11.  When the demo provider's ComputeCVV2 succeeds, and with what.
    The call returns a CVV exactly when the key is not empty, the expiry
    is a valid YYMM, the service code is three digits and the PAN without
    check digit is 12 to 18 digits; the CVV is then the truncated HMAC of
    the text panNoCD|YYMM|SC|static-v1 under the key, with the width 4
    when 4 is asked for and 3 otherwise.  So the checks that
    StaticCVVDemoStrict repeats on the PAN rebuilt with its Luhn digit
    never fail on this path, and the check digit does not enter the
    code. *)
Theorem ComputeCVV2_succeeds_exactly (hmac_sha256 : list ascii -> list ascii -> list ascii)
    (p : security.DemoProvider) (panNoCD yymm sc : string) (width : Z) (cvv : string) :
  security.ComputeCVV2 hmac_sha256 p panNoCD yymm sc width = Ok cvv
  <-> security.key p <> []
      /\ expiry.ValidateYYMM yymm = Ok tt
      /\ len sc = 3 /\ cardgen.IsDigits sc = true
      /\ cardgen.IsDigits panNoCD = true /\ 12 <= len panNoCD <= 18
      /\ cvv = security.hmacTruncatedDecimal hmac_sha256 (security.key p)
                 (list_ascii_of_string
                    (panNoCD ++ "|" ++ yymm ++ "|" ++ sc ++ "|" ++ "static-v1"))
                 [] (if width =? 4 then 4 else 3).
Proof.
  unfold security.ComputeCVV2.
  destruct (Z.of_nat (length (security.key p)) =? 0) eqn:Ek.
  { apply key_empty in Ek. split; [discriminate | intros [Hk _]; contradiction]. }
  assert (security.key p <> []) as Hk.
  { intros E. apply key_empty in E. congruence. }
  destruct (expiry.ValidateYYMM yymm) as [[]|e] eqn:Hy.
  2: { split; [discriminate | intros (_ & [=] & _)]. }
  destruct (Z.eqb_spec (len sc) 3) as [Hl|Hl]; simpl.
  2: { split; [discriminate | intros (_ & _ & E & _); contradiction]. }
  destruct (cardgen.IsDigits sc) eqn:Hd; simpl.
  2: { split; [discriminate | intros (_ & _ & _ & [=] & _)]. }
  destruct (security.validatePanNoCD panNoCD) as [[]|e] eqn:Hn.
  2: { split; [discriminate|]. intros (_ & _ & _ & _ & H1 & H2 & _).
       rewrite (proj2 (validatePanNoCD_ok panNoCD) (conj H1 H2)) in Hn. discriminate. }
  apply validatePanNoCD_ok in Hn as [Hn Hln].
  rewrite (StaticCVVDemoStrict_built hmac_sha256 panNoCD yymm sc _ _ Hy Hl Hd Hn Hln).
  rewrite normalizeWidth_idempotent. unfold security.normalizeWidth, security.domainStatic.
  split.
  - intros [= <-]. auto 10.
  - intros (_ & _ & _ & _ & _ & _ & ->). reflexivity.
Qed.

(** X12.  A CVV is three or four decimal digits.  Whatever the HMAC
    function, key and message, hmacTruncatedDecimal returns a string of
    decimal digits only, four of them when the width is 4 and three for
    every other width. *)
Theorem hmacTruncatedDecimal_is_decimal (hmac_sha256 : list ascii -> list ascii -> list ascii)
    (k msg extra : list ascii) (width : Z) :
  cardgen.IsDigits (security.hmacTruncatedDecimal hmac_sha256 k msg extra width) = true
  /\ len (security.hmacTruncatedDecimal hmac_sha256 k msg extra width)
     = (if width =? 4 then 4 else 3).
Proof. apply hmacTruncatedDecimal_printed. Qed.

(** X13.  A dynamic CVV stays the same until its TTL has run out.  When
    DynamicCVVWithTTLStrict succeeds at a time that is not before the
    epoch, the TTL it returns lies between 1 and the seconds of the
    normalised step, the time plus the TTL is a multiple of those
    seconds, and a call at any later time before that instant returns
    the same code with the TTL reduced by the time gone by. *)
Theorem DynamicCVV_stable_within_window
    (hmac_sha256 : list ascii -> list ascii -> list ascii)
    (pan yymm sc : string) (now step width : Z) (k : list ascii) (cvv : string) (ttl : Z) :
  security.DynamicCVVWithTTLStrict hmac_sha256 pan yymm sc now step width k = Ok (cvv, ttl) ->
  0 <= now ->
  let sec := Z.quot (security.normalizeStep step) security.Second in
  1 <= ttl <= sec
  /\ (now + ttl) mod sec = 0
  /\ forall later, now <= later < now + ttl ->
       security.DynamicCVVWithTTLStrict hmac_sha256 pan yymm sc later step width k
       = Ok (cvv, ttl - (later - now)).
Proof.
  unfold security.DynamicCVVWithTTLStrict.
  destruct (normalizeStep_seconds step) as (_ & Hsec & _).
  destruct (expiry.ValidateYYMM yymm) as [[]|e]; [|discriminate].
  destruct (security.validateServiceCode sc) as [[]|e]; [|discriminate].
  destruct (security.panNoCDStrict pan) as [noCD|e]; [|discriminate].
  intros H Hnow. set (sec := Z.quot (security.normalizeStep step) security.Second) in *.
  destruct (window_arithmetic now sec now Hnow Hsec) as (Ht & Hr & Hm & Hq & _).
  cbv zeta in Ht. rewrite Ht, Hq in H. injection H as <- <-.
  split; [exact Hr|]. split; [exact Hm|].
  intros later Hl.
  destruct (window_arithmetic now sec later Hnow Hsec) as (_ & _ & _ & _ & Hw).
  destruct (Hw Hl) as [Hq' Ht'].
  destruct (window_arithmetic later sec later ltac:(lia) Hsec) as (Htl & _ & _ & Hql & _).
  cbv zeta in Htl. rewrite Htl, Hql, Hq', Ht'. reflexivity.
Qed.

Lemma DynamicCVV_stable_witness :
  exists cvv,
    security.DynamicCVVWithTTLStrict sample_hmac "4539578763621486" "3012" "101"
      1700000010 (30 * security.Second) 3 (list_ascii_of_string "k") = Ok (cvv, 30)
    /\ security.DynamicCVVWithTTLStrict sample_hmac "4539578763621486" "3012" "101"
         1700000015 (30 * security.Second) 3 (list_ascii_of_string "k") = Ok (cvv, 25).
Proof.
  assert (exists cvv,
            security.DynamicCVVWithTTLStrict sample_hmac "4539578763621486" "3012" "101"
              1700000010 (30 * security.Second) 3 (list_ascii_of_string "k") = Ok (cvv, 30))
    as [cvv E] by (eexists; vm_compute; reflexivity).
  exists cvv. split; [exact E|].
  destruct (DynamicCVV_stable_within_window sample_hmac _ _ _ _ _ _ _ _ _ E ltac:(lia))
    as (_ & _ & Hl).
  apply (Hl 1700000015). lia.
Defined.

(** X14.  What the demo provider's ComputeDisplayDCVV returns.  With a
    key that is not empty, a valid YYMM, a three-digit service code, a
    PAN without check digit of 12 to 18 digits and a clock that is not
    before the epoch, the call succeeds with the truncated HMAC of
    panNoCD|YYMM|SC|dynamic-v1 followed by the 8-byte big-endian window
    number, the window being the time divided by the window seconds:
    30 for a step that is not positive, 1 for a step below one second,
    and the whole seconds of the step otherwise.  The TTL is what is left
    of the window, between 1 and the window seconds. *)
Theorem ComputeDisplayDCVV_window (hmac_sha256 : list ascii -> list ascii -> list ascii)
    (p : security.DemoProvider) (panNoCD yymm sc : string) (step width now : Z) :
  security.key p <> [] ->
  expiry.ValidateYYMM yymm = Ok tt ->
  len sc = 3 -> cardgen.IsDigits sc = true ->
  cardgen.IsDigits panNoCD = true -> 12 <= len panNoCD <= 18 ->
  0 <= now ->
  let sec := window_seconds step in
  security.ComputeDisplayDCVV hmac_sha256 p panNoCD yymm sc step width now
  = Ok (security.hmacTruncatedDecimal hmac_sha256 (security.key p)
          (list_ascii_of_string (panNoCD ++ "|" ++ yymm ++ "|" ++ sc ++ "|" ++ "dynamic-v1"))
          (security.PutUint64 (now / sec)) (if width =? 4 then 4 else 3),
        sec - now mod sec)
  /\ 1 <= sec - now mod sec <= sec.
Proof.
  intros Hk Hy Hl Hd Hn Hln Hnow sec. unfold security.ComputeDisplayDCVV.
  destruct (Z.of_nat (length (security.key p)) =? 0) eqn:Ek.
  { apply key_empty in Ek. contradiction. }
  rewrite Hy, Hl, Hd. simpl negb. cbn [orb].
  rewrite (proj2 (validatePanNoCD_ok panNoCD) (conj Hn Hln)).
  rewrite (DynamicCVVWithTTLStrict_built hmac_sha256 panNoCD yymm sc _ _ _ _ Hy Hl Hd Hn Hln).
  cbv zeta. rewrite normalizeWidth_idempotent.
  set (step' := if step <=? 0 then 30 * security.Second else step).
  destruct (normalizeStep_seconds step') as (_ & _ & ->).
  destruct (normalizeStep_seconds step') as (Hs & Hsec & _).
  assert (Z.quot (security.normalizeStep step') security.Second = sec) as E.
  { rewrite Hs. subst sec step'. unfold window_seconds, security.Second.
    destruct (Z.leb_spec step 0).
    - reflexivity.
    - reflexivity. }
  rewrite E in *.
  destruct (window_arithmetic now sec now Hnow Hsec) as (Ht & Hr & _ & Hq & _).
  cbv zeta in Ht. rewrite Ht, Hq.
  unfold security.normalizeWidth, security.domainDynamic. split; [reflexivity | exact Hr].
Qed.

Lemma ComputeDisplayDCVV_witness :
  exists cvv,
    security.ComputeDisplayDCVV sample_hmac
      (security.NewDemoProviderStrict (list_ascii_of_string "k"))
      "453957876362148" "3012" "101" 0 3 1700000015 = Ok (cvv, 25).
Proof.
  destruct (ComputeDisplayDCVV_window sample_hmac
              (security.NewDemoProviderStrict (list_ascii_of_string "k"))
              "453957876362148" "3012" "101" 0 3 1700000015) as [E _].
  - discriminate.
  - reflexivity.
  - reflexivity.
  - reflexivity.
  - reflexivity.
  - vm_compute. split; discriminate.
  - lia.
  - eexists. exact E.
Defined.

Section InputFacts.

Import cardgen security.
Local Abbreviation bytes := list_ascii_of_string.

Variable hmac_sha256 : list ascii -> list ascii -> list ascii.

(** What [ValidateInputs] has checked when it returns. *)
Lemma ValidateInputs_ok (pan yymm sc noCD : string) :
  demo.ValidateInputs pan yymm sc = Ok noCD ->
  expiry.ValidateYYMM yymm = Ok tt /\ len sc = 3 /\ IsDigits sc = true
  /\ IsDigits noCD = true /\ 12 <= len noCD <= 18
  /\ NormalizePAN pan = noCD ++ luhnCheckDigit noCD
  /\ ValidatePAN (NormalizePAN pan) = Ok tt.
Proof.
  unfold demo.ValidateInputs.
  destruct (expiry.ValidateYYMM yymm) as [[]|e]; [|discriminate].
  destruct (Z.eqb_spec (len sc) 3) as [Hl|]; [|discriminate]. simpl.
  destruct (IsDigits sc); [|discriminate]. simpl.
  destruct (ValidatePAN (NormalizePAN pan)) as [[]|e] eqn:Hv; [|discriminate].
  intros [= <-].
  destruct (ValidatePAN_ok _ Hv) as (body & c & E & Hb & Hc & Hlb & Hluhn).
  rewrite E, body_of_snoc, Hluhn. auto 10.
Qed.

Lemma wrap64_small (z : Z) : min_int64 <= z <= max_int64 -> wrap64 z = z.
Proof.
  unfold wrap64, min_int64, max_int64. intros H.
  rewrite Z.mod_small by lia. lia.
Qed.

Lemma LastN_twelve (s : string) : is_Some (mask.LastN s 12).
Proof. unfold mask.LastN. destruct (len s <=? 12); simpl; eauto. Qed.

End InputFacts.

(** X15.  ValidateInputs hands a provider what it accepts.  When
    ValidateInputs succeeds on a PAN given as ASCII text, the PAN without
    check digit it returns, completed with its Luhn digit, is the
    normalised PAN again; and a demo provider with a key that is not empty
    accepts it together with the validated expiry and service code:
    ComputeCVV2 succeeds and returns what StaticCVVDemoStrict returns on
    the PAN as it was entered. *)
Theorem ValidateInputs_feeds_the_provider
    (hmac_sha256 : list ascii -> list ascii -> list ascii)
    (pan yymm sc noCD : string) (p : security.DemoProvider) (width : Z) :
  ascii_text pan = true ->
  demo.ValidateInputs pan yymm sc = Ok noCD ->
  security.key p <> [] ->
  security.buildValidPAN noCD = security.NormalizePAN pan
  /\ is_ok (security.ComputeCVV2 hmac_sha256 p noCD yymm sc width) = true
  /\ security.ComputeCVV2 hmac_sha256 p noCD yymm sc width
     = security.StaticCVVDemoStrict hmac_sha256 pan yymm sc width (security.key p).
Proof.
  intros _ Hin Hk.
  destruct (ValidateInputs_ok pan yymm sc noCD Hin) as (Hy & Hl & Hd & Hn & Hln & E & Hv).
  split; [now rewrite E|].
  assert (security.ComputeCVV2 hmac_sha256 p noCD yymm sc width
          = Ok (security.hmacTruncatedDecimal hmac_sha256 (security.key p)
                  (list_ascii_of_string
                     (noCD ++ "|" ++ yymm ++ "|" ++ sc ++ "|" ++ security.domainStatic))
                  [] (security.normalizeWidth width))) as Hc.
  { unfold security.ComputeCVV2.
    destruct (Z.of_nat (length (security.key p)) =? 0) eqn:Ek.
    { apply key_empty in Ek. contradiction. }
    rewrite Hy, Hl, Hd. simpl negb. cbn [orb].
    rewrite (proj2 (validatePanNoCD_ok noCD) (conj Hn Hln)).
    rewrite (StaticCVVDemoStrict_built hmac_sha256 noCD yymm sc _ _ Hy Hl Hd Hn Hln).
    now rewrite normalizeWidth_idempotent. }
  rewrite Hc. split; [reflexivity|].
  unfold security.StaticCVVDemoStrict.
  rewrite Hy, (validateServiceCode_ok sc Hl Hd). unfold security.panNoCDStrict.
  rewrite Hv, E.
  destruct (luhnCheckDigit_char noCD) as (cd & -> & _).
  now rewrite stripCheckDigit_snoc.
Qed.

Lemma ValidateInputs_witness :
  demo.ValidateInputs " 4539-5787 6362-1486 " "3012" "101" = Ok "453957876362148"
  /\ security.ComputeCVV2 sample_hmac (security.NewDemoProviderStrict (list_ascii_of_string "k"))
       "453957876362148" "3012" "101" 3
     = security.StaticCVVDemoStrict sample_hmac " 4539-5787 6362-1486 " "3012" "101" 3
         (list_ascii_of_string "k").
Proof.
  split; [reflexivity|].
  apply (ValidateInputs_feeds_the_provider sample_hmac " 4539-5787 6362-1486 " "3012" "101"
           "453957876362148" (security.NewDemoProviderStrict (list_ascii_of_string "k")) 3).
  - reflexivity.
  - reflexivity.
  - discriminate.
Defined.

(** X16.  The display-only DynamicCVV expires at the end of its window.
    For a time from the epoch on and a step that is a Duration, the call
    does not panic; the instant it returns as expiresAt is the next
    multiple of the seconds of the normalised step after the time, later
    than the time by at most those seconds, which is the instant at which
    the TTL of DynamicCVVWithTTLStrict runs out; and every call at a later
    time before that instant returns the same code and the same
    expiresAt. *)
Theorem DynamicCVV_expires_at_window_end
    (hmac_sha256 : list ascii -> list ascii -> list ascii)
    (pan expiry : string) (now step : Z) (k : list ascii) :
  0 <= now <= 2 ^ 62 -> step <= max_int64 ->
  let sec := Z.quot (security.normalizeStep step) security.Second in
  let expiresAt := now + (sec - now mod sec) in
  now < expiresAt <= now + sec
  /\ expiresAt mod sec = 0
  /\ exists code,
       forall later, now <= later < expiresAt ->
         demo.DynamicCVV hmac_sha256 pan expiry later step k = Some (code, expiresAt).
Proof.
  intros Hnow Hstep sec expiresAt.
  destruct (normalizeStep_seconds step) as (Hs & Hsec & _). fold sec in Hs, Hsec.
  assert (sec <= 2 ^ 34) as Hmax.
  { rewrite Hs. unfold security.Second, max_int64 in *.
    destruct (Z.ltb_spec step 1000000000); [lia|].
    apply Z.quot_le_upper_bound; lia. }
  destruct (window_arithmetic now sec now ltac:(lia) Hsec) as (_ & Hr & Hm & _ & _).
  split; [subst expiresAt; lia|]. split; [exact Hm|].
  unfold demo.DynamicCVV. fold sec.
  destruct (LastN_twelve pan) as [tail ->].
  eexists. intros later Hl.
  destruct (window_arithmetic now sec later ltac:(lia) Hsec) as (_ & _ & _ & _ & Hw).
  destruct (Hw Hl) as [Hq _].
  destruct (window_arithmetic later sec later ltac:(lia) Hsec) as (_ & _ & _ & Hql & _).
  rewrite Hql, Hq.
  pose proof (Z.div_mod now sec ltac:(lia)) as Hdm.
  pose proof (Z.mod_pos_bound now sec ltac:(lia)) as Hmb.
  assert (0 <= now / sec <= now) as Hdiv.
  { split; [apply Z.div_pos; lia|]. apply Z.div_le_upper_bound; [lia|]. nia. }
  assert ((now / sec + 1) * sec = expiresAt) as Hexp by (subst expiresAt; lia).
  rewrite (wrap64_small (now / sec + 1)) by (unfold min_int64, max_int64; lia).
  rewrite Hexp. rewrite wrap64_small by (unfold min_int64, max_int64; subst expiresAt; lia).
  reflexivity.
Qed.

Lemma DynamicCVV_window_witness :
  exists code,
    demo.DynamicCVV sample_hmac "4539578763621486" "3012" 1700000015 (30 * security.Second)
      (list_ascii_of_string "k") = Some (code, 1700000040)
    /\ demo.DynamicCVV sample_hmac "4539578763621486" "3012" 1700000039 (30 * security.Second)
         (list_ascii_of_string "k") = Some (code, 1700000040).
Proof.
  destruct (DynamicCVV_expires_at_window_end sample_hmac "4539578763621486" "3012"
              1700000015 (30 * security.Second) (list_ascii_of_string "k"))
    as (_ & _ & code & H).
  - lia.
  - unfold max_int64, security.Second. lia.
  - exists code. split; [apply (H 1700000015) | apply (H 1700000039)]; vm_compute;
      split; congruence.
Defined.

(** ** Properties of the PKCS#11 provider's helpers *)

Section HsmFacts.

Import cardgen.
Local Abbreviation bytes := list_ascii_of_string.

Lemma nibbles_range (mac : list ascii) : Forall (fun v => 0 <= v < 16) (nibbles mac).
Proof.
  unfold nibbles. induction mac as [|b mac IH]; simpl; [constructor|].
  pose proof (byte_val_range b) as Hb.
  constructor; [|constructor; [|exact IH]].
  - rewrite Z.shiftr_div_pow2 by lia. change (2 ^ 4) with 16.
    split; [apply Z.div_pos; lia | apply Z.div_lt_upper_bound; lia].
  - change 15 with (Z.ones 4). rewrite Z.land_ones by lia. change (2 ^ 4) with 16.
    apply Z.mod_pos_bound. lia.
Qed.

Lemma length_nibbles (mac : list ascii) : length (nibbles mac) = (2 * length mac)%nat.
Proof. unfold nibbles. induction mac as [|b mac IH]; simpl; [reflexivity | rewrite IH; lia]. Qed.

Lemma EncodeToString_nibbles (mac : list ascii) :
  bytes (hsm.EncodeToString mac) = map hsm.hex_digit (nibbles mac).
Proof.
  unfold hsm.EncodeToString, nibbles. rewrite list_ascii_of_string_of_list_ascii.
  induction mac as [|b mac IH]; simpl; [reflexivity | now rewrite IH].
Qed.

Lemma decimalized_table : forall_from decimalized_ok 0 16 = true.
Proof. vm_compute. reflexivity. Qed.

Lemma decimal_of_hex_digit (v : Z) :
  0 <= v < 16 -> hsm.decimal_of_hex (hsm.hex_digit v) = digit_char (v mod 10).
Proof.
  intros Hv. pose proof (forall_from_spec _ 0 16 v decimalized_table ltac:(lia)) as H.
  unfold decimalized_ok in H. now apply bool_decide_eq_true in H.
Qed.

Lemma take_decimals_nibbles (nib : list Z) (n : nat) :
  Forall (fun v => 0 <= v < 16) nib ->
  hsm.take_decimals (map hsm.hex_digit nib) n
  = map (fun v => digit_char (v mod 10)) (take n nib).
Proof.
  intros H. revert n. induction H as [|v nib Hv H IH]; intros [|n]; simpl; try reflexivity.
  now rewrite IH, decimal_of_hex_digit.
Qed.

Lemma digit_char_digit (v : Z) : is_digit (digit_char (v mod 10)) = true.
Proof.
  apply digit_char_is_digit. pose proof (Z.mod_pos_bound v 10). lia.
Qed.

Lemma pad_random_spec (k : nat) (rnd : tape) :
  length (fst (hsm.pad_random k rnd)) = k
  /\ forallb is_digit (fst (hsm.pad_random k rnd)) = true.
Proof.
  revert rnd. induction k as [|k IH]; intros rnd; simpl; [auto|].
  destruct rnd as [|buf rest].
  - specialize (IH []). destruct (hsm.pad_random k []) as [out t]. simpl in *.
    destruct IH as [-> ->]. split; reflexivity.
  - specialize (IH rest). destruct (hsm.pad_random k rest) as [out t]. simpl in *.
    destruct IH as [-> ->]. split; [reflexivity|].
    pose proof (Z.mod_pos_bound (byte_val (hd zero buf)) 10).
    now rewrite digit_char_is_digit by lia.
Qed.

End HsmFacts.

(** X17.  What decimalize returns.  For a count that is not negative the
    call does not panic and returns exactly that many decimal digits.
    When the count is at most twice the length of the MAC, no random byte
    is read and the digits are determined by the MAC alone: digit i is
    the i-th 4-bit half of the MAC, high halves first, reduced modulo
    ten, so the halves 10 to 15 give the digits 0 to 5. *)
Theorem decimalize_reads_the_mac (mac : list ascii) (n : Z) (rnd : cardgen.tape) :
  0 <= n ->
  exists s t,
    hsm.decimalize mac n rnd = Some (s, t)
    /\ len s = n
    /\ cardgen.IsDigits s = true
    /\ (n <= 2 * Z.of_nat (length mac) ->
        t = rnd
        /\ list_ascii_of_string s
           = map (fun v => digit_char (v mod 10)) (take (Z.to_nat n) (nibbles mac))).
Proof.
  intros Hn. unfold hsm.decimalize.
  destruct (Z.ltb_spec n 0); [lia|].
  rewrite EncodeToString_nibbles, (take_decimals_nibbles _ _ (nibbles_range mac)).
  set (out := map _ (take (Z.to_nat n) (nibbles mac))).
  assert (length out = Nat.min (Z.to_nat n) (2 * length mac)) as Hlo.
  { subst out. now rewrite length_map, length_take, length_nibbles. }
  assert (forallb cardgen.is_digit out = true) as Hdo.
  { subst out. apply forallb_forall. intros x Hx. apply in_map_iff in Hx as (v & <- & _).
    apply digit_char_digit. }
  pose proof (pad_random_spec (Z.to_nat n - length out) rnd) as [Hlp Hdp].
  destruct (hsm.pad_random (Z.to_nat n - length out) rnd) as [pad t] eqn:Ep. simpl in *.
  eexists _, _. split; [reflexivity|].
  split; [rewrite len_bytes, list_ascii_of_string_of_list_ascii, length_app; lia|].
  split.
  { now rewrite IsDigits_forallb, list_ascii_of_string_of_list_ascii, forallb_app, Hdo, Hdp. }
  intros Hle. replace (Z.to_nat n - length out)%nat with 0%nat in Ep by lia.
  simpl in Ep. injection Ep as <- <-. split; [reflexivity|].
  now rewrite list_ascii_of_string_of_list_ascii, app_nil_r.
Qed.

Lemma decimalize_witness :
  hsm.decimalize (map byte_of [171; 18; 240; 7]) 4 [] = Some ("0112", []).
Proof.
  destruct (decimalize_reads_the_mac (map byte_of [171; 18; 240; 7]) 4 []) as
    (s & t & E & _ & _ & H); [lia|].
  destruct H as [-> Hs]; [simpl; lia|]. rewrite E. do 2 f_equal.
  apply bytes_inj. rewrite Hs. reflexivity.
Defined.

(** X18.  assembleData is unambiguous on checked input.  The provider
    joins the PAN without check digit, the expiry and the service code
    without separators; since it has checked before that the expiry is a
    valid YYMM (four bytes) and the service code has three bytes, two
    inputs that give the same data, with the same window or without one,
    are the same input. *)
Theorem assembleData_is_unambiguous (p1 y1 s1 p2 y2 s2 : string) (window : option Z) :
  expiry.ValidateYYMM y1 = Ok tt -> len s1 = 3 ->
  expiry.ValidateYYMM y2 = Ok tt -> len s2 = 3 ->
  hsm.assembleData p1 y1 s1 window = hsm.assembleData p2 y2 s2 window ->
  p1 = p2 /\ y1 = y2 /\ s1 = s2.
Proof.
  intros Hy1 Hs1 Hy2 Hs2.
  assert (forall y, expiry.ValidateYYMM y = Ok tt -> len y = 4) as Hlen.
  { intros y. unfold expiry.ValidateYYMM.
    destruct (Z.eqb_spec (len y) 4); [auto | discriminate]. }
  apply Hlen in Hy1, Hy2. rewrite len_bytes in *.
  unfold hsm.assembleData.
  assert (list_ascii_of_string (p1 ++ y1 ++ s1) = list_ascii_of_string (p2 ++ y2 ++ s2) ->
          p1 = p2 /\ y1 = y2 /\ s1 = s2) as Hinj.
  { rewrite !bytes_app. intros E.
    apply app_inj_2 in E as [E1 E2]; [|rewrite !length_app; lia].
    apply app_inj_2 in E2 as [E2 E3]; [|lia].
    auto using bytes_inj. }
  destruct window as [w|]; [|exact Hinj].
  intros E. apply Hinj.
  rewrite (bytes_app (p1 ++ y1 ++ s1)), (bytes_app (p2 ++ y2 ++ s2)) in E.
  now apply app_inv_tail in E.
Qed.

Lemma assembleData_witness :
  hsm.assembleData "453957876362148" "3012" "101" (Some 56666667)
  <> hsm.assembleData "45395787636214" "8301" "201" (Some 56666667).
Proof.
  intros E.
  apply (assembleData_is_unambiguous "453957876362148" "3012" "101"
           "45395787636214" "8301" "201" (Some 56666667) eq_refl eq_refl eq_refl eq_refl) in E.
  destruct E as [E _]. discriminate E.
Defined.
